(** * Snowflake growth on a hexagonal lattice: model of [src/main.js]

    The simulation core of [main.js] (classes [SnowflakeCell] and
    [CrystalLattice], the [params] record and the hexagonal offsets) is
    embedded here as executable Rocq functions, and the properties of
    the three-pass update are proved about them.

    Modelling conventions.
    - JavaScript numbers holding masses and parameters are read twice.
      In the main development they are exact rationals ([Q]), with the
      boolean comparisons of [Q]: there the control flow, the store and
      the three passes are studied, and a property of the masses that
      needs exact arithmetic says so.  In [Binary64] the same functions
      are read over IEEE doubles, with the rounding, the infinities and
      the NaN of the numbers the code computes with.
    - Coordinates and the lattice radius are integers ([Z]).
    - The [Map] of a lattice, keyed by the string [q,r], is the list of
      its cells in insertion order; a cell is looked up by its own
      coordinates.  Cell methods mutate [this]: a method is a function
      from the old cell (and the store it reads its neighbours from) to
      the new cell, which the pass writes back under the same key.
    - [Math.random()] is an oracle: the value drawn in the noise step of
      the cell at [(q, r)]; [passThreeGen] has the one generator of the
      source, which hands its values out in visiting order.
    - A property read on [undefined] raises: fallible operations return
      a [Result].
    - The controller ([resetLattice], [stepLattice]) passes the
      module-level variables as a state; pixel coordinates
      ([hexToPixel], [drawLattice]) are real numbers ([R]), with
      [Math.sqrt(3)] the square root of 3. *)

From Stdlib Require Import ZArith QArith Qminmax Qround List Bool Lia Lqa.
From Stdlib Require Reals Lra.
From Stdlib Require Floats.
Import ListNotations.

Local Open Scope Z_scope.
Local Open Scope Q_scope.

(** ** Outcomes of fallible code *)

Inductive Result (A : Type) : Type :=
| Ok (a : A)
| TypeError      (* a property was read or written on [undefined] *)
| NotANumber.    (* [undefined] was used as a number *)

Arguments Ok {A} a.
Arguments TypeError {A}.
Arguments NotANumber {A}.

Definition bind {A B} (m : Result A) (f : A -> Result B) : Result B :=
  match m with
  | Ok a => f a
  | TypeError => TypeError
  | NotANumber => NotANumber
  end.

Notation "x <- m ;; k" := (bind m (fun x => k))
  (at level 61, m at next level, right associativity).

(** ** Numbers *)

(* x < y, x > y, x >= y on JavaScript numbers *)
Definition Qltb (x y : Q) : bool := negb (Qle_bool y x).
Definition Qgtb (x y : Q) : bool := Qltb y x.
Definition Qgeb (x y : Q) : bool := Qle_bool y x.

(* Math.max(a, b) *)
Definition Math_max (a b : Q) : Q := if Qle_bool a b then b else a.

(** ** Parameters *)

Record Params := mkParams {
  beta : Q;
  theta : Q;
  alpha : Q;
  kappa : Q;
  mu : Q;
  upsilon : Q;
  sigma : Q;
  gamma : Q
}.

(* the values of the [params] literal *)
Definition params : Params :=
  {| beta := 13 # 10;
     theta := 25 # 1000;
     alpha := 8 # 100;
     kappa := 3 # 1000;
     mu := 7 # 100;
     upsilon := 5 # 100000;
     sigma := 1 # 100000;
     gamma := 1 # 2 |}.

(** ** Hexagonal grid helpers *)

Definition HEX_DX : list Z := [1; 0; -1; -1; 0; 1]%Z.
Definition HEX_DY : list Z := [0; 1; 1; 0; -1; -1]%Z.

(** ** Cells *)

Definition Key : Type := (Z * Z)%type.

Record SnowflakeCell := mkCell {
  q : Z;
  r : Z;
  diffusiveMass : Q;
  boundaryMass : Q;
  crystalMass : Q;
  attached : bool;
  boundary : bool;
  age : Z;
  attachedNeighbors : option (list Key);   (* [None]: never assigned *)
  _next_dm : option Q;                     (* [None]: never assigned *)
  attachmentFlag : bool
}.

Definition key (c : SnowflakeCell) : Key := (q c, r c).

Definition key_eqb (a b : Key) : bool :=
  (fst a =? fst b)%Z && (snd a =? snd b)%Z.

(* field assignments on [this] *)
Definition set_diffusiveMass (v : Q) (c : SnowflakeCell) : SnowflakeCell :=
  mkCell (q c) (r c) v (boundaryMass c) (crystalMass c) (attached c)
         (boundary c) (age c) (attachedNeighbors c) (_next_dm c) (attachmentFlag c).
Definition set_boundaryMass (v : Q) (c : SnowflakeCell) : SnowflakeCell :=
  mkCell (q c) (r c) (diffusiveMass c) v (crystalMass c) (attached c)
         (boundary c) (age c) (attachedNeighbors c) (_next_dm c) (attachmentFlag c).
Definition set_crystalMass (v : Q) (c : SnowflakeCell) : SnowflakeCell :=
  mkCell (q c) (r c) (diffusiveMass c) (boundaryMass c) v (attached c)
         (boundary c) (age c) (attachedNeighbors c) (_next_dm c) (attachmentFlag c).
Definition set_attached (v : bool) (c : SnowflakeCell) : SnowflakeCell :=
  mkCell (q c) (r c) (diffusiveMass c) (boundaryMass c) (crystalMass c) v
         (boundary c) (age c) (attachedNeighbors c) (_next_dm c) (attachmentFlag c).
Definition set_boundary (v : bool) (c : SnowflakeCell) : SnowflakeCell :=
  mkCell (q c) (r c) (diffusiveMass c) (boundaryMass c) (crystalMass c) (attached c)
         v (age c) (attachedNeighbors c) (_next_dm c) (attachmentFlag c).
Definition set_age (v : Z) (c : SnowflakeCell) : SnowflakeCell :=
  mkCell (q c) (r c) (diffusiveMass c) (boundaryMass c) (crystalMass c) (attached c)
         (boundary c) v (attachedNeighbors c) (_next_dm c) (attachmentFlag c).
Definition set_attachedNeighbors (v : list Key) (c : SnowflakeCell) : SnowflakeCell :=
  mkCell (q c) (r c) (diffusiveMass c) (boundaryMass c) (crystalMass c) (attached c)
         (boundary c) (age c) (Some v) (_next_dm c) (attachmentFlag c).
Definition set_next_dm (v : Q) (c : SnowflakeCell) : SnowflakeCell :=
  mkCell (q c) (r c) (diffusiveMass c) (boundaryMass c) (crystalMass c) (attached c)
         (boundary c) (age c) (attachedNeighbors c) (Some v) (attachmentFlag c).
Definition set_attachmentFlag (v : bool) (c : SnowflakeCell) : SnowflakeCell :=
  mkCell (q c) (r c) (diffusiveMass c) (boundaryMass c) (crystalMass c) (attached c)
         (boundary c) (age c) (attachedNeighbors c) (_next_dm c) v.

(** ** The lattice store *)

Record CrystalLattice := mkLattice {
  size : Z;
  cells : list SnowflakeCell    (* the Map's values, in insertion order *)
}.

(* this.cells.get(`${q},${r}`) *)
Definition get (L : CrystalLattice) (k : Key) : option SnowflakeCell :=
  find (fun c => key_eqb (key c) k) (cells L).

(* the cell object stored under the key of [c'] now has the state [c'] *)
Definition put (L : CrystalLattice) (c' : SnowflakeCell) : CrystalLattice :=
  mkLattice (size L)
            (map (fun c => if key_eqb (key c) (key c') then c' else c) (cells L)).

(* the visiting order of [this.cells.values()] *)
Definition keys (L : CrystalLattice) : list Key := map key (cells L).

(* Map.prototype.set: replace the value of a present key, else append *)
Definition Map_set (cs : list SnowflakeCell) (c' : SnowflakeCell) : list SnowflakeCell :=
  if existsb (fun c => key_eqb (key c) (key c')) cs
  then map (fun c => if key_eqb (key c) (key c') then c' else c) cs
  else cs ++ [c'].

(* the values lo, lo+1, ..., hi of a counting loop *)
Definition zrange (lo hi : Z) : list Z :=
  map (fun i => (lo + Z.of_nat i)%Z) (seq 0 (Z.to_nat (hi - lo + 1))).

Section Simulation.

Variable P : Params.

(** *** class SnowflakeCell *)

(* constructor(q, r, lattice) *)
Definition newCell (q0 r0 : Z) : SnowflakeCell :=
  mkCell q0 r0 (gamma P) 0 0 false false 0%Z None None false.

(* get neighbors(): the cells found at the six offsets, in direction
   order.  The source computes the list once and caches the object
   references; the cell set never changes after construction, so the
   cached references denote the cells found here, in their current
   state. *)
Definition neighborsAt (q0 r0 : Z) (L : CrystalLattice) : list SnowflakeCell :=
  flat_map (fun d : Z * Z =>
              match get L ((q0 + fst d)%Z, (r0 + snd d)%Z) with
              | Some n => [n]
              | None => []
              end)
           (combine HEX_DX HEX_DY).

Definition neighbors (c : SnowflakeCell) (L : CrystalLattice) : list SnowflakeCell :=
  neighborsAt (q c) (r c) L.

Definition updateBoundary (c : SnowflakeCell) (L : CrystalLattice) : SnowflakeCell :=
  set_boundary (negb (attached c) && existsb attached (neighbors c L)) c.

(* returns the value and the cell with its age advanced *)
Definition diffusionCalc (c : SnowflakeCell) (L : CrystalLattice) : SnowflakeCell * Q :=
  if attached c then (c, diffusiveMass c)
  else
    let c1 := set_age (age c + 1)%Z c in
    let next_dm :=
      fold_left (fun acc n =>
                   acc + (if attached n then diffusiveMass c1 else diffusiveMass n))
                (neighbors c1 L) (diffusiveMass c1) in
    (c1, next_dm / inject_Z (Z.of_nat (length (neighbors c1 L)) + 1)).

Definition stepOne (c : SnowflakeCell) (L : CrystalLattice) : SnowflakeCell :=
  let c1 := updateBoundary c L in
  let c2 := if boundary c1
            then set_attachedNeighbors (map key (filter attached (neighbors c1 L))) c1
            else c1 in
  let '(c3, v) := diffusionCalc c2 L in
  set_next_dm v c3.

Definition freezingStep (c : SnowflakeCell) : SnowflakeCell :=
  if negb (boundary c) then c
  else
    let c1 := set_boundaryMass (boundaryMass c + (1 - kappa P) * diffusiveMass c) c in
    let c2 := set_crystalMass (crystalMass c1 + kappa P * diffusiveMass c1) c1 in
    set_diffusiveMass 0 c2.

Definition meltingStep (c : SnowflakeCell) : SnowflakeCell :=
  if negb (boundary c) then c
  else
    let c1 := set_diffusiveMass
                (diffusiveMass c + (mu P * boundaryMass c + upsilon P * crystalMass c)) c in
    let c2 := set_boundaryMass (boundaryMass c1 * (1 - mu P)) c1 in
    set_crystalMass (crystalMass c2 * (1 - upsilon P)) c2.

(* [u] is the value of Math.random() *)
Definition noiseStep (u : Q) (c : SnowflakeCell) : SnowflakeCell :=
  if attached c then c
  else
    let c1 := set_diffusiveMass (diffusiveMass c + (u - (1 # 2)) * sigma P * 2) c in
    set_diffusiveMass (Math_max 0 (diffusiveMass c1)) c1.

Definition attachmentStep (c : SnowflakeCell) (L : CrystalLattice) : Result bool :=
  if negb (boundary c) then Ok false
  else
    match attachedNeighbors c with
    | None => TypeError
    | Some l =>
        let attachedCount := Z.of_nat (length l) in
        if (attachedCount <=? 2)%Z then
          if Qgtb (boundaryMass c) (beta P) then Ok true else Ok false
        else if (attachedCount =? 3)%Z then
          if Qgeb (boundaryMass c) 1 then Ok true
          else
            let summedDiff :=
              fold_left (fun acc n => acc + diffusiveMass n)
                        (neighbors c L) (diffusiveMass c) in
            if Qltb summedDiff (theta P) && Qgeb (boundaryMass c) (alpha P)
            then Ok true else Ok false
        else Ok false
    end.

Definition attach (c : SnowflakeCell) : SnowflakeCell :=
  let c1 := set_crystalMass (crystalMass c + boundaryMass c) c in
  let c2 := set_boundaryMass 0 c1 in
  set_attached true c2.

Definition stepTwo (c : SnowflakeCell) (L : CrystalLattice) : Result SnowflakeCell :=
  match _next_dm c with
  | None => NotANumber
  | Some v =>
      let c1 := set_diffusiveMass v c in
      let c2 := set_attachmentFlag (attached c1) c1 in
      let c3 := freezingStep c2 in
      flag <- attachmentStep c3 L ;;
      let c4 := set_attachmentFlag flag c3 in
      Ok (meltingStep c4)
  end.

Definition stepThree (u : Q) (c : SnowflakeCell) : SnowflakeCell :=
  let c1 := if boundary c && attachmentFlag c then attach c else c in
  noiseStep u c1.

(** *** class CrystalLattice *)

(* the two nested loops of the constructor *)
Definition fill (sz : Z) : list SnowflakeCell :=
  fold_left
    (fun cs q0 =>
       fold_left
         (fun cs r0 =>
            if (Z.abs (q0 + r0) >? sz)%Z then cs
            else Map_set cs (newCell q0 r0))
         (zrange (- sz) sz) cs)
    (zrange (- sz) sz) [].

Definition construct (sz : Z) : Result CrystalLattice :=
  let L := mkLattice sz (fill sz) in
  match get L (0, 0)%Z with
  | Some c => Ok (put L (set_attached true c))
  | None => TypeError
  end.

(* one loop over the cells: the cell found under each visited key runs
   [f] and is written back *)
Fixpoint pass (f : SnowflakeCell -> CrystalLattice -> Result SnowflakeCell)
         (order : list Key) (L : CrystalLattice) : Result CrystalLattice :=
  match order with
  | [] => Ok L
  | k :: rest =>
      match get L k with
      | Some c => c' <- f c L ;; pass f rest (put L c')
      | None => pass f rest L
      end
  end.

Definition Noise : Type := Key -> Q.

(* the three loops of step() *)
Definition passOne : list Key -> CrystalLattice -> Result CrystalLattice :=
  pass (fun c S => Ok (stepOne c S)).

Definition passTwo : list Key -> CrystalLattice -> Result CrystalLattice :=
  pass stepTwo.

Definition passThree (rnd : Noise) : list Key -> CrystalLattice -> Result CrystalLattice :=
  pass (fun c _ => Ok (stepThree (rnd (key c)) c)).

(* step() with the visiting order of each loop made explicit *)
Definition stepWith (o1 o2 o3 : list Key) (rnd : Noise) (L : CrystalLattice)
  : Result CrystalLattice :=
  L1 <- passOne o1 L ;;
  L2 <- passTwo o2 L1 ;;
  passThree rnd o3 L2.

(* step(): every loop follows the Map's insertion order *)
Definition step (rnd : Noise) (L : CrystalLattice) : Result CrystalLattice :=
  L1 <- passOne (keys L) L ;;
  L2 <- passTwo (keys L1) L1 ;;
  passThree rnd (keys L2) L2.

(* one call of step() per element of [rnds], the noise of that call *)
Fixpoint steps (rnds : list Noise) (L : CrystalLattice) : Result CrystalLattice :=
  match rnds with
  | [] => Ok L
  | rnd :: rest => L' <- step rnd L ;; steps rest L'
  end.

(* the queries, as methods on the store: the array returned and the
   store after the call *)
Definition attachedCells (L : CrystalLattice) : list SnowflakeCell * CrystalLattice :=
  (filter (fun c => attached c) (cells L), L).

Definition boundaryCells (L : CrystalLattice) : list SnowflakeCell * CrystalLattice :=
  (filter (fun c => boundary c && negb (attached c)) (cells L), L).

End Simulation.

Arguments neighborsAt : simpl never.

(* the draw 0.5 everywhere: the noise term vanishes *)
Definition noNoise : Noise := fun _ => 1 # 2.

(** ** Quantities the properties speak of *)

Definition totalMass (c : SnowflakeCell) : Q :=
  diffusiveMass c + boundaryMass c + crystalMass c.

(* the three masses of a cell are non-negative, and so is its pending
   diffusive mass *)
Definition nonneg (c : SnowflakeCell) : Prop :=
  0 <= diffusiveMass c /\ 0 <= boundaryMass c /\ 0 <= crystalMass c /\
  forall v, _next_dm c = Some v -> 0 <= v.

Definition has_key (k : Key) (cs : list SnowflakeCell) : Prop :=
  existsb (fun c => key_eqb (key c) k) cs = true.

Definition raises {A} (res : Result A) : bool :=
  match res with Ok _ => false | _ => true end.

(* what diffusionCalc averages, in the words of the specification *)
Definition contribution (c n : SnowflakeCell) : Q :=
  if attached n then diffusiveMass c else diffusiveMass n.

Definition Qsum (l : list Q) : Q := fold_right Qplus 0 l.

Definition next_dm_spec (c : SnowflakeCell) (L : CrystalLattice) : Q :=
  (diffusiveMass c + Qsum (map (contribution c) (neighbors c L)))
  / inject_Z (Z.of_nat (length (neighbors c L)) + 1).

(* the fields that Pass 1 leaves alone *)
Definition same_matter (a b : SnowflakeCell) : Prop :=
  key a = key b /\ attached a = attached b /\
  diffusiveMass a = diffusiveMass b /\ boundaryMass a = boundaryMass b /\
  crystalMass a = crystalMass b /\ attachmentFlag a = attachmentFlag b.

(* the fields that Pass 2 leaves alone *)
Definition same_shape (a b : SnowflakeCell) : Prop :=
  key a = key b /\ attached a = attached b /\ boundary a = boundary b /\
  attachedNeighbors a = attachedNeighbors b /\ _next_dm a = _next_dm b.

(* the fields that Pass 3 leaves alone *)
Definition same_marks (a b : SnowflakeCell) : Prop :=
  key a = key b /\ boundary a = boundary b /\
  attachedNeighbors a = attachedNeighbors b /\ _next_dm a = _next_dm b /\
  attachmentFlag a = attachmentFlag b.

(* two stores hold the same keys, with cells related by [R] *)
Definition lift (R : SnowflakeCell -> SnowflakeCell -> Prop)
           (L L' : CrystalLattice) : Prop :=
  forall k, match get L k, get L' k with
            | Some a, Some b => R a b
            | None, None => True
            | _, _ => False
            end.

(* Pass 1 has run on the cell: stepTwo finds what it reads *)
Definition ready (c : SnowflakeCell) : Prop :=
  _next_dm c <> None /\ (boundary c = true -> attachedNeighbors c <> None).

(* an attached cell stays attached *)
Definition stays_attached (a b : SnowflakeCell) : Prop :=
  key a = key b /\ (attached a = true -> attached b = true).

(* an attached cell after Pass 1 *)
Definition settled (c : SnowflakeCell) : Prop :=
  attached c = true /\ boundary c = false /\ _next_dm c = Some (diffusiveMass c).

Definition same_masses (a b : SnowflakeCell) : Prop :=
  diffusiveMass b = diffusiveMass a /\ boundaryMass b = boundaryMass a /\
  crystalMass b = crystalMass a.

Definition keeps_settled (a b : SnowflakeCell) : Prop :=
  key a = key b /\ (settled a -> settled b /\ same_masses a b).

(* what Pass 1 leaves in a cell, in terms of the store [L0] the pass
   started from *)
Definition passOne_post (L0 : CrystalLattice) (c1 : SnowflakeCell) : Prop :=
  forall c0, get L0 (key c1) = Some c0 ->
    same_matter c0 c1 /\
    boundary c1 = negb (attached c0) && existsb attached (neighbors c0 L0) /\
    (boundary c1 = true ->
     attachedNeighbors c1 = Some (map key (filter attached (neighbors c0 L0)))) /\
    _next_dm c1 = _next_dm (stepOne c0 L0).

(* the boundary flag is unchanged *)
Definition same_boundary (a b : SnowflakeCell) : Prop :=
  key a = key b /\ boundary a = boundary b.

(* the parameter ranges under which masses stay non-negative *)
Definition valid_params (P : Params) : Prop :=
  (0 <= kappa P /\ kappa P <= 1) /\ (0 <= mu P /\ mu P <= 1) /\
  (0 <= upsilon P /\ upsilon P <= 1) /\ 0 <= gamma P /\ 0 <= sigma P.

Definition all_nonneg (L : CrystalLattice) : Prop :=
  forall c, In c (cells L) -> nonneg c.

Definition nonneg_masses (c : SnowflakeCell) : Prop :=
  0 <= diffusiveMass c /\ 0 <= boundaryMass c /\ 0 <= crystalMass c.

(* the attachment rule, in the words of the specification: [n] attached
   neighbours, boundary mass [bm], and [sum] the diffusive mass summed
   over the cell and its neighbours *)
Definition attach_spec (P : Params) (n : nat) (bm sum : Q) : Prop :=
  ((n = 1%nat \/ n = 2%nat) /\ beta P < bm) \/
  (n = 3%nat /\ (1 <= bm \/ (alpha P <= bm /\ sum < theta P))).

(* the cell as attachmentStep finds it in stepTwo: the candidate [v]
   committed, then frozen *)
Definition afterFreezing (P : Params) (c : SnowflakeCell) (v : Q) : SnowflakeCell :=
  freezingStep P (set_attachmentFlag (attached (set_diffusiveMass v c))
                                     (set_diffusiveMass v c)).

(* the number of neighbours of [c] that are attached in the store [S] *)
Definition attachedCount (c : SnowflakeCell) (S : CrystalLattice) : nat :=
  length (filter attached (neighbors c S)).

Definition sumDiffusive (c : SnowflakeCell) (S : CrystalLattice) : Q :=
  diffusiveMass c + Qsum (map diffusiveMass (neighbors c S)).

Definition same_attached (a b : SnowflakeCell) : Prop :=
  key a = key b /\ attached a = attached b.

(* no two cells share a coordinate, as in a Map *)
Definition wf (L : CrystalLattice) : Prop := NoDup (keys L).

(* a loop as one simultaneous update: every cell whose key is in [o]
   becomes [g] of its old state *)
Definition mem (k : Key) (o : list Key) : bool := existsb (key_eqb k) o.

Definition sync (g : SnowflakeCell -> SnowflakeCell) (o : list Key)
           (L : CrystalLattice) : CrystalLattice :=
  mkLattice (size L) (map (fun c => if mem (key c) o then g c else c) (cells L)).

(** ** Concrete lattices *)

Definition orElse {A} (res : Result A) (d : A) : A :=
  match res with Ok a => a | _ => d end.

Definition attachedAt (res : Result CrystalLattice) (k : Key) : option bool :=
  match res with
  | Ok L => option_map attached (get L k)
  | _ => None
  end.

(* radius 1 with the default parameters: after construction, after
   Pass 1, and after one step without noise *)
Definition lattice1 : CrystalLattice :=
  Eval vm_compute in orElse (construct params 1) (mkLattice 1 []).

Definition lattice1_passOne : CrystalLattice :=
  Eval vm_compute in orElse (passOne (keys lattice1) lattice1) lattice1.

Definition lattice1_step : CrystalLattice :=
  Eval vm_compute in orElse (step params noNoise lattice1) lattice1.

(* the default parameters with the threshold beta lowered to 0 *)
Definition params_beta0 : Params :=
  mkParams 0 (theta params) (alpha params) (kappa params) (mu params)
           (upsilon params) (sigma params) (gamma params).

(* radius 2, beta = 0, one step without noise: the six neighbours of the
   seed attach *)
Definition lattice2_grown : CrystalLattice :=
  Eval vm_compute in
    orElse (L <- construct params_beta0 2 ;; step params_beta0 noNoise L)
           (mkLattice 2 []).

(* parameters and draws that grow a pocket: a cell with three attached
   neighbours, in two steps from construction *)
Definition pocket_params : Params :=
  {| beta := 1 # 5; theta := 1 # 5; alpha := 0;
     kappa := 0; mu := 0; upsilon := 0; sigma := 1; gamma := 0 |}.

Definition pocket_draws : Noise :=
  fun k => if existsb (key_eqb k) [(0, 1); (1, -1); (0, 2); (-1, 2); (1, -2); (2, -2)]%Z
           then 3 # 4 else 1 # 2.

Definition pocket : Result CrystalLattice :=
  L <- construct pocket_params 2 ;; steps pocket_params [pocket_draws; noNoise] L.

(* the cell (1,0) of [lattice1], after construction and after Pass 1 *)
Definition lattice1_cell0 : SnowflakeCell :=
  Eval vm_compute in
    match get lattice1 (1, 0)%Z with Some c => c | None => newCell params 1 0 end.

Definition lattice1_cell : SnowflakeCell :=
  Eval vm_compute in
    match get lattice1_passOne (1, 0)%Z with Some c => c | None => newCell params 1 0 end.

(* the seed of [lattice1] *)
Definition lattice1_seed : SnowflakeCell :=
  Eval vm_compute in
    match get lattice1 (0, 0)%Z with Some c => c | None => newCell params 0 0 end.

(* the cell (1,0) of [lattice2_grown] *)
Definition lattice2_cell : SnowflakeCell :=
  Eval vm_compute in
    match get lattice2_grown (1, 0)%Z with Some c => c | None => newCell params 1 0 end.

(* the draws of [pocket_draws] under the point reflection of the lattice *)
Definition pocket_draws_mirrored : Noise :=
  fun k => pocket_draws ((- fst k)%Z, (- snd k)%Z).

Definition pocket_mirrored : Result CrystalLattice :=
  L <- construct pocket_params 2 ;;
  steps pocket_params [pocket_draws_mirrored; noNoise] L.

(* the cells of [L'] are those of [L] reflected through the origin *)
Definition reflected (L L' : CrystalLattice) : bool :=
  forallb
    (fun c =>
       match get L' ((- q c)%Z, (- r c)%Z) with
       | Some c' =>
           Qeq_bool (diffusiveMass c) (diffusiveMass c') &&
           Qeq_bool (boundaryMass c) (boundaryMass c') &&
           Qeq_bool (crystalMass c) (crystalMass c') &&
           Bool.eqb (attached c) (attached c') &&
           Bool.eqb (boundary c) (boundary c')
       | None => false
       end)
    (cells L).

(* the keys visited before [k] in the order [o] *)
Fixpoint visitedBefore (k : Key) (o : list Key) : list Key :=
  match o with
  | [] => []
  | x :: rest => if key_eqb x k then [] else x :: visitedBefore k rest
  end.

(** ** The lattice as a region of the hexagonal grid *)

(* the distance of a coordinate from the origin, in cells *)
Definition hexDistance (k : Key) : Z :=
  Z.max (Z.abs (fst k)) (Z.max (Z.abs (snd k)) (Z.abs (fst k + snd k))).

(* the coordinate [k] seen from [k0] *)
Definition offset (k0 k : Key) : Key := (fst k - fst k0, snd k - snd k0)%Z.

(* the cell the constructor leaves at [k] *)
Definition initialCell (P : Params) (k : Key) : SnowflakeCell :=
  if key_eqb k (0, 0)%Z then set_attached true (newCell P 0 0)
  else newCell P (fst k) (snd k).

(* a cell the crystal has not reached: never attached, never boundary *)
Definition pristine (c : SnowflakeCell) : Prop :=
  attached c = false /\ boundary c = false /\
  boundaryMass c = 0 /\ crystalMass c = 0.

(* a cell that is not boundary keeps its flags and its frozen masses *)
Definition keeps_idle (a b : SnowflakeCell) : Prop :=
  key a = key b /\
  (boundary a = false ->
   boundary b = false /\ attached b = attached a /\
   boundaryMass b = boundaryMass a /\ crystalMass b = crystalMass a).

(* every cell farther than [n] from the origin is pristine *)
Definition front (n : Z) (L : CrystalLattice) : Prop :=
  forall k c, get L k = Some c -> (n < hexDistance k)%Z -> pristine c.

(* an attached cell holds no boundary mass *)
Definition drained (c : SnowflakeCell) : Prop :=
  attached c = true -> boundaryMass c = 0.

Definition keeps_drained (a b : SnowflakeCell) : Prop :=
  key a = key b /\
  ((attached a = true -> boundary a = false) -> drained a ->
   (attached b = true -> boundary b = false) /\ drained b).

Definition drains (a b : SnowflakeCell) : Prop :=
  key a = key b /\ (drained a -> drained b).

(* the age field is unchanged, and attachment is kept *)
Definition ages (a b : SnowflakeCell) : Prop :=
  key a = key b /\ age a = age b /\ (attached a = true -> attached b = true).

(* the coordinates of the hexagonal region of radius [sz], row by row *)
Definition regionKeys (sz : Z) : list Key :=
  flat_map (fun q0 => map (fun r0 => (q0, r0))
                          (zrange (Z.max (- sz) (- sz - q0)) (Z.min sz (sz - q0))))
           (zrange (- sz) sz).

Definition Zsum (l : list Z) : Z := fold_right Z.add 0%Z l.

(** ** The controller: resetLattice and stepLattice

    The module-level variables [lattice], [group] and [currentStep]
    are the state; the step-counter element shows [currentStep].  Of
    [group] the state records whether it has been assigned: its meshes
    are those that drawLattice computes from the lattice.  A function
    returns the state it leaves and whether it threw. *)

Record Simulation := mkSimulation {
  lattice : option CrystalLattice;    (* [None]: not assigned yet *)
  group : bool;                       (* whether [group] holds a THREE.Group *)
  currentStep : Z
}.

(* drawLattice() as the controller sees it: group.clear() and
   lattice.attachedCells() throw on a variable that is not assigned *)
Definition redraw (s : Simulation) : Result unit :=
  if group s then
    match lattice s with Some _ => Ok tt | None => TypeError end
  else TypeError.

(* resetLattice(), with params.gridSize *)
Definition resetLattice (P : Params) (gridSize : Q) (s : Simulation)
  : Simulation * Result unit :=
  let s1 := mkSimulation (lattice s) (group s) 0 in
  match construct P (Qfloor (gridSize / 2)) with
  | Ok L =>
      let s2 := mkSimulation (Some L) true (currentStep s1) in
      (s2, redraw s2)
  | TypeError => (s1, TypeError)
  | NotANumber => (s1, NotANumber)
  end.

(* the loop of stepLattice(): [n] iterations are left, [i] are done;
   [rnds i] is the noise of iteration [i] *)
Fixpoint stepLoop (P : Params) (rnds : nat -> Noise) (n i : nat) (s : Simulation)
  : Simulation * Result unit :=
  match n with
  | O => (s, Ok tt)
  | S n' =>
      match lattice s with
      | None => (s, TypeError)
      | Some L =>
          match step P (rnds i) L with
          | Ok L' =>
              stepLoop P rnds n' (S i)
                       (mkSimulation (Some L') (group s) (currentStep s + 1))
          | TypeError => (s, TypeError)
          | NotANumber => (s, NotANumber)
          end
      end
  end.

(* stepLattice(), with params.stepsPerFrame *)
Definition stepLattice (P : Params) (stepsPerFrame : Z) (rnds : nat -> Noise)
           (s : Simulation) : Simulation * Result unit :=
  match stepLoop P rnds (Z.to_nat stepsPerFrame) 0 s with
  | (s', Ok _) => (s', redraw s')
  | thrown => thrown
  end.

(* successive calls of stepLattice(), each with its stepsPerFrame and
   its noise *)
Fixpoint runFrames (P : Params) (frames : list (Z * (nat -> Noise)))
         (s : Simulation) : Simulation * Result unit :=
  match frames with
  | [] => (s, Ok tt)
  | (n, rnds) :: rest =>
      match stepLattice P n rnds s with
      | (s', Ok _) => runFrames P rest s'
      | (s', TypeError) => (s', TypeError)
      | (s', NotANumber) => (s', NotANumber)
      end
  end.

(* the steps that a list of frames asks for *)
Definition framesTotal (frames : list (Z * (nat -> Noise))) : Z :=
  Zsum (map (fun f => Z.max 0 (fst f)) frames).

(** ** Drawing: hexToPixel and drawLattice

    Pixel coordinates are real numbers, [Math.sqrt(3)] is the square
    root of 3.  A mesh of the scene is the hexagon that drawLattice
    adds to the group: its position, the radius of its circle geometry
    and its colour. *)

Module Pixel.

Import Reals.
Local Open Scope R_scope.

(* hexToPixel(q, r, size) *)
Definition hexToPixel (q0 r0 : Z) (size : R) : R * R :=
  let x := size * 3 / 2 * IZR q0 in
  let y := size * sqrt 3 * (IZR r0 + IZR q0 / 2) in
  (x, y).

Record Mesh := mkMesh {
  position : R * R * R;
  radius : R;
  color : Z
}.

Definition hexMesh (cellSize : R) (z : R) (colour : Z) (cell : SnowflakeCell) : Mesh :=
  let '(x, y) := hexToPixel (q cell) (r cell) cellSize in
  mkMesh (x, y, z) (cellSize * (95 / 100)) colour.

(* drawLattice(canvasScale): the group after the call *)
Definition drawLattice (canvasScale : R) (L : CrystalLattice) : list Mesh :=
  let cellSize := canvasScale in
  map (hexMesh cellSize 0 0x99ccff%Z) (fst (attachedCells L)) ++
  map (hexMesh cellSize (1 / 10) 0xffcc99%Z) (fst (boundaryCells L)).

(* where a mesh lies in the plane *)
Definition planePosition (m : Mesh) : R * R := fst (position m).

(* the square of the distance between two points of the plane *)
Definition distance2 (a b : R * R) : R :=
  (fst a - fst b) * (fst a - fst b) + (snd a - snd b) * (snd a - snd b).

End Pixel.

(* no boundary cell of [L] has a snapshot of exactly three attached
   neighbours: no attachment test will sum the neighbours *)
Definition noPocket (L : CrystalLattice) : Prop :=
  forall k c l, get L k = Some c -> boundary c = true ->
                attachedNeighbors c = Some l -> length l <> 3%nat.

(* every cell of [L] has been through Pass 1 *)
Definition allReady (L : CrystalLattice) : Prop :=
  forall k c, get L k = Some c -> ready c.

(** ** More concrete lattices *)

(* radius 2 with beta = 0, as constructed *)
Definition lattice2 : CrystalLattice :=
  Eval vm_compute in orElse (construct params_beta0 2) (mkLattice 2 []).

(* the cell (2,0) of [lattice2_grown] *)
Definition lattice2_rim : SnowflakeCell :=
  Eval vm_compute in
    match get lattice2_grown (2, 0)%Z with Some c => c | None => newCell params 2 0 end.

(* the cell (1,0) of [lattice1] after one step *)
Definition lattice1_cell_step : SnowflakeCell :=
  Eval vm_compute in
    match get lattice1_step (1, 0)%Z with Some c => c | None => newCell params 1 0 end.

(* the cell (1,0) of [lattice1_passOne] after stepTwo *)
Definition lattice1_cell_two : SnowflakeCell :=
  Eval vm_compute in
    orElse (stepTwo params lattice1_cell lattice1_passOne) lattice1_cell.

(* a controller state before the first reset, and after a reset with
   gridSize 3 *)
Definition simulation0 : Simulation := mkSimulation None false 0.

Definition simulation1 : Simulation := mkSimulation (Some lattice1) true 0.

Definition frameNoise : nat -> Noise := fun _ => noNoise.

(** ** The GUI: the ranges the sliders are declared with *)

Definition guiRange (P : Params) (gridSize : Q) : Prop :=
  (21 <= gridSize /\ gridSize <= 101) /\
  (1 <= beta P /\ beta P <= 3) /\
  (1 # 100 <= theta P /\ theta P <= 1 # 10) /\
  (1 # 100 <= alpha P /\ alpha P <= 2 # 10) /\
  (5 # 10000 <= kappa P /\ kappa P <= 1 # 100) /\
  (1 # 100 <= mu P /\ mu P <= 2 # 10) /\
  (1 # 100000 <= upsilon P /\ upsilon P <= 1 # 1000) /\
  (1 # 1000000 <= sigma P /\ sigma P <= 1 # 1000) /\
  (1 # 10 <= gamma P /\ gamma P <= 1).

(** ** Math.random() as one generator

    [Noise] gives every cell its draw.  The source has one generator:
    noiseStep takes its next value when it runs on an unattached cell,
    so that the value a cell receives depends on how many unattached
    cells were visited before it. *)

(* the successive values of Math.random() *)
Definition Generator : Type := nat -> Q.

(* stepThree() with the generator: [i] values have been drawn *)
Definition stepThreeGen (P : Params) (gen : Generator) (i : nat) (c : SnowflakeCell)
  : SnowflakeCell * nat :=
  let c1 := if boundary c && attachmentFlag c then attach c else c in
  (noiseStep P (gen i) c1, if attached c1 then i else S i).

(* the third loop of step() with the generator *)
Fixpoint passThreeGen (P : Params) (gen : Generator) (order : list Key) (i : nat)
         (L : CrystalLattice) : CrystalLattice * nat :=
  match order with
  | [] => (L, i)
  | k :: rest =>
      match get L k with
      | Some c =>
          let '(c', i') := stepThreeGen P gen i c in
          passThreeGen P gen rest i' (put L c')
      | None => passThreeGen P gen rest i L
      end
  end.

(* whether stepThree() on [c] takes a value from the generator *)
Definition draws (c : SnowflakeCell) : bool :=
  negb (attached c || boundary c && attachmentFlag c).

(* the number of values drawn before the cell at [k] is visited *)
Fixpoint drawsBefore (k : Key) (o : list Key) (L : CrystalLattice) : nat :=
  match o with
  | [] => O
  | x :: rest =>
      if key_eqb x k then O
      else ((match get L x with
             | Some c => if draws c then 1 else 0
             | None => 0
             end) + drawsBefore k rest L)%nat
  end.

(* the value of Math.random() that the cell at [k] receives *)
Definition drawOf (gen : Generator) (o : list Key) (L : CrystalLattice) : Noise :=
  fun k => gen (drawsBefore k o L).

(* the generator 0, 0.1, 0.2, ..., 0.9, 0, 0.1, ... *)
Definition countingGenerator : Generator :=
  fun i => inject_Z (Z.of_nat (i mod 10)) / 10.

(* 2^-1074, the smallest positive double *)
Definition minDouble : Q := 1 # 2 ^ 1074.

(** * The same code over IEEE doubles

    JavaScript numbers are binary64 floating-point numbers.  The
    definitions above read the arithmetic of [main.js] over exact
    rationals; here the same functions are read over the doubles the
    code computes with: every sum, product and quotient is rounded to
    the nearest double, a sum can overflow to [Infinity], and
    [0 * Infinity] is [NaN].  Control flow, the store and the visiting
    orders are as above; coordinates and [age] stay integers. *)

Module Binary64.

Import Floats.
Local Open Scope float_scope.
#[local] Set Warnings "-inexact-float".

(* the real number a finite double stands for *)
Definition value (x : float) : option Q :=
  match Prim2SF x with
  | S754_zero _ => Some 0%Q
  | S754_finite s m e =>
      Some ((if s then - inject_Z (Zpos m) else inject_Z (Zpos m)) * Qpower 2 e)%Q
  | S754_infinity _ | S754_nan => None
  end.

(* the double nearest to an integer *)
Definition ofZ (z : Z) : float := SF2Prim (binary_normalize prec emax z 0 false).

(* the integer a double stands for, when it is one; [-0] is 0 *)
Definition toZ (x : float) : option Z :=
  match Prim2SF x with
  | S754_zero _ => Some 0%Z
  | S754_finite s m e =>
      if (0 <=? e)%Z
      then Some (if s then - (Zpos m * 2 ^ e) else Zpos m * 2 ^ e)%Z
      else None
  | S754_infinity _ | S754_nan => None
  end.

(* Math.max(a, b) *)
Definition Math_max (a b : float) : float :=
  if is_nan a || is_nan b then nan
  else if a <? b then b
  else if b <? a then a
  else if get_sign a then b else a.

(* Math.floor(x) *)
Definition Math_floor (x : float) : float :=
  match Prim2SF x with
  | S754_finite s m e =>
      if (0 <=? e)%Z then x
      else ofZ (Z.shiftr (if s then Zneg m else Zpos m) (- e))
  | _ => x
  end.

Record Params := mkParams {
  beta : float;
  theta : float;
  alpha : float;
  kappa : float;
  mu : float;
  upsilon : float;
  sigma : float;
  gamma : float
}.

(* the values of the [params] literal *)
Definition params : Params :=
  {| beta := 1.3;
     theta := 0.025;
     alpha := 0.08;
     kappa := 0.003;
     mu := 0.07;
     upsilon := 0.00005;
     sigma := 0.00001;
     gamma := 0.5 |}.

Record SnowflakeCell := mkCell {
  q : Z;
  r : Z;
  diffusiveMass : float;
  boundaryMass : float;
  crystalMass : float;
  attached : bool;
  boundary : bool;
  age : Z;
  attachedNeighbors : option (list Key);   (* [None]: never assigned *)
  _next_dm : option float;                 (* [None]: never assigned *)
  attachmentFlag : bool
}.

Definition key (c : SnowflakeCell) : Key := (q c, r c).

(* field assignments on [this] *)
Definition set_diffusiveMass (v : float) (c : SnowflakeCell) : SnowflakeCell :=
  mkCell (q c) (r c) v (boundaryMass c) (crystalMass c) (attached c)
         (boundary c) (age c) (attachedNeighbors c) (_next_dm c) (attachmentFlag c).
Definition set_boundaryMass (v : float) (c : SnowflakeCell) : SnowflakeCell :=
  mkCell (q c) (r c) (diffusiveMass c) v (crystalMass c) (attached c)
         (boundary c) (age c) (attachedNeighbors c) (_next_dm c) (attachmentFlag c).
Definition set_crystalMass (v : float) (c : SnowflakeCell) : SnowflakeCell :=
  mkCell (q c) (r c) (diffusiveMass c) (boundaryMass c) v (attached c)
         (boundary c) (age c) (attachedNeighbors c) (_next_dm c) (attachmentFlag c).
Definition set_attached (v : bool) (c : SnowflakeCell) : SnowflakeCell :=
  mkCell (q c) (r c) (diffusiveMass c) (boundaryMass c) (crystalMass c) v
         (boundary c) (age c) (attachedNeighbors c) (_next_dm c) (attachmentFlag c).
Definition set_boundary (v : bool) (c : SnowflakeCell) : SnowflakeCell :=
  mkCell (q c) (r c) (diffusiveMass c) (boundaryMass c) (crystalMass c) (attached c)
         v (age c) (attachedNeighbors c) (_next_dm c) (attachmentFlag c).
Definition set_age (v : Z) (c : SnowflakeCell) : SnowflakeCell :=
  mkCell (q c) (r c) (diffusiveMass c) (boundaryMass c) (crystalMass c) (attached c)
         (boundary c) v (attachedNeighbors c) (_next_dm c) (attachmentFlag c).
Definition set_attachedNeighbors (v : list Key) (c : SnowflakeCell) : SnowflakeCell :=
  mkCell (q c) (r c) (diffusiveMass c) (boundaryMass c) (crystalMass c) (attached c)
         (boundary c) (age c) (Some v) (_next_dm c) (attachmentFlag c).
Definition set_next_dm (v : float) (c : SnowflakeCell) : SnowflakeCell :=
  mkCell (q c) (r c) (diffusiveMass c) (boundaryMass c) (crystalMass c) (attached c)
         (boundary c) (age c) (attachedNeighbors c) (Some v) (attachmentFlag c).
Definition set_attachmentFlag (v : bool) (c : SnowflakeCell) : SnowflakeCell :=
  mkCell (q c) (r c) (diffusiveMass c) (boundaryMass c) (crystalMass c) (attached c)
         (boundary c) (age c) (attachedNeighbors c) (_next_dm c) v.

Record CrystalLattice := mkLattice {
  size : Z;
  cells : list SnowflakeCell    (* the Map's values, in insertion order *)
}.

(* this.cells.get(`${q},${r}`) *)
Definition get (L : CrystalLattice) (k : Key) : option SnowflakeCell :=
  find (fun c => key_eqb (key c) k) (cells L).

(* the cell object stored under the key of [c'] now has the state [c'] *)
Definition put (L : CrystalLattice) (c' : SnowflakeCell) : CrystalLattice :=
  mkLattice (size L)
            (map (fun c => if key_eqb (key c) (key c') then c' else c) (cells L)).

(* the visiting order of [this.cells.values()] *)
Definition keys (L : CrystalLattice) : list Key := map key (cells L).

(* Map.prototype.set: replace the value of a present key, else append *)
Definition Map_set (cs : list SnowflakeCell) (c' : SnowflakeCell) : list SnowflakeCell :=
  if existsb (fun c => key_eqb (key c) (key c')) cs
  then map (fun c => if key_eqb (key c) (key c') then c' else c) cs
  else cs ++ [c'].

(* hexToPixel(q, r, size) *)
Definition hexToPixel (q0 r0 : Z) (size : float) : float * float :=
  let x := size * 3 / 2 * ofZ q0 in
  let y := size * sqrt 3 * (ofZ r0 + ofZ q0 / 2) in
  (x, y).

(* the argument resetLattice() gives to the constructor *)
Definition latticeRadius (gridSize : float) : float := Math_floor (gridSize / 2).

Section Simulation.

Variable P : Params.

(* constructor(q, r, lattice) *)
Definition newCell (q0 r0 : Z) : SnowflakeCell :=
  mkCell q0 r0 (gamma P) 0 0 false false 0%Z None None false.

(* get neighbors() *)
Definition neighborsAt (q0 r0 : Z) (L : CrystalLattice) : list SnowflakeCell :=
  flat_map (fun d : Z * Z =>
              match get L ((q0 + fst d)%Z, (r0 + snd d)%Z) with
              | Some n => [n]
              | None => []
              end)
           (combine HEX_DX HEX_DY).

Definition neighbors (c : SnowflakeCell) (L : CrystalLattice) : list SnowflakeCell :=
  neighborsAt (q c) (r c) L.

Definition updateBoundary (c : SnowflakeCell) (L : CrystalLattice) : SnowflakeCell :=
  set_boundary (negb (attached c) && existsb attached (neighbors c L)) c.

(* returns the value and the cell with its age advanced *)
Definition diffusionCalc (c : SnowflakeCell) (L : CrystalLattice)
  : SnowflakeCell * float :=
  if attached c then (c, diffusiveMass c)
  else
    let c1 := set_age (age c + 1)%Z c in
    let next_dm :=
      fold_left (fun acc n =>
                   acc + (if attached n then diffusiveMass c1 else diffusiveMass n))
                (neighbors c1 L) (diffusiveMass c1) in
    (c1, next_dm / ofZ (Z.of_nat (length (neighbors c1 L)) + 1)).

Definition stepOne (c : SnowflakeCell) (L : CrystalLattice) : SnowflakeCell :=
  let c1 := updateBoundary c L in
  let c2 := if boundary c1
            then set_attachedNeighbors (map key (filter attached (neighbors c1 L))) c1
            else c1 in
  let '(c3, v) := diffusionCalc c2 L in
  set_next_dm v c3.

Definition freezingStep (c : SnowflakeCell) : SnowflakeCell :=
  if negb (boundary c) then c
  else
    let c1 := set_boundaryMass (boundaryMass c + (1 - kappa P) * diffusiveMass c) c in
    let c2 := set_crystalMass (crystalMass c1 + kappa P * diffusiveMass c1) c1 in
    set_diffusiveMass 0 c2.

Definition meltingStep (c : SnowflakeCell) : SnowflakeCell :=
  if negb (boundary c) then c
  else
    let c1 := set_diffusiveMass
                (diffusiveMass c + (mu P * boundaryMass c + upsilon P * crystalMass c)) c in
    let c2 := set_boundaryMass (boundaryMass c1 * (1 - mu P)) c1 in
    set_crystalMass (crystalMass c2 * (1 - upsilon P)) c2.

(* [u] is the value of Math.random() *)
Definition noiseStep (u : float) (c : SnowflakeCell) : SnowflakeCell :=
  if attached c then c
  else
    let c1 := set_diffusiveMass (diffusiveMass c + (u - 0.5) * sigma P * 2) c in
    set_diffusiveMass (Math_max 0 (diffusiveMass c1)) c1.

Definition attachmentStep (c : SnowflakeCell) (L : CrystalLattice) : Result bool :=
  if negb (boundary c) then Ok false
  else
    match attachedNeighbors c with
    | None => TypeError
    | Some l =>
        let attachedCount := Z.of_nat (length l) in
        if (attachedCount <=? 2)%Z then
          if beta P <? boundaryMass c then Ok true else Ok false
        else if (attachedCount =? 3)%Z then
          if 1 <=? boundaryMass c then Ok true
          else
            let summedDiff :=
              fold_left (fun acc n => acc + diffusiveMass n)
                        (neighbors c L) (diffusiveMass c) in
            if (summedDiff <? theta P) && (alpha P <=? boundaryMass c)
            then Ok true else Ok false
        else Ok false
    end.

Definition attach (c : SnowflakeCell) : SnowflakeCell :=
  let c1 := set_crystalMass (crystalMass c + boundaryMass c) c in
  let c2 := set_boundaryMass 0 c1 in
  set_attached true c2.

Definition stepTwo (c : SnowflakeCell) (L : CrystalLattice) : Result SnowflakeCell :=
  match _next_dm c with
  | None => NotANumber
  | Some v =>
      let c1 := set_diffusiveMass v c in
      let c2 := set_attachmentFlag (attached c1) c1 in
      let c3 := freezingStep c2 in
      flag <- attachmentStep c3 L ;;
      let c4 := set_attachmentFlag flag c3 in
      Ok (meltingStep c4)
  end.

Definition stepThree (u : float) (c : SnowflakeCell) : SnowflakeCell :=
  let c1 := if boundary c && attachmentFlag c then attach c else c in
  noiseStep u c1.

(* the two nested loops of the constructor *)
Definition fill (sz : Z) : list SnowflakeCell :=
  fold_left
    (fun cs q0 =>
       fold_left
         (fun cs r0 =>
            if (Z.abs (q0 + r0) >? sz)%Z then cs
            else Map_set cs (newCell q0 r0))
         (zrange (- sz) sz) cs)
    (zrange (- sz) sz) [].

Definition construct (sz : Z) : Result CrystalLattice :=
  let L := mkLattice sz (fill sz) in
  match get L (0, 0)%Z with
  | Some c => Ok (put L (set_attached true c))
  | None => TypeError
  end.

(* one loop over the cells *)
Fixpoint pass (f : SnowflakeCell -> CrystalLattice -> Result SnowflakeCell)
         (order : list Key) (L : CrystalLattice) : Result CrystalLattice :=
  match order with
  | [] => Ok L
  | k :: rest =>
      match get L k with
      | Some c => c' <- f c L ;; pass f rest (put L c')
      | None => pass f rest L
      end
  end.

(* the value of Math.random() in the noise step of each cell *)
Definition Noise : Type := Key -> float.

Definition passOne : list Key -> CrystalLattice -> Result CrystalLattice :=
  pass (fun c S => Ok (stepOne c S)).

Definition passTwo : list Key -> CrystalLattice -> Result CrystalLattice :=
  pass stepTwo.

Definition passThree (rnd : Noise) : list Key -> CrystalLattice -> Result CrystalLattice :=
  pass (fun c _ => Ok (stepThree (rnd (key c)) c)).

(* step(): every loop follows the Map's insertion order *)
Definition step (rnd : Noise) (L : CrystalLattice) : Result CrystalLattice :=
  L1 <- passOne (keys L) L ;;
  L2 <- passTwo (keys L1) L1 ;;
  passThree rnd (keys L2) L2.

Fixpoint steps (rnds : list Noise) (L : CrystalLattice) : Result CrystalLattice :=
  match rnds with
  | [] => Ok L
  | rnd :: rest => L' <- step rnd L ;; steps rest L'
  end.

End Simulation.

(* the draw 0.5 everywhere: the noise term vanishes *)
Definition noNoise : Noise := fun _ => 0.5.

(* the sum of the three masses as a real number, when they are finite *)
Definition totalMass (c : SnowflakeCell) : option Q :=
  match value (diffusiveMass c), value (boundaryMass c), value (crystalMass c) with
  | Some d, Some b, Some m => Some (d + b + m)%Q
  | _, _, _ => None
  end.

(* both totals are finite and equal *)
Definition sameTotal (a b : SnowflakeCell) : bool :=
  match totalMass a, totalMass b with
  | Some x, Some y => Qeq_bool x y
  | _, _ => false
  end.

(* x >= 0, as JavaScript evaluates it *)
Definition isNonnegative (x : float) : bool := 0 <=? x.

(* x < 0 is false: x is NaN, a zero, or positive *)
Definition notNegative (x : float) : Prop := (x <? 0) = false.

(* the parameter preconditions, as JavaScript evaluates them *)
Definition validParams (P : Params) : bool :=
  (0 <=? kappa P) && (kappa P <=? 1) && (0 <=? mu P) && (mu P <=? 1) &&
  (0 <=? upsilon P) && (upsilon P <=? 1) && (0 <=? gamma P) && (0 <=? sigma P).

(* none of the three masses is negative *)
Definition massesNotNegative (c : SnowflakeCell) : Prop :=
  notNegative (diffusiveMass c) /\ notNegative (boundaryMass c) /\
  notNegative (crystalMass c).

(* x < 0 is false, and x >= 0 is true unless x is NaN *)
Definition nonnegativeUnlessNaN (x : float) : Prop :=
  (x <? 0) = false /\ (is_nan x = false -> (0 <=? x) = true).

(* diffusiveMass + boundaryMass + crystalMass, as JavaScript evaluates it *)
Definition summedMass (c : SnowflakeCell) : float :=
  diffusiveMass c + boundaryMass c + crystalMass c.

(* the square of the distance between two points of the canvas *)
Definition distance2 (a b : float * float) : float :=
  (fst a - fst b) * (fst a - fst b) + (snd a - snd b) * (snd a - snd b).

(** ** Concrete cells and lattices *)

(* a boundary cell holding 0.1, 1 and 1.3 *)
Definition roundingCell : SnowflakeCell :=
  mkCell 1 0 0.1 1 1.3 false true 1 (Some [(0, 0)%Z]) (Some 0.1) false.

(* the default parameters with gamma = 1e308 and kappa = 0 *)
Definition overflowParams : Params :=
  mkParams (beta params) (theta params) (alpha params) 0 (mu params)
           (upsilon params) (sigma params) 1e308.

(* the default parameters with gamma = 0.1 *)
Definition params_gamma01 : Params :=
  mkParams (beta params) (theta params) (alpha params) (kappa params) (mu params)
           (upsilon params) (sigma params) 0.1.

(* the default parameters with sigma = 0.001 *)
Definition params_sigma001 : Params :=
  mkParams (beta params) (theta params) (alpha params) (kappa params) (mu params)
           (upsilon params) 0.001 (gamma params).

(* radius 1 with the default parameters: as constructed, and after one
   step without noise *)
Definition lattice1 : CrystalLattice :=
  Eval vm_compute in
    match construct params 1 with Ok L => L | _ => mkLattice 1 [] end.

Definition lattice1_step : CrystalLattice :=
  Eval vm_compute in
    match step params noNoise lattice1 with Ok L => L | _ => lattice1 end.

(* the cell (1,0) in the second step, after Pass 1 *)
Definition lattice1_cell : SnowflakeCell :=
  Eval vm_compute in
    match passOne (keys lattice1_step) lattice1_step with
    | Ok L => match get L (1, 0)%Z with Some c => c | None => newCell params 1 0 end
    | _ => newCell params 1 0
    end.

(* radius 2 with gamma = 0.1, as constructed, and its cell (1,0) *)
Definition lattice2 : CrystalLattice :=
  Eval vm_compute in
    match construct params_gamma01 2 with Ok L => L | _ => mkLattice 2 [] end.

Definition lattice2_cell : SnowflakeCell :=
  Eval vm_compute in
    match get lattice2 (1, 0)%Z with Some c => c | None => newCell params_gamma01 1 0 end.

(* an unattached cell holding 0.5 *)
Definition freshCell : SnowflakeCell := newCell params 1 0.

(* a double that is not negative, on its specification *)
Definition nnSF (x : spec_float) : Prop :=
  match x with
  | S754_finite true _ _ | S754_infinity true => False
  | _ => True
  end.

(* a double that is greater than zero, on its specification *)
Definition posSF (x : spec_float) : Prop :=
  match x with
  | S754_finite false _ _ | S754_infinity false => True
  | _ => False
  end.

(* the fields stepTwo reads are assigned *)
Definition ready (c : SnowflakeCell) : Prop :=
  _next_dm c <> None /\ (boundary c = true -> attachedNeighbors c <> None).

(* the three masses and the pending candidate are not negative *)
Definition sound (c : SnowflakeCell) : Prop :=
  massesNotNegative c /\ forall v, _next_dm c = Some v -> notNegative v.

End Binary64.

(** * The store *)

Lemma key_eqb_eq (a b : Key) : key_eqb a b = true <-> a = b.
Proof.
  destruct a as [a1 a2], b as [b1 b2]; unfold key_eqb; simpl.
  rewrite andb_true_iff, !Z.eqb_eq. split.
  - intros [-> ->]; reflexivity.
  - intros H; injection H; auto.
Qed.

Lemma key_eqb_refl (a : Key) : key_eqb a a = true.
Proof. apply key_eqb_eq; reflexivity. Qed.

Lemma key_eqb_neq (a b : Key) : key_eqb a b = false <-> a <> b.
Proof.
  rewrite <- key_eqb_eq. destruct (key_eqb a b); split; congruence.
Qed.

Lemma Key_eq_dec (a b : Key) : {a = b} + {a <> b}.
Proof.
  destruct (key_eqb a b) eqn:E.
  - left; apply key_eqb_eq; exact E.
  - right; apply key_eqb_neq; exact E.
Qed.

Lemma get_key L k c : get L k = Some c -> key c = k.
Proof.
  unfold get; intros H. apply find_some in H. apply key_eqb_eq, H.
Qed.

Lemma get_In L k c : get L k = Some c -> In c (cells L).
Proof. unfold get; intros H. apply find_some in H. apply H. Qed.

Lemma get_In_keys L k c : get L k = Some c -> In k (keys L).
Proof.
  intros H. rewrite <- (get_key _ _ _ H). apply in_map, (get_In _ _ _ H).
Qed.

Lemma In_keys_get L k : In k (keys L) -> exists c, get L k = Some c.
Proof.
  unfold keys, get; intros H. apply in_map_iff in H as (c & Hk & Hc).
  destruct (find (fun c0 => key_eqb (key c0) k) (cells L)) eqn:E; eauto.
  exfalso. apply (find_none _ _ E) in Hc. rewrite Hk, key_eqb_refl in Hc. discriminate.
Qed.

Lemma get_put L c' k :
  get (put L c') k =
  match get L k with
  | Some c => Some (if key_eqb (key c) (key c') then c' else c)
  | None => None
  end.
Proof.
  unfold get, put; simpl. induction (cells L) as [|c cs IH]; simpl; auto.
  destruct (key_eqb (key c) (key c')) eqn:E.
  - replace (key_eqb (key c') k) with (key_eqb (key c) k)
      by (apply key_eqb_eq in E; rewrite E; reflexivity).
    destruct (key_eqb (key c) k); auto. rewrite E; reflexivity.
  - destruct (key_eqb (key c) k); auto. rewrite E; reflexivity.
Qed.

Lemma get_put_same L c c' :
  get L (key c) = Some c -> key c' = key c -> get (put L c') (key c) = Some c'.
Proof.
  intros H E. rewrite get_put, H, E, key_eqb_refl. reflexivity.
Qed.

Lemma get_put_other L c' k : k <> key c' -> get (put L c') k = get L k.
Proof.
  intros N. rewrite get_put. destruct (get L k) as [c|] eqn:E; auto.
  apply get_key in E. destruct (key_eqb (key c) (key c')) eqn:E'; auto.
  apply key_eqb_eq in E'. congruence.
Qed.

Lemma keys_put L c' : keys (put L c') = keys L.
Proof.
  unfold keys, put; simpl. rewrite map_map. apply map_ext_in.
  intros c _. destruct (key_eqb (key c) (key c')) eqn:E; auto.
  apply key_eqb_eq in E; auto.
Qed.

Lemma In_put L c' x : In x (cells (put L c')) -> x = c' \/ In x (cells L).
Proof.
  unfold put; simpl. rewrite in_map_iff. intros (c & E & Hc).
  destruct (key_eqb (key c) (key c')); subst; auto.
Qed.

(** * One loop over the cells *)

Section Pass.

Variable f : SnowflakeCell -> CrystalLattice -> Result SnowflakeCell.
Hypothesis f_key : forall c L c', f c L = Ok c' -> key c' = key c.

Lemma pass_keys o : forall L L',
  pass f o L = Ok L' -> keys L' = keys L /\ size L' = size L.
Proof.
  induction o as [|k o IH]; simpl; intros L L' H.
  - injection H as <-; auto.
  - destruct (get L k) as [c|]; [|auto].
    destruct (f c L) as [c'| |]; simpl in H; try discriminate.
    apply IH in H as [H1 H2]. rewrite H1, H2, keys_put. auto.
Qed.

(* a cell that the loop does not visit keeps its state *)
Lemma pass_notin o : forall L L' k,
  ~ In k o -> pass f o L = Ok L' -> get L' k = get L k.
Proof.
  induction o as [|k0 o IH]; simpl; intros L L' k N H.
  - injection H as <-; auto.
  - destruct (get L k0) as [c|] eqn:G; [|apply IH; auto].
    destruct (f c L) as [c'|  |] eqn:F; simpl in H; try discriminate.
    rewrite (IH _ _ k (fun X => N (or_intror X)) H).
    apply get_put_other. rewrite (f_key _ _ _ F), (get_key _ _ _ G).
    intros ->. apply N; left; reflexivity.
Qed.

(* a store invariant, and what every visit establishes for its cell *)
Lemma pass_invariant (I : CrystalLattice -> Prop) (Post : SnowflakeCell -> Prop) :
  (forall L c c', I L -> get L (key c) = Some c -> f c L = Ok c' ->
                  I (put L c') /\ Post c') ->
  forall o L L', I L -> pass f o L = Ok L' ->
    I L' /\
    forall k c, In k o -> get L k = Some c -> exists c', get L' k = Some c' /\ Post c'.
Proof.
  intros Hf. induction o as [|k0 o IH]; simpl; intros L L' HI H.
  - injection H as <-. split; [auto | intros ? ? []].
  - destruct (get L k0) as [c0|] eqn:G.
    + destruct (f c0 L) as [c0'| |] eqn:F; simpl in H; try discriminate.
      pose proof (get_key _ _ _ G) as K0. rewrite <- K0 in G.
      destruct (Hf _ _ _ HI G F) as [HI' HP].
      destruct (IH _ _ HI' H) as [HL' Hall]. split; auto.
      intros k c Hin Gk.
      destruct (in_dec Key_eq_dec k o) as [Ho|Ho].
      * assert (exists c1, get (put L c0') k = Some c1) as [c1 G1]
            by (rewrite get_put, Gk; eauto).
        eapply Hall; eauto.
      * destruct Hin as [->|]; [|contradiction].
        rewrite (pass_notin _ _ _ _ Ho H). rewrite <- K0.
        rewrite (get_put_same _ _ _ G (f_key _ _ _ F)). eauto.
    + destruct (IH _ _ HI H) as [HL' Hall]. split; auto.
      intros k c [->|Hin] Gk; [congruence | eauto].
Qed.

(* the loop completes when every visit does *)
Lemma pass_total (I : CrystalLattice -> Prop) :
  (forall L c, I L -> get L (key c) = Some c ->
               exists c', f c L = Ok c' /\ I (put L c')) ->
  forall o L, I L -> exists L', pass f o L = Ok L' /\ I L'.
Proof.
  intros Hf. induction o as [|k0 o IH]; simpl; intros L HI; eauto.
  destruct (get L k0) as [c0|] eqn:G; [|auto].
  pose proof (get_key _ _ _ G) as K0. rewrite <- K0 in G.
  destruct (Hf _ _ HI G) as (c' & -> & HI'). simpl. auto.
Qed.

(* a reflexive and transitive relation that every visit respects relates
   each cell before the loop to the same cell after it *)
Lemma pass_related (R : SnowflakeCell -> SnowflakeCell -> Prop) :
  (forall c, R c c) ->
  (forall a b c, R a b -> R b c -> R a c) ->
  (forall c L c', f c L = Ok c' -> R c c') ->
  forall o L L' k c, pass f o L = Ok L' -> get L k = Some c ->
    exists c', get L' k = Some c' /\ R c c'.
Proof.
  intros Rrefl Rtrans Hf. induction o as [|k0 o IH]; simpl; intros L L' k c H G.
  - injection H as <-. eauto.
  - destruct (get L k0) as [c0|] eqn:G0; [|eauto].
    destruct (f c0 L) as [c0'| |] eqn:F; simpl in H; try discriminate.
    pose proof (get_key _ _ _ G0) as K0.
    destruct (Key_eq_dec k k0) as [->|N].
    + assert (c0 = c) by congruence. subst c0.
      assert (G1 : get (put L c0') k0 = Some c0').
      { rewrite <- K0. apply get_put_same; [rewrite K0; auto | eauto]. }
      destruct (IH _ _ _ _ H G1) as (c' & G' & HR).
      exists c'; split; eauto.
    + assert (G1 : get (put L c0') k = Some c).
      { rewrite get_put_other; auto. rewrite (f_key _ _ _ F), K0; auto. }
      eauto.
Qed.

End Pass.

(** * Phase transitions *)

(** C6, as amended.  Read over exact arithmetic, freezing, melting and
    the attachment commit each leave the sum diffusiveMass +
    boundaryMass + crystalMass of the cell unchanged, for every cell
    and all parameter values: what a transition takes from one mass is
    what its formulas add to the others.  On doubles every product and
    sum is rounded, and the stored total can change in its last bits
    ([Binary64Facts.transitions_change_the_total_in_doubles]). *)
Theorem phase_transitions_conserve_mass (P : Params) (c : SnowflakeCell) :
  totalMass (freezingStep P c) == totalMass c /\
  totalMass (meltingStep P c) == totalMass c /\
  totalMass (attach c) == totalMass c.
Proof.
  unfold totalMass, freezingStep, meltingStep, attach.
  destruct (boundary c); simpl; repeat split; try reflexivity; ring.
Qed.

(** * Queries *)

Lemma attachedCells_spec L c :
  In c (fst (attachedCells L)) <-> In c (cells L) /\ attached c = true.
Proof. unfold attachedCells; simpl. apply filter_In. Qed.

Lemma boundaryCells_spec L c :
  In c (fst (boundaryCells L)) <->
  In c (cells L) /\ boundary c = true /\ attached c = false.
Proof.
  unfold boundaryCells; simpl.
  rewrite filter_In, andb_true_iff, negb_true_iff. tauto.
Qed.

(** C10. In every lattice state no cell is returned by both
    attachedCells() and boundaryCells(): boundaryCells() leaves out a
    cell whose attached flag is set, also when its boundary flag is
    still set.  Neither query changes the store. *)
Theorem attached_boundary_disjoint (L : CrystalLattice) :
  snd (attachedCells L) = L /\
  snd (boundaryCells L) = L /\
  forall c, In c (fst (attachedCells L)) -> ~ In c (fst (boundaryCells L)).
Proof.
  repeat split. intros c.
  rewrite attachedCells_spec, boundaryCells_spec. intros [_ A] (_ & _ & B).
  congruence.
Qed.

(** * Construction *)

Lemma fold_left_keeps {A B} (g : A -> B -> A) (Pr : A -> Prop) (l : list B) :
  (forall a y, Pr a -> Pr (g a y)) -> forall a, Pr a -> Pr (fold_left g l a).
Proof. intros Hg. induction l; simpl; auto. Qed.

Lemma fold_left_reaches {A B} (g : A -> B -> A) (Pr : A -> Prop) (x : B) (l : list B) :
  (forall a y, Pr a -> Pr (g a y)) -> (forall a, Pr (g a x)) ->
  In x l -> forall a, Pr (fold_left g l a).
Proof.
  intros Hg Hx. induction l as [|y l IH]; simpl; intros [].
  - subst y. intros a. apply fold_left_keeps; auto.
  - auto.
Qed.

Lemma has_key_Map_set k cs c' : has_key k cs -> has_key k (Map_set cs c').
Proof.
  unfold has_key, Map_set. intros H.
  destruct (existsb (fun c => key_eqb (key c) (key c')) cs).
  - rewrite existsb_exists in *. destruct H as (c & Hc & Hk).
    destruct (key_eqb (key c) (key c')) eqn:E.
    + exists c'. split.
      * apply in_map_iff. exists c. rewrite E. auto.
      * apply key_eqb_eq in E. rewrite <- E. auto.
    + exists c. split; auto. apply in_map_iff. exists c. rewrite E. auto.
  - rewrite existsb_app, H. reflexivity.
Qed.

Lemma has_key_Map_set_new cs c' : has_key (key c') (Map_set cs c').
Proof.
  unfold has_key, Map_set.
  destruct (existsb (fun c => key_eqb (key c) (key c')) cs) eqn:E.
  - rewrite existsb_exists in *. destruct E as (c & Hc & Hk).
    exists c'. split; [|apply key_eqb_refl].
    apply in_map_iff. exists c. rewrite Hk. auto.
  - rewrite existsb_app. simpl. rewrite key_eqb_refl, orb_true_r. reflexivity.
Qed.

Lemma has_key_get L k : has_key k (cells L) -> exists c, get L k = Some c.
Proof.
  unfold has_key, get. rewrite existsb_exists. intros (c & Hc & Hk).
  destruct (find (fun c0 => key_eqb (key c0) k) (cells L)) eqn:E; eauto.
  apply (find_none _ _ E) in Hc. congruence.
Qed.

Lemma In_zrange lo hi x : (lo <= x <= hi)%Z -> In x (zrange lo hi).
Proof.
  intros H. unfold zrange. apply in_map_iff. exists (Z.to_nat (x - lo)). split.
  - lia.
  - apply in_seq. lia.
Qed.

Lemma zrange_empty lo hi : (hi < lo)%Z -> zrange lo hi = [].
Proof.
  intros H. unfold zrange. replace (Z.to_nat (hi - lo + 1)) with O by lia.
  reflexivity.
Qed.

Lemma fill_has_key P sz q0 r0 :
  (- sz <= q0 <= sz)%Z -> (- sz <= r0 <= sz)%Z -> (Z.abs (q0 + r0) <= sz)%Z ->
  has_key (q0, r0) (fill P sz).
Proof.
  intros Hq Hr Ha. unfold fill.
  apply (fold_left_reaches _ (has_key (q0, r0)) q0).
  - intros a y Hy. apply fold_left_keeps; auto.
    intros a' y' H'. destruct (Z.abs (y + y') >? sz)%Z; auto.
    apply has_key_Map_set; auto.
  - intros a. apply (fold_left_reaches _ (has_key (q0, r0)) r0).
    + intros a' y' H'. destruct (Z.abs (q0 + y') >? sz)%Z; auto.
      apply has_key_Map_set; auto.
    + intros a'. destruct (Z.abs (q0 + r0) >? sz)%Z eqn:E; [lia|].
      apply (has_key_Map_set_new a' (newCell P q0 r0)).
    + apply In_zrange; auto.
  - apply In_zrange; auto.
Qed.

Lemma Map_set_NoDup cs c' :
  NoDup (map key cs) -> NoDup (map key (Map_set cs c')).
Proof.
  intros H. unfold Map_set.
  destruct (existsb (fun c => key_eqb (key c) (key c')) cs) eqn:E.
  - replace (map key (map (fun c => if key_eqb (key c) (key c') then c' else c) cs))
      with (map key cs); auto.
    rewrite map_map. apply map_ext_in. intros c _.
    destruct (key_eqb (key c) (key c')) eqn:K; auto.
    apply key_eqb_eq in K; auto.
  - rewrite map_app. simpl. apply NoDup_app; auto.
    + constructor; [intros [] | constructor].
    + intros k Hk [<-|[]]. apply in_map_iff in Hk as (c & Kc & Hc).
      assert (X : existsb (fun c0 => key_eqb (key c0) (key c')) cs = true).
      { apply existsb_exists. exists c. split; auto. apply key_eqb_eq; auto. }
      congruence.
Qed.

(* a constructed lattice holds one cell per coordinate *)
Lemma construct_wf P sz L : construct P sz = Ok L -> wf L.
Proof.
  assert (F : NoDup (map key (fill P sz))).
  { unfold fill.
    apply (fold_left_keeps _ (fun cs => NoDup (map key cs))).
    - intros cs q0 Hcs.
      apply (fold_left_keeps _ (fun cs => NoDup (map key cs))); auto.
      intros cs' r0 Hcs'. destruct (Z.abs (q0 + r0) >? sz)%Z; auto.
      apply Map_set_NoDup; auto.
    - constructor. }
  unfold construct, wf.
  destruct (get (mkLattice sz (fill P sz)) (0, 0)%Z) as [c|]; try discriminate.
  intros H; injection H as <-. rewrite keys_put. exact F.
Qed.

(* in such a lattice every cell is the one found under its key, so a
   loop over the keys visits every cell once *)
Lemma wf_get L c : wf L -> In c (cells L) -> get L (key c) = Some c.
Proof.
  unfold wf, keys, get. induction (cells L) as [|x cs IH]; simpl; intros N [].
  - subst x. rewrite key_eqb_refl. reflexivity.
  - inversion N as [|? ? Hx Hcs]; subst.
    destruct (key_eqb (key x) (key c)) eqn:E; auto.
    apply key_eqb_eq in E. exfalso. apply Hx. rewrite E. apply in_map; auto.
Qed.


(** * The methods of a cell *)

Ltac cell_simpl :=
  cbn [set_diffusiveMass set_boundaryMass set_crystalMass set_attached
       set_boundary set_age set_attachedNeighbors set_next_dm
       set_attachmentFlag key q r diffusiveMass boundaryMass crystalMass
       attached boundary age attachedNeighbors _next_dm attachmentFlag
       fst snd negb andb bind] in *.

Ltac cell_methods :=
  unfold stepOne, stepTwo, stepThree, updateBoundary, diffusionCalc,
    freezingStep, meltingStep, noiseStep, attachmentStep, attach, neighbors in *;
  cell_simpl.

(* case analysis on a test whose condition holds no further test *)
Ltac split_ifs :=
  repeat match goal with
         | |- context [if ?b then _ else _] =>
             lazymatch b with
             | context [if _ then _ else _] => fail
             | _ => destruct b eqn:?; cell_simpl
             end
         | |- context [match ?x with Some _ => _ | None => _ end] =>
             destruct x eqn:?; cell_simpl
         end.

(* the flags of [c] are decided first, so that each case runs straight
   through the methods *)
Ltac cell_cases c :=
  let a := fresh "a" in
  let b := fresh "b" in
  destruct c as [? ? ? ? ? a b ? ? ? ?]; destruct a, b; cell_methods; split_ifs.

Lemma stepOne_same_matter c L : same_matter c (stepOne c L).
Proof. unfold same_matter. cell_cases c; repeat split. Qed.

Lemma same_matter_refl c : same_matter c c.
Proof. repeat split. Qed.

Lemma same_matter_trans a b c : same_matter a b -> same_matter b c -> same_matter a c.
Proof. intros (?&?&?&?&?&?) (?&?&?&?&?&?); repeat split; congruence. Qed.

Lemma stepOne_key c L : key (stepOne c L) = key c.
Proof. symmetry. apply stepOne_same_matter. Qed.

Lemma stepOne_boundary c L :
  boundary (stepOne c L) = negb (attached c) && existsb attached (neighbors c L).
Proof. cell_cases c; congruence. Qed.

Lemma stepOne_attachedNeighbors c L :
  boundary (stepOne c L) = true ->
  attachedNeighbors (stepOne c L) = Some (map key (filter attached (neighbors c L))).
Proof. cell_cases c; congruence. Qed.

Lemma stepOne_next_dm c L :
  _next_dm (stepOne c L) =
  Some (if attached c then diffusiveMass c
        else fold_left (fun acc n => acc + (if attached n then diffusiveMass c
                                            else diffusiveMass n))
                       (neighbors c L) (diffusiveMass c)
             / inject_Z (Z.of_nat (length (neighbors c L)) + 1)).
Proof. cell_cases c; reflexivity. Qed.

Lemma stepOne_ready c L : ready (stepOne c L).
Proof.
  split.
  - rewrite stepOne_next_dm. discriminate.
  - intros H. rewrite (stepOne_attachedNeighbors _ _ H). discriminate.
Qed.

Lemma stepTwo_same_shape P c L c' : stepTwo P c L = Ok c' -> same_shape c c'.
Proof.
  unfold same_shape.
  cell_cases c; intros H; try discriminate; injection H as <-; repeat split.
Qed.

Lemma stepTwo_key P c L c' : stepTwo P c L = Ok c' -> key c' = key c.
Proof. intros H. symmetry. apply (stepTwo_same_shape _ _ _ _ H). Qed.

Lemma stepTwo_ready P c L : ready c -> exists c', stepTwo P c L = Ok c'.
Proof.
  unfold ready. intros [H1 H2].
  cell_cases c; eauto; exfalso; solve [apply H1; reflexivity | apply H2; reflexivity].
Qed.

Lemma stepThree_same_marks P u c : same_marks c (stepThree P u c).
Proof. unfold same_marks. cell_cases c; repeat split. Qed.

Lemma stepThree_key P u c : key (stepThree P u c) = key c.
Proof. symmetry. apply stepThree_same_marks. Qed.

(** * One step *)

Section Step.

Variable P : Params.

(* the three loops of step(), one after the other *)
Lemma stepWith_inv o1 o2 o3 rnd L L' :
  stepWith P o1 o2 o3 rnd L = Ok L' ->
  exists L1 L2,
    passOne o1 L = Ok L1 /\
    passTwo P o2 L1 = Ok L2 /\
    passThree P rnd o3 L2 = Ok L'.
Proof.
  unfold stepWith. intros H.
  destruct (passOne o1 L) as [L1| |] eqn:H1;
    try discriminate.
  cbn [bind] in H.
  destruct (passTwo P o2 L1) as [L2| |] eqn:H2; try discriminate.
  cbn [bind] in H. exists L1, L2. auto.
Qed.

Lemma passOne_key c L c' : Ok (stepOne c L) = Ok c' -> key c' = key c.
Proof. intros H; injection H as <-. apply stepOne_key. Qed.

Lemma passThree_key (rnd : Noise) c (L : CrystalLattice) c' :
  Ok (stepThree P (rnd (key c)) c) = Ok c' -> key c' = key c.
Proof. intros H; injection H as <-. apply stepThree_key. Qed.

Section Related.

Variable R : SnowflakeCell -> SnowflakeCell -> Prop.
Hypothesis R_refl : forall c, R c c.
Hypothesis R_trans : forall a b c, R a b -> R b c -> R a c.

Lemma passOne_related o L L' k c :
  (forall c L, R c (stepOne c L)) ->
  passOne o L = Ok L' -> get L k = Some c ->
  exists c', get L' k = Some c' /\ R c c'.
Proof.
  intros H1. apply (pass_related _ passOne_key R R_refl R_trans).
  intros c0 L0 c0' E; injection E as <-; auto.
Qed.

Lemma passTwo_related o L L' k c :
  (forall c L c', stepTwo P c L = Ok c' -> R c c') ->
  passTwo P o L = Ok L' -> get L k = Some c ->
  exists c', get L' k = Some c' /\ R c c'.
Proof.
  intros H2. apply (pass_related _ (stepTwo_key P) R R_refl R_trans H2).
Qed.

Lemma passThree_related (rnd : Noise) o L L' k c :
  (forall u c, R c (stepThree P u c)) ->
  passThree P rnd o L = Ok L' ->
  get L k = Some c ->
  exists c', get L' k = Some c' /\ R c c'.
Proof.
  intros H3. apply (pass_related _ (passThree_key rnd) R R_refl R_trans).
  intros c0 L0 c0' E; injection E as <-; auto.
Qed.

End Related.

(* what a visit of Pass 1 establishes holds of every visited cell *)
Lemma passOne_invariant (I : CrystalLattice -> Prop) (Post : SnowflakeCell -> Prop)
      o L L' :
  (forall S c, I S -> get S (key c) = Some c ->
               I (put S (stepOne c S)) /\ Post (stepOne c S)) ->
  I L -> passOne o L = Ok L' ->
  I L' /\
  forall k c, In k o -> get L k = Some c -> exists c', get L' k = Some c' /\ Post c'.
Proof.
  intros Hf. apply (pass_invariant _ passOne_key I Post).
  intros S c c' HI G E. injection E as <-. auto.
Qed.

Lemma stepWith_keys o1 o2 o3 rnd L L' :
  stepWith P o1 o2 o3 rnd L = Ok L' -> keys L' = keys L /\ size L' = size L.
Proof.
  intros H. apply stepWith_inv in H as (L1 & L2 & H1 & H2 & H3).
  destruct (pass_keys _ _ _ _ H1) as [K1 S1].
  destruct (pass_keys _ _ _ _ H2) as [K2 S2].
  destruct (pass_keys _ _ _ _ H3) as [K3 S3].
  split; congruence.
Qed.

(* the cell set does not change, so the three loops of step() follow
   the same order *)
Lemma step_stepWith rnd L : step P rnd L = stepWith P (keys L) (keys L) (keys L) rnd L.
Proof.
  unfold step, stepWith.
  destruct (passOne (keys L) L) as [L1| |] eqn:H1; cbn [bind]; auto.
  destruct (pass_keys _ _ _ _ H1) as [K1 _]. rewrite K1.
  destruct (passTwo P (keys L) L1) as [L2| |] eqn:H2; cbn [bind]; auto.
  destruct (pass_keys _ _ _ _ H2) as [K2 _]. rewrite K2, K1. reflexivity.
Qed.

Lemma step_inv rnd L L' :
  step P rnd L = Ok L' ->
  exists L1 L2,
    passOne (keys L) L = Ok L1 /\
    passTwo P (keys L) L1 = Ok L2 /\
    passThree P rnd (keys L) L2 = Ok L'.
Proof. rewrite step_stepWith. apply stepWith_inv. Qed.

Lemma step_wf rnd L L' : wf L -> step P rnd L = Ok L' -> wf L'.
Proof.
  unfold wf. intros N H. rewrite step_stepWith in H.
  destruct (stepWith_keys _ _ _ _ _ _ H) as [K _]. rewrite K. exact N.
Qed.

(* a reflexive, transitive relation respected by the three cell steps
   is respected by step() *)
Lemma stepWith_related (R : SnowflakeCell -> SnowflakeCell -> Prop) :
  (forall c, R c c) ->
  (forall a b c, R a b -> R b c -> R a c) ->
  (forall c L, R c (stepOne c L)) ->
  (forall c L c', stepTwo P c L = Ok c' -> R c c') ->
  (forall u c, R c (stepThree P u c)) ->
  forall o1 o2 o3 rnd L L' k c,
    stepWith P o1 o2 o3 rnd L = Ok L' -> get L k = Some c ->
    exists c', get L' k = Some c' /\ R c c'.
Proof.
  intros Rrefl Rtrans R1 R2 R3 o1 o2 o3 rnd L L' k c H G.
  apply stepWith_inv in H as (L1 & L2 & H1 & H2 & H3).
  destruct (passOne_related R Rrefl Rtrans _ _ _ _ _ R1 H1 G) as (c1 & G1 & HR1).
  destruct (passTwo_related R Rrefl Rtrans _ _ _ _ _ R2 H2 G1) as (c2 & G2 & HR2).
  destruct (passThree_related R Rrefl Rtrans _ _ _ _ _ _ R3 H3 G2) as (c3 & G3 & HR3).
  eauto.
Qed.

Lemma steps_related (R : SnowflakeCell -> SnowflakeCell -> Prop) :
  (forall c, R c c) ->
  (forall a b c, R a b -> R b c -> R a c) ->
  (forall c L, R c (stepOne c L)) ->
  (forall c L c', stepTwo P c L = Ok c' -> R c c') ->
  (forall u c, R c (stepThree P u c)) ->
  forall rnds L L' k c,
    steps P rnds L = Ok L' -> get L k = Some c ->
    exists c', get L' k = Some c' /\ R c c'.
Proof.
  intros Rrefl Rtrans R1 R2 R3.
  induction rnds as [|rnd rnds IH]; simpl; intros L L' k c H G.
  - injection H as <-. eauto.
  - destruct (step P rnd L) as [L1| |] eqn:E; try discriminate. simpl in H.
    rewrite step_stepWith in E.
    destruct (stepWith_related R Rrefl Rtrans R1 R2 R3 _ _ _ _ _ _ _ _ E G)
      as (c1 & G1 & HR1).
    destruct (IH _ _ _ _ H G1) as (c' & G' & HR'). eauto.
Qed.

(** *** Attachment is permanent *)

Lemma stays_attached_refl c : stays_attached c c.
Proof. split; auto. Qed.

Lemma stays_attached_trans a b c :
  stays_attached a b -> stays_attached b c -> stays_attached a c.
Proof. intros [K1 H1] [K2 H2]; split; [congruence | auto]. Qed.

Lemma stepOne_stays_attached c L : stays_attached c (stepOne c L).
Proof.
  destruct (stepOne_same_matter c L) as (K & A & _). split; congruence.
Qed.

Lemma stepTwo_stays_attached c L c' :
  stepTwo P c L = Ok c' -> stays_attached c c'.
Proof.
  intros H. destruct (stepTwo_same_shape _ _ _ _ H) as (K & A & _).
  split; congruence.
Qed.

Lemma stepThree_stays_attached u c : stays_attached c (stepThree P u c).
Proof.
  split; [symmetry; apply stepThree_key|].
  cell_cases c; auto.
Qed.

(** C7. A cell whose attached flag is set has it set after every
    later step() on the lattice: the cell is still there, and nothing
    clears the flag. *)
Theorem attached_is_permanent (rnds : list Noise) (L L' : CrystalLattice)
        (k : Key) (c : SnowflakeCell) :
  steps P rnds L = Ok L' -> get L k = Some c -> attached c = true ->
  exists c', get L' k = Some c' /\ attached c' = true.
Proof.
  intros H G A.
  destruct (steps_related stays_attached stays_attached_refl stays_attached_trans
              stepOne_stays_attached stepTwo_stays_attached
              stepThree_stays_attached _ _ _ _ _ H G) as (c' & G' & _ & HA).
  eauto.
Qed.

(** *** step() completes *)

Lemma all_ready_after_passOne o L L1 :
  passOne o L = Ok L1 ->
  (forall k, In k (keys L) -> In k o) ->
  forall k c1, get L1 k = Some c1 -> ready c1.
Proof.
  intros H Ho k c1 G1.
  destruct (passOne_invariant (fun _ => True) ready o L L1) as [_ Hall]; auto.
  { intros S c _ _. split; auto. apply stepOne_ready. }
  pose proof (get_In_keys _ _ _ G1) as Hk.
  destruct (pass_keys _ _ _ _ H) as [K _]. rewrite K in Hk.
  destruct (In_keys_get _ _ Hk) as [c G].
  destruct (Hall k c (Ho _ Hk) G) as (c' & G' & R'). congruence.
Qed.

Lemma passTwo_total o L1 :
  (forall k c1, get L1 k = Some c1 -> ready c1) ->
  exists L2, passTwo P o L1 = Ok L2.
Proof.
  intros H.
  destruct (pass_total (stepTwo P)
              (fun S => forall k c, get S k = Some c -> ready c)) with (o := o) (L := L1)
    as (L2 & H2 & _); eauto.
  intros S c HS G.
  destruct (stepTwo_ready P c S (HS _ _ G)) as [c' E]. exists c'. split; auto.
  intros k x Gx. rewrite get_put in Gx.
  destruct (get S k) as [y|] eqn:Gy; try discriminate.
  destruct (key_eqb (key y) (key c')); injection Gx as <-; eauto.
  destruct (stepTwo_same_shape _ _ _ _ E) as (_ & _ & B & N & D).
  destruct (HS _ _ G) as [R1 R2]. unfold ready.
  rewrite <- B, <- N, <- D. auto.
Qed.

Lemma total_pass (g : SnowflakeCell -> CrystalLattice -> SnowflakeCell) o :
  forall L, exists L', pass (fun c S => Ok (g c S)) o L = Ok L'.
Proof.
  induction o as [|k o IH]; simpl; intros L; eauto.
  destruct (get L k); simpl; auto.
Qed.

(* step() returns, from every store *)
Lemma step_total rnd L : exists L', step P rnd L = Ok L'.
Proof.
  rewrite step_stepWith. unfold stepWith.
  destruct (total_pass stepOne (keys L) L) as [L1 H1].
  change (passOne (keys L) L = Ok L1) in H1. rewrite H1. cbn [bind].
  destruct (passTwo_total (keys L) L1) as [L2 H2].
  { eapply all_ready_after_passOne; eauto. }
  rewrite H2. cbn [bind].
  apply (total_pass (fun c _ => stepThree P (rnd (key c)) c)).
Qed.

Lemma steps_total rnds : forall L, exists L', steps P rnds L = Ok L'.
Proof.
  induction rnds as [|rnd rnds IH]; simpl; intros L; eauto.
  destruct (step_total rnd L) as [L1 ->]. simpl. auto.
Qed.

(** *** Attached cells are inert *)

Lemma keeps_settled_refl c : keeps_settled c c.
Proof. split; auto. intros H; split; auto. repeat split. Qed.

Lemma keeps_settled_trans a b c :
  keeps_settled a b -> keeps_settled b c -> keeps_settled a c.
Proof.
  intros [K1 H1] [K2 H2]; split; [congruence|]. intros Ha.
  destruct (H1 Ha) as [Hb (M1 & M2 & M3)].
  destruct (H2 Hb) as [Hc (N1 & N2 & N3)].
  split; auto. repeat split; congruence.
Qed.

Lemma stepOne_settles c L : attached c = true -> settled (stepOne c L).
Proof.
  intros A. destruct (stepOne_same_matter c L) as (_ & A' & D & _).
  repeat split.
  - congruence.
  - rewrite stepOne_boundary, A. reflexivity.
  - rewrite stepOne_next_dm, A. congruence.
Qed.

Lemma stepTwo_keeps_settled c L c' : stepTwo P c L = Ok c' -> keeps_settled c c'.
Proof.
  intros H. split; [symmetry; eapply stepTwo_key; eauto|].
  revert H. unfold settled, same_masses.
  cell_cases c; intros H (A & B & N); try discriminate;
    injection H as <-; injection N as <-; repeat split.
Qed.

Lemma stepThree_keeps_settled u c : keeps_settled c (stepThree P u c).
Proof.
  split; [symmetry; apply stepThree_key|].
  unfold settled, same_masses.
  cell_cases c; intros (A & B & N); try discriminate; repeat split; auto.
Qed.

(** C9. A cell that is attached when step() starts has the same
    diffusiveMass, boundaryMass and crystalMass when it ends: Pass 1
    clears its boundary flag and proposes its own diffusive mass, so
    Pass 2 commits the old value and skips freezing, attachment test and
    melting, and Pass 3 skips attachment and noise. *)
Theorem attached_cell_masses_unchanged (rnd : Noise) (L L' : CrystalLattice)
        (k : Key) (c : SnowflakeCell) :
  step P rnd L = Ok L' -> get L k = Some c -> attached c = true ->
  exists c', get L' k = Some c' /\
             diffusiveMass c' = diffusiveMass c /\
             boundaryMass c' = boundaryMass c /\
             crystalMass c' = crystalMass c /\
             boundary c' = false /\ attached c' = true.
Proof.
  intros H G A. apply step_inv in H as (L1 & L2 & H1 & H2 & H3).
  (* Pass 1 settles the cell and keeps its masses *)
  destruct (passOne_related same_matter same_matter_refl same_matter_trans
              _ _ _ _ _ stepOne_same_matter H1 G) as (c1 & G1 & M1).
  destruct (passOne_invariant (fun _ => True)
              (fun x => attached x = true -> settled x) (keys L) L L1)
    as [_ Hall]; auto.
  { intros S x _ _. split; auto. intros A'.
    apply stepOne_settles. destruct (stepOne_same_matter x S) as (_ & ? & _).
    congruence. }
  destruct (Hall k c (get_In_keys _ _ _ G) G) as (c1' & G1' & S1).
  assert (c1' = c1) by congruence. subst c1'.
  destruct M1 as (_ & A1 & D1 & B1 & C1 & _).
  assert (St1 : settled c1) by (apply S1; congruence).
  (* Passes 2 and 3 keep a settled cell as it is *)
  destruct (passTwo_related keeps_settled keeps_settled_refl keeps_settled_trans
              _ _ _ _ _ stepTwo_keeps_settled H2 G1) as (c2 & G2 & _ & K2).
  destruct (K2 St1) as [St2 (D2 & B2 & C2)].
  destruct (passThree_related keeps_settled keeps_settled_refl keeps_settled_trans
              _ _ _ _ _ _ stepThree_keeps_settled H3 G2) as (c3 & G3 & _ & K3).
  destruct (K3 St2) as [(A3 & Bd3 & _) (D3 & B3 & C3)].
  exists c3. repeat split; congruence.
Qed.

(** *** Pass 1 reads the store it started from *)

Lemma lift_refl (R : SnowflakeCell -> SnowflakeCell -> Prop) L :
  (forall c, R c c) -> lift R L L.
Proof. intros H k. destruct (get L k); auto. Qed.

Lemma lift_put (R : SnowflakeCell -> SnowflakeCell -> Prop) L0 L c c' :
  lift R L0 L -> get L (key c) = Some c -> key c' = key c ->
  (forall a, R a c -> R a c') -> lift R L0 (put L c').
Proof.
  intros H G K HR k. specialize (H k). rewrite get_put.
  destruct (get L0 k) as [a|], (get L k) as [b|] eqn:Gb; auto.
  destruct (key_eqb (key b) (key c')) eqn:E; auto.
  apply key_eqb_eq in E. apply HR.
  assert (k = key c) by (rewrite <- (get_key _ _ _ Gb); congruence).
  subst k. congruence.
Qed.

Lemma neighborsAt_lift (R : SnowflakeCell -> SnowflakeCell -> Prop) L L' q0 r0 :
  lift R L L' -> Forall2 R (neighborsAt q0 r0 L) (neighborsAt q0 r0 L').
Proof.
  intros H. unfold neighborsAt.
  induction (combine HEX_DX HEX_DY) as [|d ds IH]; simpl; [constructor|].
  apply Forall2_app; auto.
  specialize (H ((q0 + fst d)%Z, (r0 + snd d)%Z)).
  destruct (get L _), (get L' _); try contradiction; auto.
Qed.

Lemma neighbors_lift (R : SnowflakeCell -> SnowflakeCell -> Prop) L L' c c' :
  lift R L L' -> key c = key c' -> Forall2 R (neighbors c L) (neighbors c' L').
Proof.
  intros H K. unfold neighbors. unfold key in K. injection K as -> ->.
  apply neighborsAt_lift; auto.
Qed.

Lemma same_matter_existsb l l' :
  Forall2 same_matter l l' -> existsb attached l = existsb attached l'.
Proof.
  induction 1 as [|a b l1 l2 (_ & A & _) _ IH]; simpl; congruence.
Qed.

Lemma same_matter_filter l l' :
  Forall2 same_matter l l' ->
  map key (filter attached l) = map key (filter attached l').
Proof.
  induction 1 as [|a b l1 l2 (K & A & _) _ IH]; simpl; auto.
  rewrite <- A. destruct (attached a); simpl; congruence.
Qed.

Lemma same_matter_length l l' :
  Forall2 same_matter l l' -> length l = length l'.
Proof. induction 1; simpl; congruence. Qed.

Lemma same_matter_fold d l l' :
  Forall2 same_matter l l' -> forall a,
  fold_left (fun acc n => acc + (if attached n then d else diffusiveMass n)) l a =
  fold_left (fun acc n => acc + (if attached n then d else diffusiveMass n)) l' a.
Proof.
  induction 1 as [|x y l1 l2 (_ & A & D & _) _ IH]; simpl; intros a; auto.
  rewrite <- A, <- D. apply IH.
Qed.

(* stepOne reads its cell and the neighbours only through fields that
   Pass 1 does not write *)
Lemma stepOne_agree c0 L0 c L :
  same_matter c0 c -> lift same_matter L0 L ->
  boundary (stepOne c L) = negb (attached c0) && existsb attached (neighbors c0 L0) /\
  map key (filter attached (neighbors c L)) =
    map key (filter attached (neighbors c0 L0)) /\
  _next_dm (stepOne c L) = _next_dm (stepOne c0 L0).
Proof.
  intros M HL. pose proof M as (K & A & D & _).
  pose proof (neighbors_lift _ _ _ _ _ HL K) as F.
  rewrite !stepOne_next_dm, stepOne_boundary.
  rewrite <- A, <- D, <- (same_matter_existsb _ _ F), <- (same_matter_filter _ _ F),
    <- (same_matter_length _ _ F), <- (same_matter_fold _ _ _ F).
  auto.
Qed.

Lemma passOne_result o L0 L1 :
  passOne o L0 = Ok L1 ->
  lift same_matter L0 L1 /\
  forall k c0, In k o -> get L0 k = Some c0 ->
    exists c1, get L1 k = Some c1 /\ passOne_post L0 c1.
Proof.
  intros H.
  apply (passOne_invariant (lift same_matter L0) (passOne_post L0) o L0 L1); auto.
  - intros S c HI G.
    pose proof (HI (key c)) as Hk. rewrite G in Hk.
    destruct (get L0 (key c)) as [c0|] eqn:G0; [|contradiction].
    split.
    + apply lift_put with (c := c); auto.
      * apply stepOne_key.
      * intros a Ha. eapply same_matter_trans; eauto. apply stepOne_same_matter.
    + intros c0' G0'. rewrite stepOne_key, G0 in G0'. injection G0' as <-.
      destruct (stepOne_agree c0 L0 c S Hk HI) as (B & F & N).
      split; [|split; [|split]]; auto.
      * eapply same_matter_trans; eauto. apply stepOne_same_matter.
      * intros Hb. rewrite (stepOne_attachedNeighbors _ _ Hb), F. reflexivity.
  - apply lift_refl, same_matter_refl.
Qed.

(** *** The candidate diffusive mass *)

Lemma fold_left_Qsum {A} (g : A -> Q) (l : list A) : forall a,
  fold_left (fun acc n => acc + g n) l a == a + Qsum (map g l).
Proof.
  induction l as [|x l IH]; simpl; intros a.
  - ring.
  - rewrite IH. ring.
Qed.

Lemma diffusionCalc_spec c L :
  attached c = false -> snd (diffusionCalc c L) == next_dm_spec c L.
Proof.
  intros A. unfold diffusionCalc, next_dm_spec. rewrite A. cbn [snd].
  change (neighbors (set_age (age c + 1)%Z c) L) with (neighbors c L).
  change (diffusiveMass (set_age (age c + 1)%Z c)) with (diffusiveMass c).
  rewrite (fold_left_Qsum (contribution c)). reflexivity.
Qed.

(** C5. In Pass 1 the candidate next diffusive mass of a cell that is
    not attached is (own_dm + sum of the contributions of its existing
    neighbours) / (number of neighbours + 1), a neighbour contributing
    own_dm when it is attached and its own diffusive mass otherwise, all
    read from the store as it was before the pass; for an attached cell
    the candidate is its own diffusive mass.  The pass changes no
    diffusive mass. *)
Theorem diffusion_candidate (o : list Key) (L L1 : CrystalLattice)
        (k : Key) (c : SnowflakeCell) :
  passOne o L = Ok L1 -> In k o -> get L k = Some c ->
  exists c1 v,
    get L1 k = Some c1 /\ _next_dm c1 = Some v /\
    diffusiveMass c1 = diffusiveMass c /\
    (attached c = false -> v == next_dm_spec c L) /\
    (attached c = true -> v = diffusiveMass c).
Proof.
  intros H Hin G.
  destruct (passOne_result _ _ _ H) as [_ Hall].
  destruct (Hall k c Hin G) as (c1 & G1 & Post).
  rewrite <- (get_key _ _ _ G1) in G.
  destruct (Post c G) as ((_ & _ & D & _) & _ & _ & N).
  rewrite stepOne_next_dm in N.
  match type of N with _ = Some ?v => exists c1, v end.
  split; [|split; [|split; [|split]]]; auto.
  - intros A. rewrite A. rewrite <- (diffusionCalc_spec c L A).
    unfold diffusionCalc. rewrite A. reflexivity.
  - intros A. rewrite A. reflexivity.
Qed.

(** *** The boundary flag after a step *)

Lemma same_boundary_refl c : same_boundary c c.
Proof. split; reflexivity. Qed.

Lemma same_boundary_trans a b c :
  same_boundary a b -> same_boundary b c -> same_boundary a c.
Proof. intros [? ?] [? ?]; split; congruence. Qed.

Lemma existsb_attached (l : list SnowflakeCell) :
  existsb attached l = true <-> exists n, In n l /\ attached n = true.
Proof. apply existsb_exists. Qed.

(** C3 (as the code has it). After a completed step() a cell has
    boundary == true if and only if it was unattached and had at least
    one attached neighbour when that step began, that is, before the
    attachments of the step's Pass 3. *)
Theorem boundary_reflects_start_of_step (rnd : Noise) (L L' : CrystalLattice)
        (k : Key) (c : SnowflakeCell) :
  step P rnd L = Ok L' -> get L k = Some c ->
  exists c', get L' k = Some c' /\
    (boundary c' = true <->
     attached c = false /\ exists n, In n (neighbors c L) /\ attached n = true).
Proof.
  intros H G. apply step_inv in H as (L1 & L2 & H1 & H2 & H3).
  destruct (passOne_result _ _ _ H1) as [_ Hall].
  destruct (Hall k c (get_In_keys _ _ _ G) G) as (c1 & G1 & Post).
  pose proof G as G'. rewrite <- (get_key _ _ _ G1) in G'.
  destruct (Post c G') as (_ & B1 & _).
  destruct (passTwo_related same_boundary same_boundary_refl same_boundary_trans
              (keys L) L1 L2 k c1) as (c2 & G2 & _ & B2); auto.
  { intros x S x' E. destruct (stepTwo_same_shape _ _ _ _ E) as (? & _ & ? & _).
    split; auto. }
  destruct (passThree_related same_boundary same_boundary_refl same_boundary_trans
              rnd (keys L) L2 L' k c2) as (c3 & G3 & _ & B3); auto.
  { intros u x. destruct (stepThree_same_marks P u x) as (? & ? & _). split; auto. }
  exists c3. split; auto.
  rewrite <- B3, <- B2, B1, andb_true_iff, negb_true_iff, existsb_attached.
  reflexivity.
Qed.

(** *** Masses stay non-negative *)

Lemma fold_left_nonneg {A} (g : A -> Q) (l : list A) :
  (forall n, In n l -> 0 <= g n) ->
  forall a, 0 <= a -> 0 <= fold_left (fun acc n => acc + g n) l a.
Proof.
  induction l as [|x l IH]; simpl; intros Hg a Ha; auto.
  apply IH; auto. pose proof (Hg x (or_introl eq_refl)). lra.
Qed.

Lemma Qdiv_nonneg x (n : nat) : 0 <= x -> 0 <= x / inject_Z (Z.of_nat n + 1).
Proof.
  intros H. apply Qle_shift_div_l.
  - unfold Qlt; simpl. lia.
  - lra.
Qed.

Lemma In_neighbors c L n : In n (neighbors c L) -> In n (cells L).
Proof.
  unfold neighbors, neighborsAt. rewrite in_flat_map. intros (d & _ & H).
  destruct (get L _) as [m|] eqn:G; [|contradiction].
  destruct H as [<-|[]]. eapply get_In; eauto.
Qed.

Lemma stepOne_nonneg c L :
  nonneg c -> (forall n, In n (neighbors c L) -> 0 <= diffusiveMass n) ->
  nonneg (stepOne c L).
Proof.
  intros (D & B & C & N) Hn.
  destruct (stepOne_same_matter c L) as (_ & _ & D' & B' & C' & _).
  unfold nonneg. rewrite <- D', <- B', <- C', stepOne_next_dm.
  repeat split; auto. intros v E. injection E as <-.
  destruct (attached c); auto.
  apply Qdiv_nonneg, (fold_left_nonneg (fun n => if attached n then _ else _)); auto.
  intros n Hin. destruct (attached n); auto.
Qed.

Section Bounds.

Hypothesis P_valid : valid_params P.

Lemma freezingStep_nonneg c : nonneg c -> nonneg (freezingStep P c).
Proof.
  destruct P_valid as ((K0 & K1) & _).
  unfold nonneg, freezingStep. intros (D & B & C & N).
  destruct (boundary c); cell_simpl; repeat split; auto; try lra.
  - pose proof (Qmult_le_0_compat (1 - kappa P) (diffusiveMass c)). lra.
  - pose proof (Qmult_le_0_compat (kappa P) (diffusiveMass c)). lra.
Qed.

Lemma meltingStep_nonneg c : nonneg c -> nonneg (meltingStep P c).
Proof.
  destruct P_valid as (_ & (M0 & M1) & (U0 & U1) & _).
  unfold nonneg, meltingStep. intros (D & B & C & N).
  destruct (boundary c); cell_simpl; repeat split; auto.
  - pose proof (Qmult_le_0_compat (mu P) (boundaryMass c)).
    pose proof (Qmult_le_0_compat (upsilon P) (crystalMass c)). lra.
  - apply Qmult_le_0_compat; lra.
  - apply Qmult_le_0_compat; lra.
Qed.

Lemma attach_nonneg c : nonneg c -> nonneg (attach c).
Proof.
  unfold nonneg, attach. intros (D & B & C & N).
  cell_simpl; repeat split; auto; lra.
Qed.

Lemma Math_max_nonneg x : 0 <= Math_max 0 x.
Proof.
  unfold Math_max. destruct (Qle_bool 0 x) eqn:E; [|lra].
  apply Qle_bool_iff; auto.
Qed.

Lemma noiseStep_nonneg u c : nonneg c -> nonneg (noiseStep P u c).
Proof.
  unfold nonneg, noiseStep. intros (D & B & C & N).
  destruct (attached c); cell_simpl; repeat split; auto.
  apply Math_max_nonneg.
Qed.

Lemma stepTwo_nonneg c L c' : nonneg c -> stepTwo P c L = Ok c' -> nonneg c'.
Proof.
  intros Hc. unfold stepTwo.
  destruct (_next_dm c) as [v|] eqn:E; try discriminate.
  destruct (attachmentStep P _ L) as [flag| |]; cbn [bind]; try discriminate.
  intros H; injection H as <-.
  apply meltingStep_nonneg.
  assert (F : nonneg (freezingStep P (set_attachmentFlag
                        (attached (set_diffusiveMass v c)) (set_diffusiveMass v c)))).
  { apply freezingStep_nonneg. destruct Hc as (D & B & C & N).
    unfold nonneg; cell_simpl; repeat split; auto. }
  destruct F as (D & B & C & N). unfold nonneg; cell_simpl; repeat split; auto.
Qed.

Lemma stepThree_nonneg u c : nonneg c -> nonneg (stepThree P u c).
Proof.
  intros Hc. unfold stepThree. apply noiseStep_nonneg.
  destruct (boundary c && attachmentFlag c); auto. apply attach_nonneg; auto.
Qed.

Lemma put_all_nonneg L c' : all_nonneg L -> nonneg c' -> all_nonneg (put L c').
Proof. intros HL Hc x Hx. apply In_put in Hx as [->|]; auto. Qed.

Lemma step_all_nonneg rnd L L' : all_nonneg L -> step P rnd L = Ok L' -> all_nonneg L'.
Proof.
  intros HL H. apply step_inv in H as (L1 & L2 & H1 & H2 & H3).
  assert (N1 : all_nonneg L1).
  { apply (passOne_invariant all_nonneg (fun _ => True) (keys L) L L1); auto.
    intros S c HS G. split; auto. apply put_all_nonneg; auto.
    apply stepOne_nonneg.
    - apply HS. eapply get_In; eauto.
    - intros n Hn. apply HS, (In_neighbors _ _ _ Hn). }
  assert (N2 : all_nonneg L2).
  { apply (pass_invariant _ (stepTwo_key P) all_nonneg (fun _ => True))
      with (o := keys L) (L := L1); auto.
    intros S c c' HS G E. split; auto. apply put_all_nonneg; auto.
    eapply stepTwo_nonneg; eauto. apply HS. eapply get_In; eauto. }
  apply (pass_invariant _ (passThree_key rnd) all_nonneg (fun _ => True))
    with (o := keys L) (L := L2); auto.
  intros S c c' HS G E. injection E as <-. split; auto.
  apply put_all_nonneg; auto. apply stepThree_nonneg. apply HS. eapply get_In; eauto.
Qed.

Lemma In_Map_set cs c' x : In x (Map_set cs c') -> x = c' \/ In x cs.
Proof.
  unfold Map_set. destruct (existsb _ cs).
  - rewrite in_map_iff. intros (c & E & Hc).
    destruct (key_eqb (key c) (key c')); subst; auto.
  - rewrite in_app_iff. simpl. intuition.
Qed.

Lemma construct_all_nonneg sz L : construct P sz = Ok L -> all_nonneg L.
Proof.
  destruct P_valid as (_ & _ & _ & G0 & _).
  assert (F : forall x, In x (fill P sz) -> nonneg x).
  { unfold fill.
    apply (fold_left_keeps _ (fun cs => forall x, In x cs -> nonneg x)).
    - intros cs q0 Hcs.
      apply (fold_left_keeps _ (fun cs => forall x, In x cs -> nonneg x)); auto.
      intros cs' r0 Hcs'. destruct (Z.abs (q0 + r0) >? sz)%Z; auto.
      intros x Hx. apply In_Map_set in Hx as [->|]; auto.
      unfold nonneg, newCell; cell_simpl. repeat split; try lra. discriminate.
    - intros x []. }
  unfold construct.
  destruct (get (mkLattice sz (fill P sz)) (0, 0)%Z) as [c|] eqn:G; try discriminate.
  intros H; injection H as <-.
  apply put_all_nonneg.
  - exact F.
  - apply get_In in G. destruct (F c G) as (D & B & C & N).
    unfold nonneg; cell_simpl; repeat split; auto.
Qed.

(** Read over exact arithmetic: when 0 <= kappa <= 1, 0 <= mu <= 1,
    0 <= upsilon <= 1, gamma >= 0 and sigma >= 0, every cell of a
    constructed lattice has diffusiveMass >= 0, boundaryMass >= 0 and
    crystalMass >= 0, and so has every cell after any number of calls of
    step(), each of which completes.  On doubles a sum can overflow and
    leave NaN: see [Binary64Facts.masses_never_negative] for what holds
    there. *)
Theorem masses_stay_nonnegative (sz : Z) (L0 : CrystalLattice) (rnds : list Noise) :
  construct P sz = Ok L0 ->
  exists Ln, steps P rnds L0 = Ok Ln /\
             forall c, In c (cells Ln) -> nonneg_masses c.
Proof.
  intros H0. apply construct_all_nonneg in H0.
  revert L0 H0. induction rnds as [|rnd rnds IH]; simpl; intros L0 H0.
  - exists L0. split; auto. intros c Hc. destruct (H0 c Hc) as (D & B & C & _).
    repeat split; auto.
  - destruct (step_total rnd L0) as [L1 E]. rewrite E. cbn [bind].
    apply IH. eapply step_all_nonneg; eauto.
Qed.

End Bounds.

(** *** The attachment decision *)

Lemma Qgeb_true_iff x y : Qgeb x y = true <-> y <= x.
Proof. unfold Qgeb. apply Qle_bool_iff. Qed.

Lemma Qltb_true_iff x y : Qltb x y = true <-> x < y.
Proof.
  unfold Qltb. rewrite negb_true_iff. split.
  - intros H. apply Qnot_le_lt. intros Hle. apply Qle_bool_iff in Hle. congruence.
  - intros H. destruct (Qle_bool y x) eqn:E; auto.
    apply Qle_bool_iff in E. apply Qlt_not_le in H. contradiction.
Qed.

Lemma Qgtb_true_iff x y : Qgtb x y = true <-> y < x.
Proof. unfold Qgtb. apply Qltb_true_iff. Qed.

(* the decision of attachmentStep on a boundary cell whose snapshot
   holds at least one attached neighbour *)
Lemma attachmentStep_spec t S l :
  boundary t = true -> attachedNeighbors t = Some l -> (1 <= length l)%nat ->
  exists flag,
    attachmentStep P t S = Ok flag /\
    (flag = true <-> attach_spec P (length l) (boundaryMass t) (sumDiffusive t S)).
Proof.
  intros Hb Hl Hn. unfold attachmentStep, attach_spec, sumDiffusive.
  rewrite Hb, Hl. cbn [negb].
  pose proof (fold_left_Qsum diffusiveMass (neighbors t S) (diffusiveMass t)) as Hsum.
  set (sum := fold_left _ _ _) in *.
  destruct (Z.of_nat (length l) <=? 2)%Z eqn:E2.
  - apply Z.leb_le in E2.
    destruct (Qgtb (boundaryMass t) (beta P)) eqn:Eb; eexists; split; eauto.
    + apply Qgtb_true_iff in Eb. split; auto. intros _. left. split; auto. lia.
    + split; [discriminate|]. intros [[_ H]|[H _]]; [|lia].
      apply Qgtb_true_iff in H. congruence.
  - apply Z.leb_gt in E2.
    destruct (Z.of_nat (length l) =? 3)%Z eqn:E3.
    + apply Z.eqb_eq in E3.
      destruct (Qgeb (boundaryMass t) 1) eqn:E1.
      * eexists; split; eauto. apply Qgeb_true_iff in E1.
        split; auto. intros _. right. split; auto. lia.
      * destruct (Qltb sum (theta P) && Qgeb (boundaryMass t) (alpha P)) eqn:Es;
          eexists; split; eauto.
        -- apply andb_true_iff in Es as [Hs Ha].
           apply Qltb_true_iff in Hs. apply Qgeb_true_iff in Ha.
           split; auto. intros _. right. split; [lia|]. right.
           rewrite <- Hsum. auto.
        -- split; [discriminate|]. intros [[H _]|[_ [H|[Ha Hs]]]]; [lia| |].
           ++ apply Qgeb_true_iff in H. congruence.
           ++ rewrite <- Hsum in Hs.
              apply Qltb_true_iff in Hs. apply Qgeb_true_iff in Ha.
              rewrite Hs, Ha in Es. discriminate.
    + apply Z.eqb_neq in E3. eexists; split; eauto.
      split; [discriminate|]. intros [[H _]|[H _]]; lia.
Qed.

Lemma lift_weaken (R R' : SnowflakeCell -> SnowflakeCell -> Prop) L L' :
  (forall a b, R a b -> R' a b) -> lift R L L' -> lift R' L L'.
Proof.
  intros H HL k. specialize (HL k). destruct (get L k), (get L' k); auto.
Qed.

Lemma lift_trans (R : SnowflakeCell -> SnowflakeCell -> Prop) L L' L'' :
  (forall a b c, R a b -> R b c -> R a c) ->
  lift R L L' -> lift R L' L'' -> lift R L L''.
Proof.
  intros H H1 H2 k. specialize (H1 k). specialize (H2 k).
  destruct (get L k), (get L' k), (get L'' k); eauto; contradiction.
Qed.

Lemma same_shape_refl c : same_shape c c.
Proof. repeat split. Qed.

Lemma same_shape_trans a b c : same_shape a b -> same_shape b c -> same_shape a c.
Proof. intros (?&?&?&?&?) (?&?&?&?&?); repeat split; congruence. Qed.

(* Pass 2 keeps keys, flags and the snapshots of Pass 1 *)
Lemma passTwo_lift o L L' : passTwo P o L = Ok L' -> lift same_shape L L'.
Proof.
  intros H.
  apply (pass_invariant _ (stepTwo_key P) (lift same_shape L) (fun _ => True))
    with (o := o) (L := L) (L' := L'); auto.
  - intros S c c' HS G E. split; auto.
    apply lift_put with (c := c); auto.
    + eapply stepTwo_key; eauto.
    + intros a Ha. eapply same_shape_trans; eauto. eapply stepTwo_same_shape; eauto.
  - apply lift_refl, same_shape_refl.
Qed.

Lemma same_attached_count l l' :
  Forall2 same_attached l l' ->
  length (filter attached l) = length (filter attached l').
Proof.
  induction 1 as [|a b l1 l2 (_ & A) _ IH]; simpl; auto.
  rewrite <- A. destruct (attached a); simpl; congruence.
Qed.

Lemma existsb_filter_length {A} (g : A -> bool) (l : list A) :
  existsb g l = true -> (1 <= length (filter g l))%nat.
Proof.
  induction l as [|x l IH]; simpl; [discriminate|].
  destruct (g x); simpl; [lia | auto].
Qed.

Lemma afterFreezing_shape c v :
  same_shape c (afterFreezing P c v) /\
  (boundary c = true ->
   boundaryMass (afterFreezing P c v) = boundaryMass c + (1 - kappa P) * v /\
   diffusiveMass (afterFreezing P c v) = 0).
Proof.
  unfold afterFreezing, same_shape. cell_cases c; repeat split; discriminate.
Qed.

Lemma stepTwo_afterFreezing c S v :
  _next_dm c = Some v ->
  stepTwo P c S =
  (flag <- attachmentStep P (afterFreezing P c v) S ;;
   Ok (meltingStep P (set_attachmentFlag flag (afterFreezing P c v)))).
Proof. intros E. unfold stepTwo, afterFreezing. rewrite E. reflexivity. Qed.

Lemma meltingStep_attachmentFlag c : attachmentFlag (meltingStep P c) = attachmentFlag c.
Proof. unfold meltingStep. destruct (boundary c); reflexivity. Qed.

(** C1. Let a boundary cell be evaluated in Pass 2, at any point of
    the pass, let [n] be the number of its neighbours that are attached
    at that point and [t] the cell after freezing and before melting.
    Then [n >= 1], and the decision stored in attachmentFlag is true
    exactly when [n] is 1 or 2 and boundaryMass > beta, or [n] is 3 and
    boundaryMass >= 1 or (boundaryMass >= alpha and the diffusive mass
    summed over the cell and its neighbours is < theta); it is false
    when [n] is 0 or at least 4. *)
Theorem attachment_decision (o pre : list Key) (L L1 S : CrystalLattice)
        (k : Key) (c : SnowflakeCell) :
  passOne o L = Ok L1 -> (forall x, In x (keys L) -> In x o) ->
  passTwo P pre L1 = Ok S ->
  get S k = Some c -> boundary c = true ->
  exists v c2,
    _next_dm c = Some v /\ stepTwo P c S = Ok c2 /\
    (1 <= attachedCount c S)%nat /\
    (attachmentFlag c2 = true <->
     attach_spec P (attachedCount c S) (boundaryMass (afterFreezing P c v))
                 (sumDiffusive (afterFreezing P c v) S)) /\
    ((attachedCount c S = 0 \/ 4 <= attachedCount c S)%nat ->
     attachmentFlag c2 = false).
Proof.
  intros H1 Ho H2 G Hb.
  destruct (passOne_result _ _ _ H1) as [HL1 Hall].
  pose proof (passTwo_lift _ _ _ H2) as HL2.
  (* the cell before Pass 2 and before Pass 1 *)
  pose proof (HL2 k) as R2. rewrite G in R2.
  destruct (get L1 k) as [c1|] eqn:G1; [|contradiction].
  pose proof (HL1 k) as R1. rewrite G1 in R1.
  destruct (get L k) as [c0|] eqn:G0; [|contradiction].
  destruct (Hall k c0 (Ho _ (get_In_keys _ _ _ G0)) G0) as (c1' & G1' & Post).
  assert (c1' = c1) by congruence. subst c1'.
  rewrite <- (get_key _ _ _ G1) in G0.
  destruct (Post c0 G0) as (M & B1 & N1 & D1).
  destruct R2 as (K2 & _ & B2 & N2 & D2).
  rewrite stepOne_next_dm in D1. rewrite D2 in D1.
  rewrite B2 in B1, N1. specialize (N1 Hb). rewrite N2 in N1.
  rewrite Hb in B1. symmetry in B1. apply andb_true_iff in B1 as [_ Ex].
  (* the snapshot counts the neighbours attached now *)
  assert (Hcount : attachedCount c S = length (filter attached (neighbors c0 L))).
  { unfold attachedCount. symmetry. apply same_attached_count.
    apply neighbors_lift.
    - apply lift_trans with (L' := L1).
      + intros x y z [? ?] [? ?]; split; congruence.
      + apply (lift_weaken same_matter); auto. intros x y (? & ? & _); split; auto.
      + apply (lift_weaken same_shape); auto. intros x y (? & ? & _); split; auto.
    - destruct M as (? & _). congruence. }
  match type of D1 with _ = Some ?w => set (v := w) in * end.
  destruct (afterFreezing_shape c v) as ((Kt & _ & Bt & Nt & _) & _).
  destruct (attachmentStep_spec (afterFreezing P c v) S
              (map key (filter attached (neighbors c0 L)))) as (flag & Ef & Hf).
  { congruence. }
  { congruence. }
  { rewrite length_map. apply existsb_filter_length; auto. }
  rewrite length_map, <- Hcount in Hf.
  exists v, (meltingStep P (set_attachmentFlag flag (afterFreezing P c v))).
  rewrite (stepTwo_afterFreezing c S v D1), Ef. cbn [bind].
  rewrite meltingStep_attachmentFlag. cbn [attachmentFlag set_attachmentFlag].
  split; [|split; [|split; [|split]]]; auto.
  - rewrite Hcount. apply existsb_filter_length; auto.
  - intros Hn. destruct flag; auto.
    destruct (proj1 Hf eq_refl) as [[[|] _]|[? _]]; lia.
Qed.

(** *** Passes 1 and 3 are simultaneous updates *)

Lemma mem_In k o : mem k o = true <-> In k o.
Proof.
  unfold mem. rewrite existsb_exists. split.
  - intros (x & Hx & E). apply key_eqb_eq in E. subst; auto.
  - intros H. exists k. split; auto. apply key_eqb_refl.
Qed.

Lemma find_notin cs k :
  ~ In k (map key cs) -> find (fun c => key_eqb (key c) k) cs = None.
Proof.
  intros N. destruct (find _ cs) as [c|] eqn:G; auto.
  exfalso. apply N. apply find_some in G as [Hc E].
  apply key_eqb_eq in E. subst k. apply in_map; auto.
Qed.

(* stores with one cell per key are equal when they hold the same cells
   under the same keys, in the same order *)
Lemma wf_ext L L' :
  wf L -> keys L = keys L' -> size L = size L' ->
  (forall k, get L k = get L' k) -> L = L'.
Proof.
  destruct L as [sz cs], L' as [sz' cs']. unfold wf, keys, get. simpl.
  intros N K -> G. f_equal. revert cs' N K G.
  induction cs as [|a cs IH]; intros [|b cs'] N K G; simpl in *; try discriminate; auto.
  injection K as Kq Kr K.
  assert (Kab : key a = key b) by (unfold key; congruence).
  inversion N as [|? ? Na Ncs]; subst.
  assert (a = b).
  { specialize (G (key a)). rewrite key_eqb_refl in G.
    replace (key_eqb (key b) (key a)) with true in G
      by (symmetry; apply key_eqb_eq; congruence).
    congruence. }
  subst b. f_equal. apply IH; auto.
  intros k. specialize (G k).
  destruct (key_eqb (key a) k) eqn:E; auto.
  apply key_eqb_eq in E. subst k.
  rewrite (find_notin cs (key a)) by exact Na.
  rewrite (find_notin cs' (key a)) by (rewrite <- K; exact Na).
  reflexivity.
Qed.

Lemma get_sync g o L k :
  (forall c, key (g c) = key c) ->
  get (sync g o L) k =
  if mem k o then option_map g (get L k) else get L k.
Proof.
  intros Hg. unfold get, sync. simpl.
  induction (cells L) as [|c cs IH]; simpl.
  - destruct (mem k o); reflexivity.
  - destruct (key_eqb (key c) k) eqn:E.
    + pose proof E as E'. apply key_eqb_eq in E'.
      rewrite E'. destruct (mem k o); simpl.
      * rewrite Hg, E. reflexivity.
      * rewrite E. reflexivity.
    + destruct (mem (key c) o); [rewrite Hg|]; rewrite E; exact IH.
Qed.

Lemma keys_sync g o L : (forall c, key (g c) = key c) -> keys (sync g o L) = keys L.
Proof.
  intros Hg. unfold keys, sync. simpl. rewrite map_map. apply map_ext.
  intros c. destruct (mem (key c) o); auto.
Qed.

(* a loop whose visits compute [g] of the cell as it was before the
   loop leaves [sync g] of the store, when no key is visited twice *)
Lemma pass_sync (f : SnowflakeCell -> CrystalLattice -> Result SnowflakeCell)
      (g : SnowflakeCell -> SnowflakeCell) (I : CrystalLattice -> Prop)
      (L0 : CrystalLattice) :
  (forall c, key (g c) = key c) ->
  (forall S c, I S -> get S (key c) = Some c -> get L0 (key c) = Some c ->
               f c S = Ok (g c) /\ I (put S (g c))) ->
  forall o S, NoDup o -> I S -> (forall k, In k o -> get S k = get L0 k) ->
    exists L', pass f o S = Ok L' /\
      forall k, get L' k = if mem k o then option_map g (get L0 k) else get S k.
Proof.
  intros Hg Hf. induction o as [|k0 o IH]; simpl; intros S N HI Hun.
  - exists S. split; auto.
  - inversion N as [|? ? N0 No]; subst.
    destruct (get S k0) as [c0|] eqn:G0.
    + pose proof (get_key _ _ _ G0) as K0.
      assert (G0' : get L0 (key c0) = Some c0).
      { rewrite K0, <- (Hun k0) by auto. exact G0. }
      rewrite <- K0 in G0.
      destruct (Hf S c0 HI G0 G0') as [-> HI']. cbn [bind].
      destruct (IH (put S (g c0)) No HI') as (L' & HL' & Hget).
      { intros k Hk. rewrite get_put_other; auto.
        rewrite Hg, K0. intros ->. contradiction. }
      exists L'. split; auto. intros k. rewrite Hget.
      unfold mem at 2. simpl. fold (mem k o).
      destruct (key_eqb k k0) eqn:E; simpl.
      * apply key_eqb_eq in E. subst k.
        destruct (mem k0 o) eqn:M; [apply mem_In in M; contradiction|].
        rewrite <- K0, (get_put_same _ _ _ G0 (Hg c0)), G0'. reflexivity.
      * destruct (mem k o); auto.
        apply get_put_other. rewrite Hg, K0. apply key_eqb_neq; auto.
    + destruct (IH S No HI) as (L' & HL' & Hget).
      { intros k Hk. apply Hun; auto. }
      exists L'. split; auto. intros k. rewrite Hget.
      unfold mem at 2. simpl. fold (mem k o).
      destruct (key_eqb k k0) eqn:E; simpl; auto.
      apply key_eqb_eq in E. subst k.
      destruct (mem k0 o) eqn:M; [apply mem_In in M; contradiction|].
      rewrite <- (Hun k0) by auto. rewrite G0. reflexivity.
Qed.

Lemma pass_is_sync (f : SnowflakeCell -> CrystalLattice -> Result SnowflakeCell)
      (g : SnowflakeCell -> SnowflakeCell) (I : CrystalLattice -> Prop)
      (L : CrystalLattice) (o : list Key) :
  (forall c, key (g c) = key c) ->
  (forall S c, I S -> get S (key c) = Some c -> get L (key c) = Some c ->
               f c S = Ok (g c) /\ I (put S (g c))) ->
  wf L -> NoDup o -> I L -> pass f o L = Ok (sync g o L).
Proof.
  intros Hg Hf W N HI.
  destruct (pass_sync f g I L Hg Hf o L N HI) as (L' & HL' & Hget); auto.
  rewrite HL'. f_equal.
  destruct (pass_keys f _ _ _ HL') as [K Sz].
  apply wf_ext.
  - unfold wf. rewrite K. exact W.
  - rewrite K, keys_sync; auto.
  - rewrite Sz. reflexivity.
  - intros k. rewrite Hget, get_sync; auto.
Qed.

(* stepOne depends on the store only through fields Pass 1 keeps *)
Lemma stepOne_ext L0 S c :
  lift same_matter L0 S -> stepOne c S = stepOne c L0.
Proof.
  intros HL.
  pose proof (neighborsAt_lift same_matter L0 S (q c) (r c) HL) as F.
  unfold stepOne, updateBoundary, diffusionCalc, neighbors. cell_simpl.
  rewrite <- (same_matter_existsb _ _ F), <- (same_matter_filter _ _ F).
  destruct (negb (attached c) && existsb attached (neighborsAt (q c) (r c) L0));
    cell_simpl; destruct (attached c); cell_simpl; auto;
    rewrite <- (same_matter_length _ _ F), <- (same_matter_fold _ _ _ F); reflexivity.
Qed.

(* Pass 1 over distinct keys is the simultaneous update by stepOne on
   the store as it was before the pass *)
Lemma passOne_sync L o :
  wf L -> NoDup o -> passOne o L = Ok (sync (fun c => stepOne c L) o L).
Proof.
  intros W N.
  apply (pass_is_sync _ (fun c => stepOne c L) (lift same_matter L)); auto.
  - intros c. apply stepOne_key.
  - intros S c HS G G0. rewrite (stepOne_ext L S c HS). split; auto.
    apply lift_put with (c := c); auto.
    + apply stepOne_key.
    + intros a Ha. eapply same_matter_trans; eauto. apply stepOne_same_matter.
  - apply lift_refl, same_matter_refl.
Qed.

(* Pass 3 over distinct keys is the simultaneous update by stepThree *)
Lemma passThree_sync rnd L o :
  wf L -> NoDup o ->
  passThree P rnd o L = Ok (sync (fun c => stepThree P (rnd (key c)) c) o L).
Proof.
  intros W N.
  apply (pass_is_sync _ (fun c => stepThree P (rnd (key c)) c) (fun _ => True)); auto.
  intros c. apply stepThree_key.
Qed.

Lemma sync_same_keys g o o' L :
  (forall k, In k o <-> In k o') -> sync g o L = sync g o' L.
Proof.
  intros H. unfold sync. f_equal. apply map_ext. intros c.
  replace (mem (key c) o') with (mem (key c) o); auto.
  apply eq_true_iff_eq. rewrite !mem_In. apply H.
Qed.

(* the results of Pass 1 and of Pass 3 do not depend on the visiting
   order *)
Lemma passOne_passThree_any_order rnd L o o' :
  wf L -> NoDup o -> NoDup o' -> (forall k, In k o <-> In k o') ->
  passOne o L = passOne o' L /\ passThree P rnd o L = passThree P rnd o' L.
Proof.
  intros W N N' H.
  rewrite !passOne_sync, !passThree_sync by auto.
  rewrite (sync_same_keys _ o o' L H), (sync_same_keys _ o o' L H). auto.
Qed.

End Step.

(** * Concrete runs *)

Lemma lattice1_constructed : construct params 1 = Ok lattice1.
Proof. vm_compute. reflexivity. Qed.

Lemma lattice1_passOne_run : passOne (keys lattice1) lattice1 = Ok lattice1_passOne.
Proof. vm_compute. reflexivity. Qed.

Lemma lattice1_step_run : step params noNoise lattice1 = Ok lattice1_step.
Proof. vm_compute. reflexivity. Qed.

Lemma lattice2_grown_run :
  (L <- construct params_beta0 2 ;; step params_beta0 noNoise L) = Ok lattice2_grown.
Proof. vm_compute. reflexivity. Qed.

Lemma params_valid : valid_params params.
Proof. unfold valid_params, Qle; simpl. lia. Qed.


(** C3, refuted as stated: after one step from construction (radius 2,
    beta = 0) the cell (1,0) has just attached and still has
    boundary == true, and the unattached cell (2,0) has the attached
    neighbour (1,0) and boundary == false. *)
Lemma boundary_flag_is_stale_after_attachment :
  (L <- construct params_beta0 2 ;; step params_beta0 noNoise L) = Ok lattice2_grown /\
  (exists c, get lattice2_grown (1, 0)%Z = Some c /\
             boundary c = true /\ attached c = true) /\
  (exists c n, get lattice2_grown (2, 0)%Z = Some c /\
               boundary c = false /\ attached c = false /\
               In n (neighbors c lattice2_grown) /\ attached n = true).
Proof.
  split; [exact lattice2_grown_run|]. split.
  - eexists. split; [vm_compute; reflexivity|]. split; reflexivity.
  - eexists. eexists. split; [vm_compute; reflexivity|].
    split; [reflexivity|]. split; [reflexivity|]. split.
    + vm_compute. right. left. reflexivity.
    + reflexivity.
Qed.

(** C2, the order dependence of Pass 2.  From construction (radius 2,
    [pocket_params]) two steps reach a lattice in which (1,0) is a
    boundary cell with the three attached neighbours (0,1), (0,0) and
    (1,-1).  In the next step its attachment test sums the diffusive
    mass of its neighbours (1,1), (2,-1) and (2,0) while Pass 2 is
    rewriting them: visited in insertion order, before them, the cell
    reads 2/5 and does not attach; visited in the reverse order, after
    them, it reads 1/10 and attaches. *)
Theorem step_depends_on_visiting_order :
  exists L,
    pocket = Ok L /\
    attachedAt (step pocket_params noNoise L) (1, 0)%Z = Some false /\
    attachedAt (stepWith pocket_params (keys L) (rev (keys L)) (keys L) noNoise L)
               (1, 0)%Z = Some true.
Proof.
  eexists. split; [vm_compute; reflexivity|].
  split; vm_compute; reflexivity.
Qed.

(* what the cell (1,0) of the pocket reads in the two orders *)
Lemma pocket_reads :
  exists L L1 c v S S',
    pocket = Ok L /\ passOne (keys L) L = Ok L1 /\
    get L1 (1, 0)%Z = Some c /\ boundary c = true /\ _next_dm c = Some v /\
    attachedCount c L1 = 3%nat /\
    boundaryMass (afterFreezing pocket_params c v) == 1 # 5 /\
    passTwo pocket_params (visitedBefore (1, 0)%Z (keys L)) L1 = Ok S /\
    sumDiffusive (afterFreezing pocket_params c v) S == 2 # 5 /\
    passTwo pocket_params (visitedBefore (1, 0)%Z (rev (keys L))) L1 = Ok S' /\
    sumDiffusive (afterFreezing pocket_params c v) S' == 1 # 10.
Proof.
  do 6 eexists.
  split; [vm_compute; reflexivity|]. split; [vm_compute; reflexivity|].
  split; [vm_compute; reflexivity|]. split; [reflexivity|].
  split; [reflexivity|]. split; [vm_compute; reflexivity|].
  split; [vm_compute; reflexivity|]. split; [vm_compute; reflexivity|].
  split; [vm_compute; reflexivity|]. split; vm_compute; reflexivity.
Qed.

(* step() itself, in its own visiting order, treats mirror images
   differently: in the reflected pocket the cell (-1,0) is visited after
   the neighbours it sums, and attaches *)
Lemma step_breaks_mirror_symmetry :
  exists L L',
    pocket = Ok L /\ pocket_mirrored = Ok L' /\ reflected L L' = true /\
    attachedAt (step pocket_params noNoise L) (1, 0)%Z = Some false /\
    attachedAt (step pocket_params noNoise L') (-1, 0)%Z = Some true.
Proof.
  do 2 eexists.
  split; [vm_compute; reflexivity|]. split; [vm_compute; reflexivity|].
  split; [vm_compute; reflexivity|]. split; vm_compute; reflexivity.
Qed.

(** * Instances *)

Lemma attachment_decision_witness :
  passOne (keys lattice1) lattice1 = Ok lattice1_passOne /\
  get lattice1_passOne (1, 0)%Z = Some lattice1_cell /\
  boundary lattice1_cell = true /\
  exists v c2,
    _next_dm lattice1_cell = Some v /\
    stepTwo params lattice1_cell lattice1_passOne = Ok c2 /\
    (1 <= attachedCount lattice1_cell lattice1_passOne)%nat /\
    (attachmentFlag c2 = true <->
     attach_spec params (attachedCount lattice1_cell lattice1_passOne)
                 (boundaryMass (afterFreezing params lattice1_cell v))
                 (sumDiffusive (afterFreezing params lattice1_cell v) lattice1_passOne)) /\
    ((attachedCount lattice1_cell lattice1_passOne = 0 \/
      4 <= attachedCount lattice1_cell lattice1_passOne)%nat ->
     attachmentFlag c2 = false).
Proof.
  split; [vm_compute; reflexivity|]. split; [vm_compute; reflexivity|].
  split; [reflexivity|].
  apply (attachment_decision params (keys lattice1) [] lattice1 lattice1_passOne
           lattice1_passOne (1, 0)%Z lattice1_cell).
  - vm_compute; reflexivity.
  - intros x H; exact H.
  - reflexivity.
  - vm_compute; reflexivity.
  - reflexivity.
Defined.

Lemma boundary_reflects_start_of_step_witness :
  step params noNoise lattice1 = Ok lattice1_step /\
  get lattice1 (1, 0)%Z = Some lattice1_cell0 /\
  exists c', get lattice1_step (1, 0)%Z = Some c' /\
    (boundary c' = true <->
     attached lattice1_cell0 = false /\
     exists n, In n (neighbors lattice1_cell0 lattice1) /\ attached n = true).
Proof.
  split; [vm_compute; reflexivity|]. split; [vm_compute; reflexivity|].
  apply (boundary_reflects_start_of_step params noNoise lattice1 lattice1_step
           (1, 0)%Z lattice1_cell0).
  - vm_compute; reflexivity.
  - vm_compute; reflexivity.
Defined.


Lemma diffusion_candidate_witness :
  passOne (keys lattice1) lattice1 = Ok lattice1_passOne /\
  In (1, 0)%Z (keys lattice1) /\
  get lattice1 (1, 0)%Z = Some lattice1_cell0 /\
  exists c1 v,
    get lattice1_passOne (1, 0)%Z = Some c1 /\ _next_dm c1 = Some v /\
    diffusiveMass c1 = diffusiveMass lattice1_cell0 /\
    (attached lattice1_cell0 = false -> v == next_dm_spec lattice1_cell0 lattice1) /\
    (attached lattice1_cell0 = true -> v = diffusiveMass lattice1_cell0).
Proof.
  split; [vm_compute; reflexivity|].
  split; [vm_compute; intuition|].
  split; [vm_compute; reflexivity|].
  apply (diffusion_candidate (keys lattice1) lattice1 lattice1_passOne
           (1, 0)%Z lattice1_cell0).
  - vm_compute; reflexivity.
  - vm_compute; intuition.
  - vm_compute; reflexivity.
Defined.

Lemma attached_is_permanent_witness :
  steps params [noNoise] lattice1 = Ok lattice1_step /\
  get lattice1 (0, 0)%Z = Some lattice1_seed /\
  attached lattice1_seed = true /\
  exists c', get lattice1_step (0, 0)%Z = Some c' /\ attached c' = true.
Proof.
  split; [vm_compute; reflexivity|]. split; [vm_compute; reflexivity|].
  split; [reflexivity|].
  apply (attached_is_permanent params [noNoise] lattice1 lattice1_step
           (0, 0)%Z lattice1_seed).
  - vm_compute; reflexivity.
  - vm_compute; reflexivity.
  - reflexivity.
Defined.

Lemma masses_stay_nonnegative_witness :
  valid_params params /\ construct params 1 = Ok lattice1 /\
  exists Ln, steps params [noNoise] lattice1 = Ok Ln /\
             forall c, In c (cells Ln) -> nonneg_masses c.
Proof.
  assert (V : valid_params params) by (unfold valid_params, Qle; simpl; lia).
  split; [exact V|]. split; [vm_compute; reflexivity|].
  apply (masses_stay_nonnegative params V 1 lattice1 [noNoise]).
  vm_compute; reflexivity.
Defined.

Lemma attached_cell_masses_unchanged_witness :
  step params noNoise lattice1 = Ok lattice1_step /\
  get lattice1 (0, 0)%Z = Some lattice1_seed /\
  attached lattice1_seed = true /\
  exists c', get lattice1_step (0, 0)%Z = Some c' /\
             diffusiveMass c' = diffusiveMass lattice1_seed /\
             boundaryMass c' = boundaryMass lattice1_seed /\
             crystalMass c' = crystalMass lattice1_seed /\
             boundary c' = false /\ attached c' = true.
Proof.
  split; [vm_compute; reflexivity|]. split; [vm_compute; reflexivity|].
  split; [reflexivity|].
  apply (attached_cell_masses_unchanged params noNoise lattice1 lattice1_step
           (0, 0)%Z lattice1_seed).
  - vm_compute; reflexivity.
  - vm_compute; reflexivity.
  - reflexivity.
Defined.

(* the cell (1,0) of [lattice2_grown] has just attached: its boundary
   flag is still set, and only attachedCells() returns it *)
Lemma attached_boundary_disjoint_witness :
  boundary lattice2_cell = true /\
  In lattice2_cell (fst (attachedCells lattice2_grown)) /\
  ~ In lattice2_cell (fst (boundaryCells lattice2_grown)).
Proof.
  split; [reflexivity|].
  assert (H : In lattice2_cell (fst (attachedCells lattice2_grown))).
  { vm_compute. do 6 right. left. reflexivity. }
  split; [exact H|].
  apply (proj2 (proj2 (attached_boundary_disjoint lattice2_grown)) lattice2_cell H).
Defined.

(** * Further properties of the code *)

Lemma zrange_In lo hi x : In x (zrange lo hi) -> (lo <= x <= hi)%Z.
Proof.
  unfold zrange. rewrite in_map_iff. intros (i & <- & Hi).
  apply in_seq in Hi. lia.
Qed.

Lemma fold_left_keeps_in {A B} (g : A -> B -> A) (Pr : A -> Prop) (l : list B) :
  (forall a y, In y l -> Pr a -> Pr (g a y)) -> forall a, Pr a -> Pr (fold_left g l a).
Proof.
  induction l as [|x l IH]; simpl; intros Hg a Ha; auto.
Qed.

(* every cell the loops create is a fresh cell of the hexagonal region *)
Lemma fill_cells P sz c :
  In c (fill P sz) ->
  c = newCell P (q c) (r c) /\ (hexDistance (key c) <= sz)%Z.
Proof.
  unfold fill. revert c.
  apply (fold_left_keeps_in _
           (fun cs => forall c, In c cs ->
              c = newCell P (q c) (r c) /\ (hexDistance (key c) <= sz)%Z)).
  - intros cs q0 Hq Hcs.
    apply (fold_left_keeps_in _
           (fun cs => forall c, In c cs ->
              c = newCell P (q c) (r c) /\ (hexDistance (key c) <= sz)%Z)); auto.
    intros cs' r0 Hr Hcs'. destruct (Z.abs (q0 + r0) >? sz)%Z eqn:E; auto.
    intros c Hc. apply In_Map_set in Hc as [->|]; auto.
    apply zrange_In in Hq, Hr. split; [reflexivity|].
    unfold hexDistance, newCell, key; simpl. lia.
  - intros c [].
Qed.

Lemma hexDistance_origin k : (hexDistance k = 0)%Z <-> k = (0, 0)%Z.
Proof.
  destruct k as [a b]. unfold hexDistance; simpl. split.
  - intros H. f_equal; lia.
  - intros H. injection H as -> ->. reflexivity.
Qed.

Lemma newCell_key P a b : key (newCell P a b) = (a, b).
Proof. reflexivity. Qed.

(* what the constructor leaves under every coordinate *)
Lemma construct_get (P : Params) (sz : Z) (L : CrystalLattice) (k : Key) :
  construct P sz = Ok L ->
  get L k = if (hexDistance k <=? sz)%Z then Some (initialCell P k) else None.
Proof.
  unfold construct.
  destruct (get (mkLattice sz (fill P sz)) (0, 0)%Z) as [c0|] eqn:G0; try discriminate.
  intros H; injection H as <-.
  assert (C0 : c0 = newCell P 0 0).
  { pose proof (get_key _ _ _ G0) as K0. apply get_In in G0.
    destruct (fill_cells P sz c0 G0) as [E _].
    unfold key in K0. injection K0 as Kq Kr. rewrite Kq, Kr in E. exact E. }
  subst c0. rewrite get_put.
  change (key (set_attached true (newCell P 0 0))) with (0, 0)%Z.
  destruct (hexDistance k <=? sz)%Z eqn:D.
  - apply Z.leb_le in D.
    destruct (has_key_get (mkLattice sz (fill P sz)) k) as [c G].
    { destruct k as [a b]. unfold hexDistance in D; simpl in D.
      apply fill_has_key; lia. }
    rewrite G. pose proof (get_key _ _ _ G) as K. apply get_In in G.
    destruct (fill_cells P sz c G) as [E _].
    unfold initialCell. rewrite K.
    destruct (key_eqb k (0, 0)%Z) eqn:E0; auto.
    rewrite E. f_equal. unfold key in K. rewrite <- K. reflexivity.
  - apply Z.leb_gt in D.
    destruct (get (mkLattice sz (fill P sz)) k) as [c|] eqn:G; auto.
    pose proof (get_key _ _ _ G) as K. apply get_In in G.
    destruct (fill_cells P sz c G) as [_ E]. rewrite K in E. lia.
Qed.

(** ** Neighbours *)

Lemma hexDistance_one a b :
  hexDistance (a, b) = 1%Z <->
  In (a, b) (combine HEX_DX HEX_DY).
Proof.
  unfold hexDistance; simpl. split.
  - intros H.
    assert (X : ((a = 1 /\ b = 0) \/ (a = 0 /\ b = 1) \/ (a = -1 /\ b = 1) \/
                 (a = -1 /\ b = 0) \/ (a = 0 /\ b = -1) \/ (a = 1 /\ b = -1))%Z) by lia.
    destruct X as [X|[X|[X|[X|[X|X]]]]]; destruct X as [-> ->]; simpl; auto 10.
  - intros [H|[H|[H|[H|[H|[H|[]]]]]]]; injection H as <- <-; reflexivity.
Qed.

(* the neighbours of a cell are the stored cells at distance one *)
Lemma neighbors_spec (c n : SnowflakeCell) (L : CrystalLattice) :
  In n (neighbors c L) <->
  get L (key n) = Some n /\ hexDistance (offset (key c) (key n)) = 1%Z.
Proof.
  unfold neighbors, neighborsAt. rewrite in_flat_map. split.
  - intros ([dx dy] & Hd & Hn). cbn [fst snd] in Hn.
    destruct (get L _) as [m|] eqn:G; [|contradiction].
    destruct Hn as [<-|[]]. pose proof (get_key _ _ _ G) as K.
    rewrite K. split; auto.
    apply hexDistance_one in Hd. unfold offset, key; simpl.
    replace (q c + dx - q c)%Z with dx by lia.
    replace (r c + dy - r c)%Z with dy by lia. exact Hd.
  - intros [G H]. exists (offset (key c) (key n)). split.
    + destruct (offset (key c) (key n)) as [a b] eqn:E.
      apply hexDistance_one. exact H.
    + unfold offset, key; simpl.
      replace (q c + (q n - q c))%Z with (q n) by lia.
      replace (r c + (r n - r c))%Z with (r n) by lia.
      change (q n, r n) with (key n). rewrite G. left; reflexivity.
Qed.

Lemma hexDistance_opp a b : hexDistance ((- a)%Z, (- b)%Z) = hexDistance (a, b).
Proof.
  unfold hexDistance; cbn [fst snd].
  rewrite <- Z.opp_add_distr, !Z.abs_opp. reflexivity.
Qed.

Lemma hexDistance_offset_sym a b : hexDistance (offset a b) = hexDistance (offset b a).
Proof.
  destruct a as [a1 a2], b as [b1 b2]. unfold offset; cbn [fst snd].
  rewrite <- (hexDistance_opp (a1 - b1) (a2 - b2)).
  f_equal. f_equal; lia.
Qed.

Lemma hexDistance_triangle a1 a2 b1 b2 :
  (hexDistance ((a1 + b1)%Z, (a2 + b2)%Z) <= hexDistance (a1, a2) + hexDistance (b1, b2))%Z.
Proof.
  unfold hexDistance; cbn [fst snd].
  replace (a1 + b1 + (a2 + b2))%Z with ((a1 + a2) + (b1 + b2))%Z by lia.
  repeat apply Z.max_lub;
    (eapply Z.le_trans; [apply Z.abs_triangle|]); apply Z.add_le_mono.
  - apply Z.le_max_l.
  - apply Z.le_max_l.
  - etransitivity; [|apply Z.le_max_r]. apply Z.le_max_l.
  - etransitivity; [|apply Z.le_max_r]. apply Z.le_max_l.
  - etransitivity; [|apply Z.le_max_r]. apply Z.le_max_r.
  - etransitivity; [|apply Z.le_max_r]. apply Z.le_max_r.
Qed.

(* one step on the grid changes the distance from the origin by at most one *)
Lemma hexDistance_step a b :
  hexDistance (offset a b) = 1%Z ->
  (hexDistance a - 1 <= hexDistance b <= hexDistance a + 1)%Z.
Proof.
  intros H. pose proof H as H'. rewrite hexDistance_offset_sym in H'.
  destruct a as [a1 a2], b as [b1 b2]. unfold offset in *; cbn [fst snd] in *.
  pose proof (hexDistance_triangle a1 a2 (b1 - a1) (b2 - a2)) as T1.
  pose proof (hexDistance_triangle b1 b2 (a1 - b1) (a2 - b2)) as T2.
  replace (a1 + (b1 - a1))%Z with b1 in T1 by lia.
  replace (a2 + (b2 - a2))%Z with b2 in T1 by lia.
  replace (b1 + (a1 - b1))%Z with a1 in T2 by lia.
  replace (b2 + (a2 - b2))%Z with a2 in T2 by lia.
  rewrite H in T1. rewrite H' in T2.
  generalize dependent (hexDistance (a1, a2)).
  generalize dependent (hexDistance (b1, b2)). intros; lia.
Qed.

(** X4. Adjacency is symmetric: a neighbour of a cell of the lattice has
    that cell among its own neighbours; and no cell is its own
    neighbour. *)
Theorem neighbors_symmetric (a b : SnowflakeCell) (L : CrystalLattice) :
  get L (key a) = Some a -> In b (neighbors a L) ->
  In a (neighbors b L) /\ key a <> key b.
Proof.
  intros Ga Hb. apply neighbors_spec in Hb as [Gb D]. split.
  - apply neighbors_spec. split; auto. rewrite hexDistance_offset_sym. exact D.
  - intros E. rewrite E in D. unfold hexDistance, offset in D; cbn [fst snd] in D.
    rewrite !Z.sub_diag in D. discriminate.
Qed.

Lemma flat_map_option_length {A B} (g : A -> list B) (l : list A) :
  (forall x, (length (g x) <= 1)%nat) -> (length (flat_map g l) <= length l)%nat.
Proof.
  intros H. induction l as [|x l IH]; simpl; auto.
  rewrite length_app. specialize (H x). lia.
Qed.

Lemma NoDup_flat_map_keys (g : Z * Z -> Key) (L : CrystalLattice) (l : list (Z * Z)) :
  NoDup (map g l) ->
  NoDup (map key (flat_map (fun d => match get L (g d) with
                                     | Some n => [n] | None => [] end) l)).
Proof.
  induction l as [|d l IH]; simpl; intros N; [constructor|].
  inversion N as [|? ? Hd Hl]; subst. rewrite map_app.
  destruct (get L (g d)) as [n|] eqn:G; simpl; auto.
  constructor; auto.
  rewrite (get_key _ _ _ G). intros Hin. apply Hd.
  apply in_map_iff in Hin as (m & Km & Hm).
  apply in_flat_map in Hm as (d' & Hd' & Hm).
  destruct (get L (g d')) as [m'|] eqn:G'; [|contradiction].
  destruct Hm as [<-|[]]. rewrite (get_key _ _ _ G') in Km.
  rewrite <- Km. apply in_map; auto.
Qed.

(** X5. A cell has at most six neighbours, and they have different
    coordinates. *)
Theorem neighbors_at_most_six (c : SnowflakeCell) (L : CrystalLattice) :
  (length (neighbors c L) <= 6)%nat /\ NoDup (map key (neighbors c L)).
Proof.
  unfold neighbors, neighborsAt. split.
  - apply (flat_map_option_length _ (combine HEX_DX HEX_DY)).
    intros d. destruct (get L _); simpl; lia.
  - apply (NoDup_flat_map_keys (fun d => ((q c + fst d)%Z, (r c + snd d)%Z))).
    simpl. repeat constructor; simpl; intros H;
      repeat (destruct H as [H|H]; [injection H; lia|]); auto.
Qed.

Lemma flat_map_all_some {A B} (g : A -> option B) (l : list A) :
  (forall x, In x l -> g x <> None) ->
  length (flat_map (fun x => match g x with Some n => [n] | None => [] end) l)
  = length l.
Proof.
  induction l as [|x l IH]; simpl; intros H; auto.
  rewrite length_app, IH by auto.
  destruct (g x) eqn:E; [reflexivity|]. exfalso. apply (H x); auto.
Qed.

(** X6. In a constructed lattice a cell that is not on the rim (its
    distance from the origin is below the radius) has all six
    neighbours. *)
Theorem interior_cell_has_six_neighbors (P : Params) (sz : Z) (L : CrystalLattice)
        (k : Key) (c : SnowflakeCell) :
  construct P sz = Ok L -> get L k = Some c -> (hexDistance k < sz)%Z ->
  length (neighbors c L) = 6%nat.
Proof.
  intros H G D. unfold neighbors, neighborsAt.
  rewrite (flat_map_all_some
             (fun d : Z * Z => get L ((q c + fst d)%Z, (r c + snd d)%Z))); auto.
  intros [dx dy] Hd. rewrite (construct_get P sz L _ H). cbn [fst snd].
  apply hexDistance_one in Hd.
  pose proof (hexDistance_triangle (q c) (r c) dx dy) as T.
  rewrite Hd in T. change (q c, r c) with (key c) in T.
  rewrite (get_key _ _ _ G) in T.
  destruct (hexDistance ((q c + dx)%Z, (r c + dy)%Z) <=? sz)%Z eqn:E; [discriminate|].
  apply Z.leb_gt in E. lia.
Qed.

(** ** The growth front *)

Section Front.

Variable P : Params.

Lemma keeps_idle_refl c : keeps_idle c c.
Proof. split; auto. Qed.

Lemma keeps_idle_trans a b c : keeps_idle a b -> keeps_idle b c -> keeps_idle a c.
Proof.
  intros [K1 H1] [K2 H2]. split; [congruence|]. intros Ha.
  destruct (H1 Ha) as (B1 & A1 & M1 & C1).
  destruct (H2 B1) as (B2 & A2 & M2 & C2).
  repeat split; congruence.
Qed.

Lemma stepTwo_keeps_idle c L c' : stepTwo P c L = Ok c' -> keeps_idle c c'.
Proof.
  intros H. split; [symmetry; eapply stepTwo_key; eauto|]. revert H.
  cell_cases c; intros H B; try discriminate; injection H as <-; repeat split.
Qed.

Lemma stepThree_keeps_idle u c : keeps_idle c (stepThree P u c).
Proof.
  split; [symmetry; apply stepThree_key|].
  cell_cases c; intros B; try discriminate; repeat split.
Qed.

(* the boundary flag after step(), from the flags when it began *)
Lemma step_boundary_flag rnd L L' k c :
  step P rnd L = Ok L' -> get L k = Some c ->
  exists c', get L' k = Some c' /\
    boundary c' = negb (attached c) && existsb attached (neighbors c L).
Proof.
  intros H G. apply step_inv in H as (L1 & L2 & H1 & H2 & H3).
  destruct (passOne_result _ _ _ H1) as [_ Hall].
  destruct (Hall k c (get_In_keys _ _ _ G) G) as (c1 & G1 & Post).
  pose proof G as G'. rewrite <- (get_key _ _ _ G1) in G'.
  destruct (Post c G') as (_ & B1 & _).
  destruct (passTwo_related P same_boundary same_boundary_refl same_boundary_trans
              (keys L) L1 L2 k c1) as (c2 & G2 & _ & B2); auto.
  { intros x S x' E. destruct (stepTwo_same_shape _ _ _ _ E) as (? & _ & ? & _).
    split; auto. }
  destruct (passThree_related P same_boundary same_boundary_refl same_boundary_trans
              rnd (keys L) L2 L' k c2) as (c3 & G3 & _ & B3); auto.
  { intros u x. destruct (stepThree_same_marks P u x) as (? & ? & _). split; auto. }
  exists c3. split; auto. congruence.
Qed.

(* a cell with no attached neighbour, itself unattached, is idle in the
   step: it does not attach and freezes nothing *)
Lemma step_idle rnd L L' k c :
  step P rnd L = Ok L' -> get L k = Some c -> attached c = false ->
  (forall n, In n (neighbors c L) -> attached n = false) ->
  exists c', get L' k = Some c' /\ attached c' = false /\ boundary c' = false /\
             boundaryMass c' = boundaryMass c /\ crystalMass c' = crystalMass c.
Proof.
  intros H G A Hn. apply step_inv in H as (L1 & L2 & H1 & H2 & H3).
  destruct (passOne_result _ _ _ H1) as [_ Hall].
  destruct (Hall k c (get_In_keys _ _ _ G) G) as (c1 & G1 & Post).
  pose proof G as G'. rewrite <- (get_key _ _ _ G1) in G'.
  destruct (Post c G') as ((_ & A1 & _ & M1 & C1 & _) & B1 & _).
  assert (E : existsb attached (neighbors c L) = false).
  { destruct (existsb attached (neighbors c L)) eqn:E; auto.
    apply existsb_exists in E as (n & Hin & An). rewrite (Hn n Hin) in An. discriminate. }
  rewrite E, andb_false_r in B1.
  destruct (passTwo_related P keeps_idle keeps_idle_refl keeps_idle_trans
              (keys L) L1 L2 k c1) as (c2 & G2 & _ & K2); auto.
  { apply stepTwo_keeps_idle. }
  destruct (K2 B1) as (B2 & A2 & M2 & C2).
  destruct (passThree_related P keeps_idle keeps_idle_refl keeps_idle_trans
              rnd (keys L) L2 L' k c2) as (c3 & G3 & _ & K3); auto.
  { apply stepThree_keeps_idle. }
  destruct (K3 B2) as (B3 & A3 & M3 & C3).
  exists c3. repeat split; congruence.
Qed.

Lemma construct_front sz L : construct P sz = Ok L -> front 0 L.
Proof.
  intros H k c G D. rewrite (construct_get P sz L k H) in G.
  destruct (hexDistance k <=? sz)%Z; try discriminate. injection G as <-.
  unfold initialCell. destruct (key_eqb k (0, 0)%Z) eqn:E.
  - apply key_eqb_eq in E. subst k. discriminate.
  - repeat split.
Qed.

Lemma step_front rnd n L L' :
  front n L -> step P rnd L = Ok L' -> front (n + 1) L'.
Proof.
  intros F H k c' G' D.
  assert (Hk : In k (keys L)).
  { rewrite step_stepWith in H.
    destruct (stepWith_keys _ _ _ _ _ _ _ H) as [K _]. rewrite <- K.
    eapply get_In_keys; eauto. }
  destruct (In_keys_get _ _ Hk) as [c G].
  destruct (F k c G) as (A & B & M & C); [lia|].
  destruct (step_idle rnd L L' k c H G A) as (c'' & G'' & A' & B' & M' & C').
  - intros n0 Hn. apply neighbors_spec in Hn as [Gn Dn].
    rewrite (get_key _ _ _ G) in Dn.
    pose proof (hexDistance_step _ _ Dn).
    destruct (F (key n0) n0 Gn) as (An & _); [lia|]. exact An.
  - assert (c'' = c') by congruence. subst c''.
    repeat split; congruence.
Qed.

Lemma steps_front rnds : forall n L L',
  front n L -> steps P rnds L = Ok L' -> front (n + Z.of_nat (length rnds)) L'.
Proof.
  induction rnds as [|rnd rnds IH]; simpl length; intros n L L' F H.
  - simpl in H. injection H as <-. rewrite Z.add_0_r. exact F.
  - simpl in H. destruct (step P rnd L) as [L1| |] eqn:E; try discriminate.
    cbn [bind] in H.
    replace (n + Z.of_nat (S (length rnds)))%Z
      with ((n + 1) + Z.of_nat (length rnds))%Z by lia.
    eapply IH; eauto. eapply step_front; eauto.
Qed.

(** X8. The crystal grows by at most one ring per step: after [n]
    steps from construction every cell farther than [n] from the origin
    is unattached, is not a boundary cell, and has boundaryMass 0 and
    crystalMass 0. *)
Theorem growth_front (sz : Z) (L0 L : CrystalLattice) (rnds : list Noise)
        (k : Key) (c : SnowflakeCell) :
  construct P sz = Ok L0 -> steps P rnds L0 = Ok L -> get L k = Some c ->
  (Z.of_nat (length rnds) < hexDistance k)%Z ->
  pristine c.
Proof.
  intros H0 H G D.
  apply (steps_front rnds 0 L0 L (construct_front _ _ H0) H k c G). lia.
Qed.

End Front.

Section Growth.

Variable P : Params.

Lemma steps_wf rnds : forall L L', wf L -> steps P rnds L = Ok L' -> wf L'.
Proof.
  induction rnds as [|rnd rnds IH]; simpl; intros L L' W H.
  - injection H as <-. exact W.
  - destruct (step P rnd L) as [L1| |] eqn:E; try discriminate. cbn [bind] in H.
    apply (IH L1 L'); auto. apply (step_wf P rnd L L1); auto.
Qed.

(** X9. After [n] steps from construction every cell returned by
    attachedCells() or boundaryCells() lies within distance [n] of the
    origin. *)
Theorem drawn_cells_within_radius (sz : Z) (L0 L : CrystalLattice)
        (rnds : list Noise) (c : SnowflakeCell) :
  construct P sz = Ok L0 -> steps P rnds L0 = Ok L ->
  In c (fst (attachedCells L)) \/ In c (fst (boundaryCells L)) ->
  (hexDistance (key c) <= Z.of_nat (length rnds))%Z.
Proof.
  intros H0 H Hc.
  assert (W : wf L).
  { apply (steps_wf rnds L0 L); auto. apply (construct_wf P sz); auto. }
  assert (Hin : In c (cells L) /\ (attached c = true \/ boundary c = true)).
  { destruct Hc as [Hc|Hc].
    - apply attachedCells_spec in Hc as [? ?]. auto.
    - apply boundaryCells_spec in Hc as (? & ? & ?). auto. }
  destruct Hin as [Hin Hflag].
  destruct (Z_le_gt_dec (hexDistance (key c)) (Z.of_nat (length rnds))) as [|D]; auto.
  exfalso.
  destruct (steps_front P rnds 0 L0 L (construct_front P _ _ H0) H (key c) c)
    as (A & B & _).
  - apply wf_get; auto.
  - lia.
  - destruct Hflag; congruence.
Qed.

(** X7. After the first step() on a constructed lattice the cells with
    boundary == true are exactly the cells at distance one from the
    origin, for every radius, parameter set and noise. *)
Theorem first_step_boundary_ring (sz : Z) (L0 L1 : CrystalLattice) (rnd : Noise)
        (k : Key) (c : SnowflakeCell) :
  construct P sz = Ok L0 -> step P rnd L0 = Ok L1 -> get L1 k = Some c ->
  (boundary c = true <-> hexDistance k = 1%Z).
Proof.
  intros H0 H G.
  assert (Hk : In k (keys L0)).
  { rewrite step_stepWith in H.
    destruct (stepWith_keys _ _ _ _ _ _ _ H) as [K _]. rewrite <- K.
    eapply get_In_keys; eauto. }
  destruct (In_keys_get _ _ Hk) as [c0 G0].
  destruct (step_boundary_flag P rnd L0 L1 k c0 H G0) as (c' & G' & B).
  assert (c' = c) by congruence. subst c'. rewrite B. clear B.
  pose proof G0 as I0. rewrite (construct_get P sz L0 k H0) in I0.
  destruct (hexDistance k <=? sz)%Z eqn:D; try discriminate.
  apply Z.leb_le in D. injection I0 as I0.
  rewrite andb_true_iff, negb_true_iff, existsb_exists.
  assert (Hoff : hexDistance (offset k (0, 0)%Z) = hexDistance k).
  { destruct k as [a b]. unfold offset; cbn [fst snd].
    rewrite !Z.sub_0_l. apply hexDistance_opp. }
  split.
  - intros (_ & n & Hn & An).
    apply neighbors_spec in Hn as [Gn Dn]. rewrite (get_key _ _ _ G0) in Dn.
    pose proof Gn as In0. rewrite (construct_get P sz L0 _ H0) in In0.
    destruct (hexDistance (key n) <=? sz)%Z; try discriminate. injection In0 as In0.
    unfold initialCell in In0.
    destruct (key_eqb (key n) (0, 0)%Z) eqn:E;
      [|rewrite <- In0 in An; discriminate].
    apply key_eqb_eq in E. rewrite E in Dn. congruence.
  - intros D1. split.
    + rewrite <- I0. unfold initialCell.
      destruct (key_eqb k (0, 0)%Z) eqn:E; auto.
      apply key_eqb_eq in E. subst k. discriminate.
    + exists (initialCell P (0, 0)%Z). split; [|reflexivity].
      apply neighbors_spec. change (key (initialCell P (0, 0)%Z)) with (0, 0)%Z.
      rewrite (get_key _ _ _ G0), Hoff. split; auto.
      rewrite (construct_get P sz L0 _ H0).
      change (hexDistance (0, 0)%Z) with 0%Z.
      destruct (0 <=? sz)%Z eqn:E; auto. apply Z.leb_gt in E. lia.
Qed.

(** *** Attached cells hold no boundary mass *)

Lemma all_settled_after_passOne o L L1 :
  passOne o L = Ok L1 -> (forall k, In k (keys L) -> In k o) ->
  forall k c1, get L1 k = Some c1 -> attached c1 = true -> boundary c1 = false.
Proof.
  intros H Ho k c1 G1.
  destruct (passOne_invariant (fun _ => True)
              (fun x => attached x = true -> boundary x = false) o L L1) as [_ Hall]; auto.
  { intros S c _ _. split; auto. intros A.
    rewrite stepOne_boundary.
    destruct (stepOne_same_matter c S) as (_ & A' & _). rewrite A', A. reflexivity. }
  pose proof (get_In_keys _ _ _ G1) as Hk.
  destruct (pass_keys _ _ _ _ H) as [K _]. rewrite K in Hk.
  destruct (In_keys_get _ _ Hk) as [c G].
  destruct (Hall k c (Ho _ Hk) G) as (c' & G' & R').
  assert (c' = c1) by congruence. subst c'. exact R'.
Qed.

Lemma keeps_drained_refl c : keeps_drained c c.
Proof. split; auto. Qed.

Lemma keeps_drained_trans a b c :
  keeps_drained a b -> keeps_drained b c -> keeps_drained a c.
Proof.
  intros [K1 H1] [K2 H2]. split; [congruence|]. intros Ha Da.
  destruct (H1 Ha Da) as [Hb Db]. auto.
Qed.

Lemma stepTwo_keeps_drained c L c' : stepTwo P c L = Ok c' -> keeps_drained c c'.
Proof.
  intros H. split; [symmetry; eapply stepTwo_key; eauto|]. revert H.
  unfold drained.
  cell_cases c; intros H Hb Hd; try discriminate; injection H as <-; cell_simpl;
    split; auto; try (intros X; discriminate X);
    try (exfalso; specialize (Hb eq_refl); discriminate).
Qed.

Lemma drains_refl c : drains c c.
Proof. split; auto. Qed.

Lemma drains_trans a b c : drains a b -> drains b c -> drains a c.
Proof. intros [K1 H1] [K2 H2]. split; [congruence | auto]. Qed.

Lemma stepThree_drains u c : drains c (stepThree P u c).
Proof.
  split; [symmetry; apply stepThree_key|]. unfold drained.
  cell_cases c; intros Hd; auto; intros X; try discriminate X; auto.
Qed.

Lemma step_drained rnd L L' :
  (forall k c, get L k = Some c -> drained c) -> step P rnd L = Ok L' ->
  forall k c', get L' k = Some c' -> drained c'.
Proof.
  intros HL H k c' G'.
  assert (Hk : In k (keys L)).
  { rewrite step_stepWith in H.
    destruct (stepWith_keys _ _ _ _ _ _ _ H) as [K _]. rewrite <- K.
    eapply get_In_keys; eauto. }
  destruct (In_keys_get _ _ Hk) as [c G].
  apply step_inv in H as (L1 & L2 & H1 & H2 & H3).
  destruct (passOne_related same_matter same_matter_refl same_matter_trans
              _ _ _ _ _ stepOne_same_matter H1 G) as (c1 & G1 & M1).
  pose proof (all_settled_after_passOne _ _ _ H1 (fun _ X => X) k c1 G1) as S1.
  assert (D1 : drained c1).
  { destruct M1 as (_ & A & _ & B & _). unfold drained. rewrite <- A, <- B.
    apply (HL k c G). }
  destruct (passTwo_related P keeps_drained keeps_drained_refl keeps_drained_trans
              _ _ _ _ _ stepTwo_keeps_drained H2 G1) as (c2 & G2 & _ & K2).
  destruct (K2 S1 D1) as [S2 D2].
  destruct (passThree_related P drains drains_refl drains_trans
              _ _ _ _ _ _ stepThree_drains H3 G2) as (c3 & G3 & _ & K3).
  assert (c3 = c') by congruence. subst c3. auto.
Qed.

(** X10. In every lattice reached from construction an attached cell
    has boundaryMass 0: attach() has moved it all into crystalMass. *)
Theorem attached_cells_hold_no_boundary_mass (sz : Z) (L0 L : CrystalLattice)
        (rnds : list Noise) (k : Key) (c : SnowflakeCell) :
  construct P sz = Ok L0 -> steps P rnds L0 = Ok L ->
  get L k = Some c -> attached c = true -> boundaryMass c = 0.
Proof.
  intros H0 H G.
  assert (D0 : forall k c, get L0 k = Some c -> drained c).
  { intros k0 c0 G0 _. rewrite (construct_get P sz L0 k0 H0) in G0.
    destruct (hexDistance k0 <=? sz)%Z; try discriminate. injection G0 as <-.
    unfold initialCell. destruct (key_eqb k0 (0, 0)%Z); reflexivity. }
  clear H0. revert L0 H D0 k c G.
  induction rnds as [|rnd rnds IH]; simpl; intros L0 H D0 k c G.
  - injection H as <-. apply (D0 k c G).
  - destruct (step P rnd L0) as [L1| |] eqn:E; try discriminate. cbn [bind] in H.
    apply (IH L1 H (step_drained rnd L0 L1 D0 E) k c G).
Qed.

End Growth.

Section Ages.

Variable P : Params.

Lemma stepOne_age c L :
  age (stepOne c L) = if attached c then age c else (age c + 1)%Z.
Proof. cell_cases c; reflexivity. Qed.

Lemma ages_refl c : ages c c.
Proof. repeat split; auto. Qed.

Lemma ages_trans a b c : ages a b -> ages b c -> ages a c.
Proof. intros (?&?&?) (?&?&?). repeat split; try congruence; auto. Qed.

Lemma stepTwo_ages c L c' : stepTwo P c L = Ok c' -> ages c c'.
Proof.
  cell_cases c; intros H; try discriminate; injection H as <-; repeat split; auto.
Qed.

Lemma stepThree_ages u c : ages c (stepThree P u c).
Proof. cell_cases c; repeat split; auto. Qed.

(* one step adds one to the age of a cell that began it unattached *)
Lemma step_age rnd L L' k c :
  wf L -> step P rnd L = Ok L' -> get L k = Some c ->
  exists c', get L' k = Some c' /\
    age c' = (if attached c then age c else (age c + 1)%Z) /\
    (attached c = true -> attached c' = true).
Proof.
  intros W H G. apply step_inv in H as (L1 & L2 & H1 & H2 & H3).
  rewrite (passOne_sync L (keys L) W W) in H1. injection H1 as <-.
  assert (G1 : get (sync (fun c => stepOne c L) (keys L) L) k = Some (stepOne c L)).
  { rewrite get_sync by (intros; apply stepOne_key).
    rewrite (proj2 (mem_In k (keys L)) (get_In_keys _ _ _ G)), G. reflexivity. }
  destruct (passTwo_related P ages ages_refl ages_trans
              _ _ _ _ _ stepTwo_ages H2 G1) as (c2 & G2 & _ & A2 & T2).
  destruct (passThree_related P ages ages_refl ages_trans
              _ _ _ _ _ _ stepThree_ages H3 G2) as (c3 & G3 & _ & A3 & T3).
  exists c3. split; auto. split.
  - rewrite <- A3, <- A2. apply stepOne_age.
  - intros A. apply T3, T2.
    destruct (stepOne_same_matter c L) as (_ & A' & _). congruence.
Qed.

Lemma steps_ages rnds : forall n L0 L, wf L0 ->
  (forall k c, get L0 k = Some c ->
     (0 <= age c <= n)%Z /\ (attached c = false -> age c = n)) ->
  steps P rnds L0 = Ok L ->
  forall k c, get L k = Some c ->
     (0 <= age c <= n + Z.of_nat (length rnds))%Z /\
     (attached c = false -> age c = (n + Z.of_nat (length rnds))%Z).
Proof.
  induction rnds as [|rnd rnds IH]; simpl length; intros n L0 L W I H k c G.
  - simpl in H. injection H as <-. change (Z.of_nat 0) with 0%Z.
    rewrite Z.add_0_r. apply (I k c G).
  - simpl in H. destruct (step P rnd L0) as [L1| |] eqn:E; try discriminate.
    cbn [bind] in H.
    replace (n + Z.of_nat (S (length rnds)))%Z
      with ((n + 1) + Z.of_nat (length rnds))%Z by lia.
    apply (IH (n + 1)%Z L1 L) with (k := k); auto.
    + apply (step_wf P rnd L0 L1); auto.
    + intros k1 c1 G1.
      assert (Hk : In k1 (keys L0)).
      { pose proof E as E'. rewrite step_stepWith in E'.
        destruct (stepWith_keys _ _ _ _ _ _ _ E') as [K _]. rewrite <- K.
        eapply get_In_keys; eauto. }
      destruct (In_keys_get _ _ Hk) as [c0 G0].
      destruct (step_age rnd L0 L1 k1 c0 W E G0) as (c1' & G1' & A & T).
      assert (c1' = c1) by congruence. subst c1'.
      destruct (I k1 c0 G0) as (B & U).
      destruct (attached c0) eqn:A0.
      * split; [lia|]. intros X. rewrite (T eq_refl) in X. discriminate.
      * specialize (U eq_refl). split; lia.
Qed.

(** X12. After [n] steps from construction the age of a cell that is
    still unattached is [n], and the age of every cell is between 0 and
    [n]: age counts the steps the cell began unattached. *)
Theorem age_counts_unattached_steps (sz : Z) (L0 L : CrystalLattice)
        (rnds : list Noise) (k : Key) (c : SnowflakeCell) :
  construct P sz = Ok L0 -> steps P rnds L0 = Ok L -> get L k = Some c ->
  (0 <= age c <= Z.of_nat (length rnds))%Z /\
  (attached c = false -> age c = Z.of_nat (length rnds)).
Proof.
  intros H0 H G.
  apply (steps_ages rnds 0%Z L0 L (construct_wf P sz L0 H0)) with (k := k); auto.
  intros k0 c0 G0. rewrite (construct_get P sz L0 k0 H0) in G0.
  destruct (hexDistance k0 <=? sz)%Z; try discriminate. injection G0 as <-.
  unfold initialCell. destruct (key_eqb k0 (0, 0)%Z) eqn:E; simpl; split; auto; lia.
Qed.

End Ages.

(** ** Diffusion and noise *)

Lemma Qsum_bounds (l : list Q) (lo hi : Q) :
  (forall x, In x l -> lo <= x /\ x <= hi) ->
  inject_Z (Z.of_nat (length l)) * lo <= Qsum l /\
  Qsum l <= inject_Z (Z.of_nat (length l)) * hi.
Proof.
  induction l as [|x l IH]; intros H.
  - simpl. change (inject_Z 0) with 0. split; lra.
  - destruct IH as [I1 I2]; [intros y Hy; apply H; right; auto|].
    destruct (H x (or_introl eq_refl)) as [X1 X2].
    change (Qsum (x :: l)) with (x + Qsum l).
    replace (length (x :: l)) with (S (length l)) by reflexivity.
    rewrite Nat2Z.inj_succ. unfold Z.succ. rewrite inject_Z_plus.
    change (inject_Z 1) with 1. split; lra.
Qed.

(** X13. Read over exact arithmetic, the candidate computed by
    diffusionCalc for an unattached cell lies between any two bounds
    that hold for the diffusive mass of the cell and of its unattached
    neighbours: averaging creates no new extreme.  On doubles the
    rounded average can fall below the minimum
    ([Binary64Facts.diffusion_rounds_below_the_minimum]). *)
Theorem diffusion_stays_in_range (c : SnowflakeCell) (L : CrystalLattice) (lo hi : Q) :
  attached c = false ->
  lo <= diffusiveMass c /\ diffusiveMass c <= hi ->
  (forall n, In n (neighbors c L) -> attached n = false ->
             lo <= diffusiveMass n /\ diffusiveMass n <= hi) ->
  lo <= snd (diffusionCalc c L) /\ snd (diffusionCalc c L) <= hi.
Proof.
  intros A [C1 C2] Hn.
  rewrite (diffusionCalc_spec c L A). unfold next_dm_spec.
  destruct (Qsum_bounds (map (contribution c) (neighbors c L)) lo hi) as [S1 S2].
  { intros x Hx. apply in_map_iff in Hx as (n & <- & Hin).
    unfold contribution. destruct (attached n) eqn:An; auto. }
  rewrite length_map in S1, S2.
  set (m := length (neighbors c L)) in *.
  assert (Hm : 0 < inject_Z (Z.of_nat m + 1)) by (unfold Qlt; simpl; lia).
  assert (Em : inject_Z (Z.of_nat m + 1) == inject_Z (Z.of_nat m) + 1)
    by (rewrite inject_Z_plus; reflexivity).
  split.
  - apply Qle_shift_div_l; auto. rewrite Em. lra.
  - apply Qle_shift_div_r; auto. rewrite Em. lra.
Qed.

(** X14. Read over exact arithmetic, for a draw in [0, 1] and
    sigma >= 0 the noise step moves a non-negative diffusive mass by at
    most sigma and never below 0; it changes no other field, and leaves
    an attached cell as it is.  On doubles the rounded sum can move the
    mass by more than sigma
    ([Binary64Facts.noise_rounds_above_sigma]). *)
Theorem noise_is_bounded (P : Params) (u : Q) (c : SnowflakeCell) :
  0 <= u /\ u <= 1 -> 0 <= sigma P -> 0 <= diffusiveMass c ->
  0 <= diffusiveMass (noiseStep P u c) /\
  diffusiveMass c - sigma P <= diffusiveMass (noiseStep P u c) /\
  diffusiveMass (noiseStep P u c) <= diffusiveMass c + sigma P /\
  noiseStep P u c = set_diffusiveMass (diffusiveMass (noiseStep P u c)) c /\
  (attached c = true -> noiseStep P u c = c).
Proof.
  intros [U0 U1] S D.
  assert (N1 : (u - (1 # 2)) * sigma P * 2 <= sigma P).
  { pose proof (Qmult_le_0_compat (sigma P) (1 - u)). lra. }
  assert (N2 : - sigma P <= (u - (1 # 2)) * sigma P * 2).
  { pose proof (Qmult_le_0_compat (sigma P) u). lra. }
  unfold noiseStep. destruct (attached c) eqn:A; cell_simpl.
  - repeat split; auto; try lra. destruct c; simpl in *; subst; reflexivity.
  - unfold Math_max.
    destruct (Qle_bool 0 (diffusiveMass c + (u - (1 # 2)) * sigma P * 2)) eqn:E.
    + apply Qle_bool_iff in E. repeat split; try lra; try discriminate.
    + assert (~ 0 <= diffusiveMass c + (u - (1 # 2)) * sigma P * 2).
      { intros X. apply Qle_bool_iff in X. congruence. }
      repeat split; try lra; try discriminate.
Qed.

(** X15. Read over exact arithmetic, Pass 2 conserves the mass of a
    cell: after stepTwo the three masses add up to the committed
    candidate plus the boundary mass and crystal mass held before,
    whether or not the cell is a boundary cell.  On doubles the total
    can change in its last bits
    ([Binary64Facts.stepTwo_rounds_the_total]). *)
Theorem stepTwo_mass_balance (P : Params) (c c' : SnowflakeCell)
        (L : CrystalLattice) (v : Q) :
  stepTwo P c L = Ok c' -> _next_dm c = Some v ->
  totalMass c' == v + boundaryMass c + crystalMass c.
Proof.
  unfold totalMass.
  cell_cases c; intros H N; try discriminate; injection H as <-; injection N as <-;
    cell_simpl; ring.
Qed.

(** ** step() as a whole *)

Lemma steps_keys P rnds : forall L L',
  steps P rnds L = Ok L' -> keys L' = keys L /\ size L' = size L.
Proof.
  induction rnds as [|rnd rnds IH]; simpl; intros L L' H.
  - injection H as <-. auto.
  - destruct (step P rnd L) as [L1| |] eqn:E; try discriminate. cbn [bind] in H.
    destruct (IH _ _ H) as [K S]. rewrite step_stepWith in E.
    destruct (stepWith_keys _ _ _ _ _ _ _ E) as [K1 S1]. split; congruence.
Qed.

(** X16. step() completes from every lattice state, any number of
    times: stepTwo reads _next_dm and attachmentStep reads
    attachedNeighbors only after stepOne of the same step has assigned
    them. *)
Theorem steps_never_raise (P : Params) (rnds : list Noise) (L : CrystalLattice) :
  raises (steps P rnds L) = false.
Proof. destruct (steps_total P rnds L) as [L' ->]. reflexivity. Qed.

(** X17. Stepping never adds, removes or reorders cells and never
    changes the radius. *)
Theorem steps_keep_the_cell_set (P : Params) (rnds : list Noise)
        (L L' : CrystalLattice) :
  steps P rnds L = Ok L' ->
  keys L' = keys L /\ size L' = size L /\ length (cells L') = length (cells L).
Proof.
  intros H. destruct (steps_keys P rnds L L' H) as [K S]. repeat split; auto.
  unfold keys in K. rewrite <- (length_map key (cells L')), K. apply length_map.
Qed.

(** ** The number of cells *)

Lemma zrange_length lo hi : length (zrange lo hi) = Z.to_nat (hi - lo + 1).
Proof. unfold zrange. rewrite length_map, length_seq. reflexivity. Qed.

Lemma NoDup_map_inj {A B} (f : A -> B) (l : list A) :
  (forall x y, f x = f y -> x = y) -> NoDup l -> NoDup (map f l).
Proof.
  intros Hf. induction 1 as [|x l Hx Hl IH]; simpl; constructor; auto.
  intros Hin. apply in_map_iff in Hin as (y & E & Hy).
  apply Hf in E. subst y. contradiction.
Qed.

Lemma zrange_NoDup lo hi : NoDup (zrange lo hi).
Proof.
  unfold zrange. apply NoDup_map_inj.
  - intros i j H. lia.
  - apply seq_NoDup.
Qed.

Lemma regionKeys_In sz k : In k (regionKeys sz) <-> (hexDistance k <= sz)%Z.
Proof.
  unfold regionKeys. rewrite in_flat_map. destruct k as [a b]. split.
  - intros (q0 & Hq & Hr). apply in_map_iff in Hr as (r0 & E & Hr).
    injection E as -> ->. apply zrange_In in Hq, Hr.
    unfold hexDistance; cbn [fst snd]. lia.
  - intros H. unfold hexDistance in H; cbn [fst snd] in H.
    exists a. split.
    + apply In_zrange. lia.
    + apply in_map, In_zrange. lia.
Qed.

Lemma NoDup_flat_map_rows {A B} (f : A -> list B) (l : list A) :
  NoDup l -> (forall x, In x l -> NoDup (f x)) ->
  (forall x y z, In x l -> In y l -> In z (f x) -> In z (f y) -> x = y) ->
  NoDup (flat_map f l).
Proof.
  induction l as [|x l IH]; simpl; intros N Hf Hd; [constructor|].
  inversion N as [|? ? Hx Hl]; subst.
  apply NoDup_app.
  - apply Hf; auto.
  - apply IH; auto. intros a b z Ha Hb. apply Hd; auto.
  - intros z Hz Hz'. apply in_flat_map in Hz' as (y & Hy & Hzy).
    assert (x = y) by (apply (Hd x y z); auto). subst y. contradiction.
Qed.

Lemma regionKeys_NoDup sz : NoDup (regionKeys sz).
Proof.
  unfold regionKeys. apply NoDup_flat_map_rows.
  - apply zrange_NoDup.
  - intros q0 _. apply NoDup_map_inj; [|apply zrange_NoDup].
    intros x y H. injection H; auto.
  - intros x y z _ _ Hx Hy.
    apply in_map_iff in Hx as (r1 & <- & _).
    apply in_map_iff in Hy as (r2 & E & _). injection E; auto.
Qed.

Lemma Zsum_app l l' : Zsum (l ++ l') = (Zsum l + Zsum l')%Z.
Proof. induction l; simpl; lia. Qed.

Lemma flat_map_length_Zsum {A B} (f : A -> list B) (l : list A) :
  Z.of_nat (length (flat_map f l)) = Zsum (map (fun x => Z.of_nat (length (f x))) l).
Proof.
  induction l as [|x l IH]; simpl; auto.
  rewrite length_app, Nat2Z.inj_add, IH. reflexivity.
Qed.

(* twice the sum of an arithmetic progression *)
Lemma Zsum_progression (a s : Z) (m : nat) :
  (2 * Zsum (map (fun i => a + s * Z.of_nat i) (seq 0 m))
   = Z.of_nat m * (2 * a + s * (Z.of_nat m - 1)))%Z.
Proof.
  induction m as [|m IH].
  - reflexivity.
  - rewrite seq_S, map_app, Zsum_app. simpl plus. simpl map. simpl Zsum.
    rewrite Nat2Z.inj_succ. nia.
Qed.

Lemma map_seq_from {A} (f : nat -> A) (len : nat) : forall a,
  map f (seq a len) = map (fun j => f (a + j)%nat) (seq 0 len).
Proof.
  induction len as [|len IH]; intros a; simpl; auto.
  rewrite Nat.add_0_r. f_equal.
  rewrite (IH (S a)), <- seq_shift, map_map. apply map_ext. intros j. f_equal. lia.
Qed.

Lemma regionKeys_length (n : nat) :
  Z.of_nat (length (regionKeys (Z.of_nat n)))
  = (3 * Z.of_nat n * Z.of_nat n + 3 * Z.of_nat n + 1)%Z.
Proof.
  unfold regionKeys. rewrite flat_map_length_Zsum.
  set (N := Z.of_nat n).
  unfold zrange at 2.
  replace (Z.to_nat (N - - N + 1)) with (n + S n)%nat by lia.
  rewrite map_map, seq_app, map_app, Zsum_app. simpl plus.
  rewrite (map_seq_from _ (S n) n).
  erewrite (map_ext_in _ (fun i => (N + 1) + 1 * Z.of_nat i)%Z (seq 0 n)).
  2:{ intros i Hi. apply in_seq in Hi. rewrite length_map, zrange_length. lia. }
  erewrite (map_ext_in _ (fun j => (2 * N + 1) + (-1) * Z.of_nat j)%Z (seq 0 (S n))).
  2:{ intros j Hj. apply in_seq in Hj. rewrite length_map, zrange_length. lia. }
  pose proof (Zsum_progression (N + 1) 1 n) as S1.
  pose proof (Zsum_progression (2 * N + 1) (-1) (S n)) as S2.
  rewrite Nat2Z.inj_succ in S2. fold N in S1, S2. nia.
Qed.

Lemma construct_ok_nonneg P sz L : construct P sz = Ok L -> (0 <= sz)%Z.
Proof.
  intros H. destruct (Z_lt_le_dec sz 0) as [N|]; auto.
  unfold construct, fill in H. rewrite zrange_empty in H by lia. discriminate.
Qed.

(** X2. A constructed lattice of radius [sz] holds
    3 sz^2 + 3 sz + 1 cells. *)
Theorem constructed_cell_count (P : Params) (sz : Z) (L : CrystalLattice) :
  construct P sz = Ok L ->
  Z.of_nat (length (cells L)) = (3 * sz * sz + 3 * sz + 1)%Z.
Proof.
  intros H. pose proof (construct_ok_nonneg P sz L H) as Hsz.
  assert (Hin : forall k, In k (keys L) <-> In k (regionKeys sz)).
  { intros k. rewrite regionKeys_In. split.
    - intros Hk. apply In_keys_get in Hk as [c G].
      rewrite (construct_get P sz L k H) in G.
      destruct (hexDistance k <=? sz)%Z eqn:E; try discriminate.
      apply Z.leb_le; auto.
    - intros D. apply Z.leb_le in D.
      pose proof (construct_get P sz L k H) as G. rewrite D in G.
      eapply get_In_keys; eauto. }
  assert (E : length (keys L) = length (regionKeys sz)).
  { apply Nat.le_antisymm; apply NoDup_incl_length.
    - apply (construct_wf P sz L H).
    - intros k. apply Hin.
    - apply regionKeys_NoDup.
    - intros k. apply Hin. }
  unfold keys in E. rewrite length_map in E. rewrite E.
  rewrite <- (Z2Nat.id sz Hsz). apply regionKeys_length.
Qed.

(** ** The controller *)

Section Controller.

Variable P : Params.

Lemma construct_nonneg_ok sz : (0 <= sz)%Z -> exists L, construct P sz = Ok L /\ size L = sz.
Proof.
  intros H. unfold construct.
  destruct (has_key_get (mkLattice sz (fill P sz)) (0, 0)%Z) as [c ->].
  - apply fill_has_key; simpl; lia.
  - eexists; split; reflexivity.
Qed.

Lemma construct_negative sz : (sz < 0)%Z -> construct P sz = TypeError.
Proof.
  intros H. unfold construct, fill. rewrite zrange_empty by lia. reflexivity.
Qed.

Lemma Qfloor_half_nonneg g : 0 <= g -> (0 <= Qfloor (g / 2))%Z.
Proof.
  intros H. change 0%Z with (Qfloor 0). apply Qfloor_resp_le.
  apply Qle_shift_div_l; lra.
Qed.

Lemma Qfloor_half_negative g : g < 0 -> (Qfloor (g / 2) < 0)%Z.
Proof.
  intros H. pose proof (Qfloor_le (g / 2)) as F.
  assert (X : g / 2 < 0) by (apply Qlt_shift_div_r; lra).
  assert (Y : inject_Z (Qfloor (g / 2)) < inject_Z 0).
  { eapply Qle_lt_trans; [exact F | exact X]. }
  rewrite <- Zlt_Qlt in Y. exact Y.
Qed.

Lemma minDouble_positive : 0 < minDouble.
Proof. reflexivity. Qed.


Lemma steps_app rnds1 rnds2 L :
  steps P (rnds1 ++ rnds2) L = (L1 <- steps P rnds1 L ;; steps P rnds2 L1).
Proof.
  revert L. induction rnds1 as [|rnd rnds1 IH]; simpl; intros L; auto.
  destruct (step P rnd L); simpl; auto.
Qed.

Lemma stepLoop_steps rnds n : forall i s L,
  lattice s = Some L ->
  exists L', stepLoop P rnds n i s
             = (mkSimulation (Some L') (group s) (currentStep s + Z.of_nat n), Ok tt) /\
             steps P (map rnds (seq i n)) L = Ok L'.
Proof.
  induction n as [|n IH]; intros i s L Hs.
  - exists L. simpl. rewrite Z.add_0_r. destruct s; simpl in *; subst; auto.
  - cbn [stepLoop seq map steps]. rewrite Hs.
    destruct (step_total P (rnds i) L) as [L1 ->]. cbn [bind].
    destruct (IH (S i) (mkSimulation (Some L1) (group s) (currentStep s + 1)) L1 eq_refl)
      as (L' & E & St).
    exists L'. rewrite E, St. cbn [currentStep group]. split; auto.
    do 2 f_equal. lia.
Qed.

(* stepLattice() takes stepsPerFrame steps and counts them *)
Lemma stepLattice_steps (stepsPerFrame : Z) (rnds : nat -> Noise)
        (s : Simulation) (L : CrystalLattice) :
  lattice s = Some L -> group s = true ->
  exists L',
    stepLattice P stepsPerFrame rnds s
    = (mkSimulation (Some L') true (currentStep s + Z.max 0 stepsPerFrame), Ok tt) /\
    steps P (map rnds (seq 0 (Z.to_nat stepsPerFrame))) L = Ok L'.
Proof.
  intros Hs Hg. unfold stepLattice.
  destruct (stepLoop_steps rnds (Z.to_nat stepsPerFrame) 0 s L Hs) as (L' & E & St).
  exists L'. rewrite E, Hg. unfold redraw; cbn [group lattice]. split; auto.
  do 2 f_equal. lia.
Qed.

Lemma runFrames_steps frames : forall s L,
  lattice s = Some L -> group s = true ->
  exists L' rnds,
    runFrames P frames s
    = (mkSimulation (Some L') true (currentStep s + framesTotal frames), Ok tt) /\
    steps P rnds L = Ok L' /\ Z.of_nat (length rnds) = framesTotal frames.
Proof.
  induction frames as [|[n rnds] frames IH]; intros s L Hs Hg.
  - exists L, []. unfold framesTotal; simpl. rewrite Z.add_0_r.
    destruct s; simpl in *; subst; auto.
  - cbn [runFrames].
    destruct (stepLattice_steps n rnds s L Hs Hg) as (L1 & E & St). rewrite E.
    destruct (IH (mkSimulation (Some L1) true (currentStep s + Z.max 0 n)) L1
                 eq_refl eq_refl)
      as (L' & rest & E' & St' & Len).
    exists L', (map rnds (seq 0 (Z.to_nat n)) ++ rest).
    rewrite E'. cbn [currentStep]. split; [|split].
    + unfold framesTotal, Zsum. cbn [map fold_right fst]. do 2 f_equal. lia.
    + rewrite steps_app, St. exact St'.
    + rewrite length_app, length_map, length_seq, Nat2Z.inj_add, Len.
      unfold framesTotal, Zsum. cbn [map fold_right fst]. lia.
Qed.

(** X22. After a successful reset and any sequence of stepLattice()
    calls, none throws, currentStep is the number of steps taken, and
    every attached cell lies within that distance of the origin. *)
Theorem counter_bounds_the_crystal (gridSize : Q) (s0 s1 : Simulation)
        (frames : list (Z * (nat -> Noise))) :
  resetLattice P gridSize s0 = (s1, Ok tt) ->
  exists L,
    runFrames P frames s1
    = (mkSimulation (Some L) true (framesTotal frames), Ok tt) /\
    forall c, In c (fst (attachedCells L)) ->
              (hexDistance (key c) <= framesTotal frames)%Z.
Proof.
  unfold resetLattice.
  destruct (construct P (Qfloor (gridSize / 2))) as [L0| |] eqn:E0;
    intros H; try discriminate. injection H as <-.
  destruct (runFrames_steps frames (mkSimulation (Some L0) true 0) L0 eq_refl eq_refl)
    as (L & rnds & E & St & Len).
  exists L. cbn [currentStep] in E. rewrite Z.add_0_l in E. split; auto.
  intros c Hc. rewrite <- Len.
  destruct (Z_le_gt_dec (hexDistance (key c)) (Z.of_nat (length rnds))) as [|D]; auto.
  exfalso. apply attachedCells_spec in Hc as [Hin A].
  assert (W : wf L).
  { apply (steps_wf P rnds L0 L); auto. apply (construct_wf P _ _ E0). }
  destruct (steps_front P rnds 0 L0 L (construct_front P _ _ E0) St (key c) c)
    as (A' & _).
  - apply wf_get; auto.
  - lia.
  - congruence.
Qed.

End Controller.

(** ** Drawing *)

Module PixelFacts.

Import Reals Lra Pixel.
Local Open Scope R_scope.

Lemma sqrt3_sqr : sqrt 3 * sqrt 3 = 3.
Proof. apply sqrt_sqrt. lra. Qed.

(* the squared pixel distance between two cells *)
Lemma distance2_hexToPixel (q1 r1 q2 r2 : Z) (size : R) :
  distance2 (hexToPixel q1 r1 size) (hexToPixel q2 r2 size)
  = 3 * size * size *
    IZR ((q1 - q2) * (q1 - q2) + (q1 - q2) * (r1 - r2) + (r1 - r2) * (r1 - r2)).
Proof.
  unfold distance2, hexToPixel; cbn [fst snd].
  rewrite !plus_IZR, !mult_IZR, !minus_IZR.
  set (a := IZR q1). set (b := IZR r1). set (c := IZR q2). set (d := IZR r2).
  set (w := sqrt 3).
  replace ((size * w * (b + a / 2) - size * w * (d + c / 2)) *
           (size * w * (b + a / 2) - size * w * (d + c / 2)))
    with ((w * w) * (size * size * ((b + a / 2) - (d + c / 2)) * ((b + a / 2) - (d + c / 2))))
    by ring.
  unfold w. rewrite sqrt3_sqr. field.
Qed.

(* distinct cells are drawn at distinct places *)
Lemma hexToPixel_inj (q1 r1 q2 r2 : Z) (size : R) :
  size <> 0 -> hexToPixel q1 r1 size = hexToPixel q2 r2 size ->
  q1 = q2 /\ r1 = r2.
Proof.
  intros Hs E.
  pose proof (distance2_hexToPixel q1 r1 q2 r2 size) as D. rewrite E in D.
  unfold distance2 in D at 1. rewrite !Rminus_diag in D. rewrite !Rmult_0_l, Rplus_0_l in D.
  symmetry in D. apply Rmult_integral in D as [D|D].
  - exfalso. apply Rmult_integral in D as [D|D]; [|contradiction].
    apply Rmult_integral in D as [D|D]; [lra | contradiction].
  - apply eq_IZR_R0 in D.
    set (a := (q1 - q2)%Z) in *. set (b := (r1 - r2)%Z) in *.
    pose proof (Z.square_nonneg (2 * a + b)) as S1.
    pose proof (Z.square_nonneg b) as S2.
    assert (B : (b * b = 0)%Z) by nia.
    assert (A : (a * a = 0)%Z) by nia.
    apply Z.mul_eq_0 in A, B. unfold a, b in *. split; lia.
Qed.

(** X25. Over the reals, hexToPixel places every neighbour of a cell
    at the same distance from it, size * sqrt 3 (squared: 3 size^2).
    On doubles the six computed distances differ in their last bits
    ([Binary64Facts.neighbors_round_to_different_distances]). *)
Theorem neighbors_are_equidistant (c n : SnowflakeCell) (L : CrystalLattice) (size : R) :
  In n (neighbors c L) ->
  distance2 (hexToPixel (q n) (r n) size) (hexToPixel (q c) (r c) size)
  = 3 * size * size.
Proof.
  intros H. apply neighbors_spec in H as [_ D].
  rewrite distance2_hexToPixel.
  assert (X : In (offset (key c) (key n)) (combine HEX_DX HEX_DY)).
  { destruct (offset (key c) (key n)) as [a b] eqn:E. apply hexDistance_one. exact D. }
  unfold offset, key in X; cbn [fst snd] in X.
  replace ((q n - q c) * (q n - q c) + (q n - q c) * (r n - r c)
           + (r n - r c) * (r n - r c))%Z with 1%Z; [ring|].
  simpl in X.
  destruct X as [X|[X|[X|[X|[X|[X|[]]]]]]]; injection X as <- <-; reflexivity.
Qed.

Lemma NoDup_cells L : wf L -> NoDup (cells L).
Proof.
  unfold wf, keys. apply NoDup_map_inv.
Qed.

Lemma hexMesh_planePosition s z col c :
  planePosition (hexMesh s z col c) = hexToPixel (q c) (r c) s.
Proof. unfold planePosition, hexMesh, hexToPixel. reflexivity. Qed.

(** X26. On a lattice with one cell per coordinate drawLattice adds
    one hexagon per attached cell and one per unattached boundary cell;
    with the positions read over the reals and a scale other than 0, no
    two hexagons lie at the same place.  (On doubles a scale that makes
    the products overflow puts hexagons on one pixel:
    [Binary64Facts.hexToPixel_overflow_collides].) *)
Theorem drawLattice_draws_each_cell_once (canvasScale : R) (L : CrystalLattice) :
  wf L -> canvasScale <> 0 ->
  length (drawLattice canvasScale L)
  = (length (fst (attachedCells L)) + length (fst (boundaryCells L)))%nat /\
  NoDup (map planePosition (drawLattice canvasScale L)).
Proof.
  intros W Hs. unfold drawLattice. split.
  - rewrite length_app, !length_map. reflexivity.
  - assert (Inj : forall a b, In a (cells L) -> In b (cells L) ->
              hexToPixel (q a) (r a) canvasScale = hexToPixel (q b) (r b) canvasScale ->
              a = b).
    { intros a b Ha Hb E. apply hexToPixel_inj in E as [Eq Er]; auto.
      pose proof (wf_get L a W Ha) as Ga. pose proof (wf_get L b W Hb) as Gb.
      assert (K : key a = key b) by (unfold key; congruence).
      rewrite K in Ga. congruence. }
    assert (ND : forall (z : R) col (l : list SnowflakeCell),
              NoDup l -> incl l (cells L) ->
              NoDup (map planePosition (map (hexMesh canvasScale z col) l))).
    { intros z col l N. induction N as [|x l Hx Hl IH]; simpl; intros I; constructor.
      - intros Hin. rewrite map_map in Hin. apply in_map_iff in Hin as (y & E & Hy).
        rewrite !hexMesh_planePosition in E.
        apply Hx. rewrite (Inj x y); auto.
        + apply I. left; reflexivity.
        + apply I. right; auto.
      - apply IH. intros y Hy. apply I. right; auto. }
    rewrite map_app. apply NoDup_app.
    + apply ND.
      * unfold attachedCells; simpl. apply NoDup_filter, NoDup_cells; auto.
      * intros c Hc. apply attachedCells_spec in Hc. tauto.
    + apply ND.
      * unfold boundaryCells; simpl. apply NoDup_filter, NoDup_cells; auto.
      * intros c Hc. apply boundaryCells_spec in Hc. tauto.
    + intros p Ha Hb. rewrite map_map in Ha, Hb.
      apply in_map_iff in Ha as (a & Ea & Ha).
      apply in_map_iff in Hb as (b & Eb & Hb).
      rewrite hexMesh_planePosition in Ea, Eb.
      apply attachedCells_spec in Ha as [Ia Aa].
      apply boundaryCells_spec in Hb as (Ib & _ & Ab).
      assert (a = b) by (apply Inj; auto; congruence).
      subst b. congruence.
Qed.

(** X23. Over the reals, the squared distance between the pixels of
    two cells is 3 size^2 (dq^2 + dq dr + dr^2), with dq and dr the
    differences of their coordinates. *)
Theorem pixel_distance (q1 r1 q2 r2 : Z) (size : R) :
  distance2 (hexToPixel q1 r1 size) (hexToPixel q2 r2 size)
  = 3 * size * size *
    IZR ((q1 - q2) * (q1 - q2) + (q1 - q2) * (r1 - r2) + (r1 - r2) * (r1 - r2)).
Proof. apply distance2_hexToPixel. Qed.

(** X24. Over the reals and with a scale other than 0, hexToPixel
    maps different coordinates to different pixels.  (On doubles a
    scale that makes the products overflow does not:
    [Binary64Facts.hexToPixel_overflow_collides].) *)
Theorem hexToPixel_injective (q1 r1 q2 r2 : Z) (size : R) :
  size <> 0 -> hexToPixel q1 r1 size = hexToPixel q2 r2 size ->
  q1 = q2 /\ r1 = r2.
Proof. apply hexToPixel_inj. Qed.

End PixelFacts.

(** ** More on the three passes *)

Section Passes.

Variable P : Params.

(* an attached cell is the same after a step, but for its scratch fields *)
Lemma step_attached_frame rnd L L' k c :
  step P rnd L = Ok L' -> get L k = Some c -> attached c = true ->
  exists c', get L' k = Some c' /\ attached c' = true /\ same_masses c c'.
Proof.
  intros H G A. apply step_inv in H as (L1 & L2 & H1 & H2 & H3).
  destruct (passOne_related same_matter same_matter_refl same_matter_trans
              _ _ _ _ _ stepOne_same_matter H1 G) as (c1 & G1 & M1).
  destruct (passOne_invariant (fun _ => True)
              (fun x => attached x = true -> settled x) (keys L) L L1)
    as [_ Hall]; auto.
  { intros S x _ _. split; auto. intros A'.
    apply stepOne_settles. destruct (stepOne_same_matter x S) as (_ & ? & _).
    congruence. }
  destruct (Hall k c (get_In_keys _ _ _ G) G) as (c1' & G1' & S1).
  assert (c1' = c1) by congruence. subst c1'.
  destruct M1 as (_ & A1 & D1 & B1 & C1 & _).
  assert (St1 : settled c1) by (apply S1; congruence).
  destruct (passTwo_related P keeps_settled (keeps_settled_refl) (keeps_settled_trans)
              _ _ _ _ _ (stepTwo_keeps_settled P) H2 G1) as (c2 & G2 & _ & K2).
  destruct (K2 St1) as [St2 (D2 & B2 & C2)].
  destruct (passThree_related P keeps_settled (keeps_settled_refl) (keeps_settled_trans)
              _ _ _ _ _ _ (stepThree_keeps_settled P) H3 G2) as (c3 & G3 & _ & K3).
  destruct (K3 St2) as [(A3 & _) (D3 & B3 & C3)].
  exists c3. unfold same_masses. repeat split; congruence.
Qed.

(** X11. Once a cell is attached it stays attached and its
    diffusiveMass, boundaryMass and crystalMass never change again, over
    any number of steps. *)
Theorem attached_cells_are_inert_forever (rnds : list Noise) (L L' : CrystalLattice)
        (k : Key) (c : SnowflakeCell) :
  steps P rnds L = Ok L' -> get L k = Some c -> attached c = true ->
  exists c', get L' k = Some c' /\ attached c' = true /\
             diffusiveMass c' = diffusiveMass c /\
             boundaryMass c' = boundaryMass c /\
             crystalMass c' = crystalMass c.
Proof.
  revert L c. induction rnds as [|rnd rnds IH]; simpl; intros L c H G A.
  - injection H as <-. exists c. auto.
  - destruct (step P rnd L) as [L1| |] eqn:E; try discriminate. cbn [bind] in H.
    destruct (step_attached_frame rnd L L1 k c E G A) as (c1 & G1 & A1 & D1 & B1 & C1).
    destruct (IH L1 c1 H G1 A1) as (c' & G' & A' & D' & B' & C').
    exists c'. repeat split; congruence.
Qed.

(* without a pocket stepTwo does not read the store *)
Lemma stepTwo_no_pocket c S L :
  (boundary c = true -> forall l, attachedNeighbors c = Some l -> length l <> 3%nat) ->
  stepTwo P c S = stepTwo P c L.
Proof.
  intros H. unfold stepTwo. destruct (_next_dm c) as [v|]; auto.
  set (t := freezingStep P _).
  assert (Bt : boundary t = boundary c) by (unfold t; cell_cases c; reflexivity).
  assert (Nt : attachedNeighbors t = attachedNeighbors c)
    by (unfold t; cell_cases c; reflexivity).
  replace (attachmentStep P t S) with (attachmentStep P t L); auto.
  unfold attachmentStep. rewrite Bt, Nt.
  destruct (boundary c) eqn:B; cbn [negb]; auto.
  destruct (attachedNeighbors c) as [l|] eqn:N; auto.
  destruct (Z.of_nat (length l) <=? 2)%Z; auto.
  destruct (Z.of_nat (length l) =? 3)%Z eqn:E3; auto.
  apply Z.eqb_eq in E3. exfalso. apply (H eq_refl l eq_refl). lia.
Qed.

(** X19. When every cell has been through Pass 1 and no boundary cell
    has exactly three attached neighbours, Pass 2 completes and its
    result does not depend on the visiting order. *)
Theorem passTwo_any_order_without_pocket (L : CrystalLattice) (o o' : list Key) :
  wf L -> allReady L -> noPocket L ->
  NoDup o -> NoDup o' -> (forall k, In k o <-> In k o') ->
  passTwo P o L = passTwo P o' L /\ raises (passTwo P o L) = false.
Proof.
  intros W R NP N N' H.
  set (g := fun c => orElse (stepTwo P c L) c).
  assert (Hg : forall c, key (g c) = key c).
  { intros c. unfold g. destruct (stepTwo P c L) as [c'| |] eqn:E; auto.
    simpl. eapply stepTwo_key; eauto. }
  assert (Hf : forall S c, True -> get S (key c) = Some c -> get L (key c) = Some c ->
              stepTwo P c S = Ok (g c) /\ True).
  { intros S c _ _ G. split; auto.
    rewrite (stepTwo_no_pocket c S L).
    - unfold g. destruct (stepTwo_ready P c L (R _ _ G)) as [c' ->]. reflexivity.
    - intros B l Hl. apply (NP _ _ _ G B Hl). }
  assert (E : forall o, NoDup o -> passTwo P o L = Ok (sync g o L)).
  { intros o0 N0. apply (pass_is_sync (stepTwo P) g (fun _ => True)); auto. }
  rewrite (E o N), (E o' N'), (sync_same_keys g o o' L H). auto.
Qed.

End Passes.

(** ** The constructor, the neighbours and the controller in one statement each *)

(** X1. The constructor leaves one cell per coordinate of the hexagon
    of radius [sz], and nothing else: the attached seed at the origin
    and a fresh unattached cell everywhere else; a coordinate outside
    the hexagon is not found. *)
Theorem construct_cells (P : Params) (sz : Z) (L : CrystalLattice) (k : Key) :
  construct P sz = Ok L ->
  wf L /\ size L = sz /\
  get L k = if (hexDistance k <=? sz)%Z then Some (initialCell P k) else None.
Proof.
  intros H. split; [apply (construct_wf P sz L H)|]. split.
  - unfold construct in H. destruct (get _ _); try discriminate.
    injection H as <-. reflexivity.
  - apply construct_get; auto.
Qed.

(** X3. The neighbours of a cell are exactly the cells of the lattice
    whose coordinate is at hexagonal distance one from its own. *)
Theorem neighbors_are_the_adjacent_cells (c n : SnowflakeCell) (L : CrystalLattice) :
  In n (neighbors c L) <->
  get L (key n) = Some n /\ hexDistance (offset (key c) (key n)) = 1%Z.
Proof. apply neighbors_spec. Qed.

(** X21. stepLattice() with the lattice and the group assigned does
    not throw, takes max(0, stepsPerFrame) steps and adds that number to
    currentStep (with stepsPerFrame <= 0 it changes nothing); with no
    lattice assigned it throws and leaves the state as it was, whatever
    stepsPerFrame is: at the first step, or in drawLattice when the loop
    is empty. *)
Theorem stepLattice_advances (P : Params) (stepsPerFrame : Z) (rnds : nat -> Noise)
        (s : Simulation) :
  (forall L, lattice s = Some L -> group s = true ->
     (exists L',
       stepLattice P stepsPerFrame rnds s
       = (mkSimulation (Some L') true (currentStep s + Z.max 0 stepsPerFrame), Ok tt) /\
       steps P (map rnds (seq 0 (Z.to_nat stepsPerFrame))) L = Ok L') /\
     ((stepsPerFrame <= 0)%Z -> stepLattice P stepsPerFrame rnds s = (s, Ok tt))) /\
  (lattice s = None -> stepLattice P stepsPerFrame rnds s = (s, TypeError)).
Proof.
  split.
  - intros L Hs Hg. split; [apply stepLattice_steps; auto|].
    intros H. unfold stepLattice. replace (Z.to_nat stepsPerFrame) with O by lia.
    cbn [stepLoop]. unfold redraw. rewrite Hs, Hg. reflexivity.
  - intros Hs. unfold stepLattice.
    destruct (Z.to_nat stepsPerFrame) as [|n].
    + cbn [stepLoop]. unfold redraw. rewrite Hs. destruct (group s); reflexivity.
    + cbn [stepLoop]. rewrite Hs. reflexivity.
Qed.

(** ** What is drawn, and what the GUI allows *)

Section Interface.

Variable P : Params.

(** X27. After a step on a lattice with one cell per coordinate, every
    cell that boundaryCells() returns has a neighbour that
    attachedCells() returns: each boundary hexagon drawn touches the
    crystal. *)
Theorem boundary_cells_touch_the_crystal (rnd : Noise) (L L' : CrystalLattice)
        (c' : SnowflakeCell) :
  wf L -> step P rnd L = Ok L' -> In c' (fst (boundaryCells L')) ->
  exists n', In n' (neighbors c' L') /\ In n' (fst (attachedCells L')).
Proof.
  intros W H Hc. apply boundaryCells_spec in Hc as (Hin & B & A).
  pose proof (step_wf P rnd L L' W H) as W'.
  pose proof (wf_get L' c' W' Hin) as G'.
  destruct (steps_keys P [rnd] L L') as [K _].
  { simpl. rewrite H. reflexivity. }
  destruct (In_keys_get L (key c')) as [c G].
  { rewrite <- K. apply (get_In_keys _ _ _ G'). }
  destruct (step_boundary_flag P rnd L L' (key c') c H G) as (c'' & G'' & Bc).
  assert (c'' = c') by congruence. subst c''.
  rewrite B in Bc. symmetry in Bc. apply andb_true_iff in Bc as [_ Ex].
  apply existsb_exists in Ex as (n & Hn & An).
  apply neighbors_spec in Hn as [Gn Dn].
  destruct (step_attached_frame P rnd L L' (key n) n H Gn An) as (n' & Gn' & An' & _).
  exists n'. split.
  - apply neighbors_spec. rewrite (get_key _ _ _ Gn'). split; auto.
    rewrite (get_key _ _ _ G) in Dn. exact Dn.
  - apply attachedCells_spec. split; auto. apply (get_In _ _ _ Gn').
Qed.

(** X28. Every setting within the ranges the GUI sliders are declared
    with satisfies the parameter ranges under which masses stay
    non-negative, and a reset with it succeeds with a lattice radius
    between 10 and 50. *)
Theorem gui_settings_are_valid (gridSize : Q) (s : Simulation) :
  guiRange P gridSize ->
  valid_params P /\
  exists L, resetLattice P gridSize s = (mkSimulation (Some L) true 0, Ok tt) /\
            (10 <= size L <= 50)%Z.
Proof.
  intros ((G1 & G2) & _ & _ & _ & (K1 & K2) & (M1 & M2) & (U1 & U2) & (S1 & _) & (C1 & _)).
  split.
  - unfold valid_params. repeat split; lra.
  - assert (N : 0 <= gridSize) by lra.
    unfold resetLattice.
    destruct (construct_nonneg_ok P _ (Qfloor_half_nonneg _ N)) as (L & E & Sz).
    exists L. rewrite E. split; [reflexivity|]. rewrite Sz. split.
    + change 10%Z with (Qfloor 10). apply Qfloor_resp_le.
      apply Qle_shift_div_l; lra.
    + change 50%Z with (Qfloor (101 # 2)). apply Qfloor_resp_le.
      apply Qle_shift_div_r; lra.
Qed.

End Interface.

(** * Instances of the further properties *)

Ltac in_list := vm_compute; repeat (first [left; reflexivity | right]).

Ltac each_cell G :=
  apply get_In in G; vm_compute in G;
  repeat (destruct G as [G|G]; [subst|]); [..|destruct G].

Lemma lattice1_wf : wf lattice1.
Proof. apply (construct_wf params 1). vm_compute; reflexivity. Qed.

Lemma lattice1_step_wf : wf lattice1_step.
Proof. apply (step_wf params noNoise lattice1); [exact lattice1_wf | vm_compute; reflexivity]. Qed.

Lemma lattice1_passOne_wf : wf lattice1_passOne.
Proof. exact lattice1_wf. Qed.

Lemma lattice1_passOne_allReady : allReady lattice1_passOne.
Proof.
  intros k c G. each_cell G; split; simpl; intros; discriminate.
Qed.

Lemma lattice1_passOne_noPocket : noPocket lattice1_passOne.
Proof.
  intros k c l G B A. each_cell G; simpl in B, A; try discriminate;
    injection A as <-; simpl; discriminate.
Qed.

Lemma construct_cells_witness :
  construct params 1 = Ok lattice1 /\
  wf lattice1 /\ size lattice1 = 1%Z /\
  get lattice1 (1, 0)%Z
  = if (hexDistance (1, 0)%Z <=? 1)%Z then Some (initialCell params (1, 0)%Z) else None.
Proof.
  split; [vm_compute; reflexivity|].
  apply (construct_cells params 1 lattice1 (1, 0)%Z). vm_compute; reflexivity.
Defined.

Lemma constructed_cell_count_witness :
  construct params 1 = Ok lattice1 /\
  Z.of_nat (length (cells lattice1)) = (3 * 1 * 1 + 3 * 1 + 1)%Z.
Proof.
  split; [vm_compute; reflexivity|].
  apply (constructed_cell_count params 1 lattice1). vm_compute; reflexivity.
Defined.

Lemma neighbors_symmetric_witness :
  get lattice1 (key lattice1_seed) = Some lattice1_seed /\
  In lattice1_cell0 (neighbors lattice1_seed lattice1) /\
  In lattice1_seed (neighbors lattice1_cell0 lattice1) /\
  key lattice1_seed <> key lattice1_cell0.
Proof.
  split; [vm_compute; reflexivity|].
  assert (H : In lattice1_cell0 (neighbors lattice1_seed lattice1)) by in_list.
  split; [exact H|].
  apply (neighbors_symmetric lattice1_seed lattice1_cell0 lattice1).
  - vm_compute; reflexivity.
  - exact H.
Defined.

Lemma interior_cell_has_six_neighbors_witness :
  construct params 1 = Ok lattice1 /\ get lattice1 (0, 0)%Z = Some lattice1_seed /\
  (hexDistance (0, 0)%Z < 1)%Z /\ length (neighbors lattice1_seed lattice1) = 6%nat.
Proof.
  split; [vm_compute; reflexivity|]. split; [vm_compute; reflexivity|].
  split; [reflexivity|].
  apply (interior_cell_has_six_neighbors params 1 lattice1 (0, 0)%Z lattice1_seed).
  - vm_compute; reflexivity.
  - vm_compute; reflexivity.
  - reflexivity.
Defined.

Lemma first_step_boundary_ring_witness :
  construct params 1 = Ok lattice1 /\ step params noNoise lattice1 = Ok lattice1_step /\
  get lattice1_step (1, 0)%Z = Some lattice1_cell_step /\
  (boundary lattice1_cell_step = true <-> hexDistance (1, 0)%Z = 1%Z).
Proof.
  split; [vm_compute; reflexivity|]. split; [vm_compute; reflexivity|].
  split; [vm_compute; reflexivity|].
  apply (first_step_boundary_ring params 1 lattice1 lattice1_step noNoise
           (1, 0)%Z lattice1_cell_step).
  - vm_compute; reflexivity.
  - vm_compute; reflexivity.
  - vm_compute; reflexivity.
Defined.

Lemma growth_front_witness :
  construct params_beta0 2 = Ok lattice2 /\
  steps params_beta0 [noNoise] lattice2 = Ok lattice2_grown /\
  get lattice2_grown (2, 0)%Z = Some lattice2_rim /\
  (Z.of_nat (length [noNoise]) < hexDistance (2, 0)%Z)%Z /\
  pristine lattice2_rim.
Proof.
  split; [vm_compute; reflexivity|]. split; [vm_compute; reflexivity|].
  split; [vm_compute; reflexivity|]. split; [reflexivity|].
  apply (growth_front params_beta0 2 lattice2 lattice2_grown [noNoise]
           (2, 0)%Z lattice2_rim).
  - vm_compute; reflexivity.
  - vm_compute; reflexivity.
  - vm_compute; reflexivity.
  - reflexivity.
Defined.

Lemma drawn_cells_within_radius_witness :
  construct params_beta0 2 = Ok lattice2 /\
  steps params_beta0 [noNoise] lattice2 = Ok lattice2_grown /\
  In lattice2_cell (fst (attachedCells lattice2_grown)) /\
  (hexDistance (key lattice2_cell) <= Z.of_nat (length [noNoise]))%Z.
Proof.
  split; [vm_compute; reflexivity|]. split; [vm_compute; reflexivity|].
  assert (H : In lattice2_cell (fst (attachedCells lattice2_grown))) by in_list.
  split; [exact H|].
  apply (drawn_cells_within_radius params_beta0 2 lattice2 lattice2_grown
           [noNoise] lattice2_cell).
  - vm_compute; reflexivity.
  - vm_compute; reflexivity.
  - left; exact H.
Defined.

Lemma attached_cells_hold_no_boundary_mass_witness :
  construct params_beta0 2 = Ok lattice2 /\
  steps params_beta0 [noNoise] lattice2 = Ok lattice2_grown /\
  get lattice2_grown (1, 0)%Z = Some lattice2_cell /\
  attached lattice2_cell = true /\ boundaryMass lattice2_cell = 0.
Proof.
  split; [vm_compute; reflexivity|]. split; [vm_compute; reflexivity|].
  split; [vm_compute; reflexivity|]. split; [reflexivity|].
  apply (attached_cells_hold_no_boundary_mass params_beta0 2 lattice2 lattice2_grown
           [noNoise] (1, 0)%Z lattice2_cell).
  - vm_compute; reflexivity.
  - vm_compute; reflexivity.
  - vm_compute; reflexivity.
  - reflexivity.
Defined.

Lemma attached_cells_are_inert_forever_witness :
  steps params [noNoise] lattice1 = Ok lattice1_step /\
  get lattice1 (0, 0)%Z = Some lattice1_seed /\ attached lattice1_seed = true /\
  exists c', get lattice1_step (0, 0)%Z = Some c' /\ attached c' = true /\
             diffusiveMass c' = diffusiveMass lattice1_seed /\
             boundaryMass c' = boundaryMass lattice1_seed /\
             crystalMass c' = crystalMass lattice1_seed.
Proof.
  split; [vm_compute; reflexivity|]. split; [vm_compute; reflexivity|].
  split; [reflexivity|].
  apply (attached_cells_are_inert_forever params [noNoise] lattice1 lattice1_step
           (0, 0)%Z lattice1_seed).
  - vm_compute; reflexivity.
  - vm_compute; reflexivity.
  - reflexivity.
Defined.

Lemma age_counts_unattached_steps_witness :
  construct params 1 = Ok lattice1 /\
  steps params [noNoise] lattice1 = Ok lattice1_step /\
  get lattice1_step (1, 0)%Z = Some lattice1_cell_step /\
  (0 <= age lattice1_cell_step <= Z.of_nat (length [noNoise]))%Z /\
  (attached lattice1_cell_step = false ->
   age lattice1_cell_step = Z.of_nat (length [noNoise])).
Proof.
  split; [vm_compute; reflexivity|]. split; [vm_compute; reflexivity|].
  split; [vm_compute; reflexivity|].
  apply (age_counts_unattached_steps params 1 lattice1 lattice1_step [noNoise]
           (1, 0)%Z lattice1_cell_step).
  - vm_compute; reflexivity.
  - vm_compute; reflexivity.
  - vm_compute; reflexivity.
Defined.

Lemma diffusion_stays_in_range_witness :
  attached lattice1_cell0 = false /\
  0 <= snd (diffusionCalc lattice1_cell0 lattice1) /\
  snd (diffusionCalc lattice1_cell0 lattice1) <= 1.
Proof.
  split; [reflexivity|].
  apply (diffusion_stays_in_range lattice1_cell0 lattice1 0 1).
  - reflexivity.
  - split; vm_compute; discriminate.
  - intros n H _. vm_compute in H.
    repeat (destruct H as [H|H]; [subst|]); [..|destruct H];
      split; vm_compute; discriminate.
Defined.

Lemma noise_is_bounded_witness :
  0 <= diffusiveMass (noiseStep params (1 # 2) lattice1_cell0) /\
  diffusiveMass lattice1_cell0 - sigma params
  <= diffusiveMass (noiseStep params (1 # 2) lattice1_cell0) /\
  diffusiveMass (noiseStep params (1 # 2) lattice1_cell0)
  <= diffusiveMass lattice1_cell0 + sigma params /\
  noiseStep params (1 # 2) lattice1_cell0
  = set_diffusiveMass (diffusiveMass (noiseStep params (1 # 2) lattice1_cell0))
                      lattice1_cell0 /\
  (attached lattice1_cell0 = true ->
   noiseStep params (1 # 2) lattice1_cell0 = lattice1_cell0).
Proof.
  apply (noise_is_bounded params (1 # 2) lattice1_cell0).
  - split; vm_compute; discriminate.
  - vm_compute; discriminate.
  - vm_compute; discriminate.
Defined.

Lemma stepTwo_mass_balance_witness :
  stepTwo params lattice1_cell lattice1_passOne = Ok lattice1_cell_two /\
  exists v, _next_dm lattice1_cell = Some v /\
            totalMass lattice1_cell_two
            == v + boundaryMass lattice1_cell + crystalMass lattice1_cell.
Proof.
  split; [vm_compute; reflexivity|].
  eexists. split; [reflexivity|].
  apply (stepTwo_mass_balance params lattice1_cell lattice1_cell_two lattice1_passOne).
  - vm_compute; reflexivity.
  - reflexivity.
Defined.

Lemma steps_keep_the_cell_set_witness :
  steps params [noNoise] lattice1 = Ok lattice1_step /\
  keys lattice1_step = keys lattice1 /\ size lattice1_step = size lattice1 /\
  length (cells lattice1_step) = length (cells lattice1).
Proof.
  split; [vm_compute; reflexivity|].
  apply (steps_keep_the_cell_set params [noNoise] lattice1 lattice1_step).
  vm_compute; reflexivity.
Defined.

Lemma passTwo_any_order_without_pocket_witness :
  wf lattice1_passOne /\ allReady lattice1_passOne /\ noPocket lattice1_passOne /\
  passTwo params (keys lattice1_passOne) lattice1_passOne
  = passTwo params (rev (keys lattice1_passOne)) lattice1_passOne /\
  raises (passTwo params (keys lattice1_passOne) lattice1_passOne) = false.
Proof.
  split; [exact lattice1_passOne_wf|].
  split; [exact lattice1_passOne_allReady|].
  split; [exact lattice1_passOne_noPocket|].
  apply (passTwo_any_order_without_pocket params lattice1_passOne
           (keys lattice1_passOne) (rev (keys lattice1_passOne))).
  - exact lattice1_passOne_wf.
  - exact lattice1_passOne_allReady.
  - exact lattice1_passOne_noPocket.
  - exact lattice1_passOne_wf.
  - apply NoDup_rev. exact lattice1_passOne_wf.
  - intros k. apply in_rev.
Defined.


Lemma stepLattice_advances_witness :
  exists L',
    stepLattice params 2 frameNoise simulation1
    = (mkSimulation (Some L') true (currentStep simulation1 + Z.max 0 2), Ok tt) /\
    steps params (map frameNoise (seq 0 (Z.to_nat 2))) lattice1 = Ok L'.
Proof.
  apply (proj1 (proj1 (stepLattice_advances params 2 frameNoise simulation1) lattice1
                      eq_refl eq_refl)).
Defined.

Lemma counter_bounds_the_crystal_witness :
  resetLattice params 3 simulation0 = (simulation1, Ok tt) /\
  exists L,
    runFrames params [(2%Z, frameNoise); (1%Z, frameNoise)] simulation1
    = (mkSimulation (Some L) true
                    (framesTotal [(2%Z, frameNoise); (1%Z, frameNoise)]), Ok tt) /\
    forall c, In c (fst (attachedCells L)) ->
              (hexDistance (key c)
               <= framesTotal [(2%Z, frameNoise); (1%Z, frameNoise)])%Z.
Proof.
  split; [vm_compute; reflexivity|].
  apply (counter_bounds_the_crystal params 3 simulation0 simulation1
           [(2%Z, frameNoise); (1%Z, frameNoise)]).
  vm_compute; reflexivity.
Defined.

Lemma boundary_cells_touch_the_crystal_witness :
  wf lattice1 /\ step params noNoise lattice1 = Ok lattice1_step /\
  In lattice1_cell_step (fst (boundaryCells lattice1_step)) /\
  exists n', In n' (neighbors lattice1_cell_step lattice1_step) /\
             In n' (fst (attachedCells lattice1_step)).
Proof.
  split; [exact lattice1_wf|]. split; [vm_compute; reflexivity|].
  assert (H : In lattice1_cell_step (fst (boundaryCells lattice1_step))) by in_list.
  split; [exact H|].
  apply (boundary_cells_touch_the_crystal params noNoise lattice1 lattice1_step
           lattice1_cell_step lattice1_wf).
  - vm_compute; reflexivity.
  - exact H.
Defined.

Lemma gui_settings_are_valid_witness :
  guiRange params 61 /\ valid_params params /\
  exists L, resetLattice params 61 simulation0 = (mkSimulation (Some L) true 0, Ok tt) /\
            (10 <= size L <= 50)%Z.
Proof.
  assert (G : guiRange params 61).
  { unfold guiRange. repeat split; vm_compute; discriminate. }
  split; [exact G|].
  apply (gui_settings_are_valid params 61 simulation0 G).
Defined.

Module PixelInstances.

Import Reals Lra Pixel.
Local Open Scope R_scope.

Lemma hexToPixel_injective_witness :
  1 <> 0 /\ hexToPixel 1 0 1 = hexToPixel 1 0 1 /\ 1%Z = 1%Z /\ 0%Z = 0%Z.
Proof.
  split; [lra|]. split; [reflexivity|].
  apply (PixelFacts.hexToPixel_injective 1 0 1 0 1); [lra | reflexivity].
Defined.

Lemma neighbors_are_equidistant_witness :
  In lattice1_cell0 (neighbors lattice1_seed lattice1) /\
  distance2 (hexToPixel (q lattice1_cell0) (r lattice1_cell0) 1)
            (hexToPixel (q lattice1_seed) (r lattice1_seed) 1)
  = 3 * 1 * 1.
Proof.
  assert (H : In lattice1_cell0 (neighbors lattice1_seed lattice1)) by in_list.
  split; [exact H|].
  apply (PixelFacts.neighbors_are_equidistant lattice1_seed lattice1_cell0 lattice1 1 H).
Defined.

Lemma drawLattice_draws_each_cell_once_witness :
  wf lattice1_step /\ 1 <> 0 /\
  length (drawLattice 1 lattice1_step)
  = (length (fst (attachedCells lattice1_step))
     + length (fst (boundaryCells lattice1_step)))%nat /\
  NoDup (map planePosition (drawLattice 1 lattice1_step)).
Proof.
  split; [exact lattice1_step_wf|]. split; [lra|].
  apply (PixelFacts.drawLattice_draws_each_cell_once 1 lattice1_step);
    [exact lattice1_step_wf | lra].
Defined.

End PixelInstances.

(** * The generator of Math.random() *)

Section Generator.

Variable P : Params.

Lemma stepThreeGen_stepThree gen i c :
  stepThreeGen P gen i c
  = (stepThree P (gen i) c, if draws c then S i else i).
Proof.
  unfold stepThreeGen, stepThree, draws. f_equal.
  destruct c as [? ? ? ? ? a b ? ? ? f]. cell_simpl.
  destruct a, b, f; reflexivity.
Qed.

(* a cell that does not draw ignores the value *)
Lemma stepThree_no_draw u u' c : draws c = false -> stepThree P u c = stepThree P u' c.
Proof.
  unfold draws, stepThree, noiseStep.
  destruct c as [? ? ? ? ? a b ? ? ? f]. cell_simpl.
  destruct a, b, f; intros D; try discriminate D; reflexivity.
Qed.

(* the loop reads the draw of the visited cells only *)
Lemma passThree_ext rnd rnd' o : forall S,
  (forall k, In k o -> rnd k = rnd' k) ->
  passThree P rnd o S = passThree P rnd' o S.
Proof.
  unfold passThree. induction o as [|x o IH]; intros S H; [reflexivity|].
  cbn [pass]. destruct (get S x) as [c|] eqn:G.
  - cbn [bind]. rewrite (get_key _ _ _ G), (H x (or_introl eq_refl)).
    apply IH. intros k Hk. apply H. right; exact Hk.
  - apply IH. intros k Hk. apply H. right; exact Hk.
Qed.

(* the loop with the generator is the loop in which every cell
   receives the value the generator has for it *)
Lemma passThreeGen_passThree gen L : forall o i L1,
  NoDup o -> (forall k, In k o -> get L1 k = get L k) ->
  passThree P (fun k => gen (i + drawsBefore k o L)%nat) o L1
  = Ok (fst (passThreeGen P gen o i L1)).
Proof.
  induction o as [|k o IH]; intros i L1 N HS; [reflexivity|].
  inversion N as [|? ? Nk No]; subst.
  set (d := match get L k with
            | Some c => if draws c then 1%nat else 0%nat
            | None => 0%nat
            end).
  assert (X : forall j,
    passThree P (fun k' => gen (i + drawsBefore k' (k :: o) L)%nat) o j
    = passThree P (fun k' => gen ((i + d) + drawsBefore k' o L)%nat) o j).
  { intros j. apply passThree_ext. intros k' Hk'. cbn [drawsBefore].
    destruct (key_eqb k k') eqn:E.
    - apply key_eqb_eq in E. subst. contradiction.
    - fold d. rewrite Nat.add_assoc. reflexivity. }
  pose proof (HS k (or_introl eq_refl)) as Gk.
  unfold passThree in *. cbn [pass passThreeGen].
  destruct (get L1 k) as [c|] eqn:G.
  - cbn [bind]. rewrite (get_key _ _ _ G). cbn [drawsBefore].
    rewrite key_eqb_refl, Nat.add_0_r, stepThreeGen_stepThree, X.
    replace (if draws c then S i else i) with (i + d)%nat
      by (subst d; rewrite <- Gk; destruct (draws c); lia).
    apply IH; auto.
    intros k' Hk'. rewrite get_put_other; [apply HS; right; exact Hk'|].
    rewrite stepThree_key, (get_key _ _ _ G). intros ->. contradiction.
  - rewrite X. replace (i + d)%nat with i by (subst d; rewrite <- Gk; lia).
    apply IH; auto. intros k' Hk'. apply HS. right; exact Hk'.
Qed.

Lemma passThreeGen_drawOf gen o L :
  NoDup o -> passThree P (drawOf gen o L) o L = Ok (fst (passThreeGen P gen o 0 L)).
Proof.
  intros N. apply (passThreeGen_passThree gen L o 0 L N). auto.
Qed.

(* the value of the loop with the generator, in any order *)
Lemma passThreeGen_sync gen o L :
  wf L -> NoDup o ->
  fst (passThreeGen P gen o 0 L)
  = sync (fun c => stepThree P (drawOf gen o L (key c)) c) o L.
Proof.
  intros W N. pose proof (passThreeGen_drawOf gen o L N) as H.
  rewrite passThree_sync in H by auto. injection H as H. symmetry. exact H.
Qed.

(** X18. On a lattice with one cell per coordinate the result of
    Pass 1 does not depend on the order in which the cells are visited,
    and neither does the result of Pass 3 when every cell that draws
    receives the same value of Math.random() in both orders; the
    generator hands its values out in visiting order, one to each cell
    that is unattached when its noise step runs. *)
Theorem passes_one_and_three_ignore_the_order (gen gen' : Generator)
        (L : CrystalLattice) (o o' : list Key) :
  wf L -> NoDup o -> NoDup o' -> (forall k, In k o <-> In k o') ->
  (forall k c, In k o -> get L k = Some c -> draws c = true ->
               drawOf gen o L k = drawOf gen' o' L k) ->
  passOne o L = passOne o' L /\
  fst (passThreeGen P gen o 0 L) = fst (passThreeGen P gen' o' 0 L).
Proof.
  intros W N N' H D. split.
  - apply (passOne_passThree_any_order P noNoise L o o' W N N' H).
  - rewrite !passThreeGen_sync by auto.
    rewrite (sync_same_keys _ o o' L H). unfold sync. f_equal.
    apply map_ext_in. intros c Hc. destruct (mem (key c) o') eqn:M; auto.
    destruct (draws c) eqn:Dc; [|apply stepThree_no_draw; exact Dc].
    rewrite (D (key c) c); auto.
    + apply H. apply mem_In. exact M.
    + apply wf_get; auto.
Qed.

End Generator.

(* with one generator, visiting the cells of [lattice1] in the reverse
   order hands the values to other cells: the result differs *)
Lemma one_generator_depends_on_the_order :
  fst (passThreeGen params countingGenerator (keys lattice1) 0 lattice1)
  <> fst (passThreeGen params countingGenerator (rev (keys lattice1)) 0 lattice1).
Proof. vm_compute. discriminate. Qed.

Lemma passes_one_and_three_ignore_the_order_witness :
  wf lattice1 /\
  passOne (keys lattice1) lattice1 = passOne (rev (keys lattice1)) lattice1 /\
  fst (passThreeGen params (fun _ => 1 # 2) (keys lattice1) 0 lattice1)
  = fst (passThreeGen params (fun _ => 1 # 2) (rev (keys lattice1)) 0 lattice1).
Proof.
  split; [exact lattice1_wf|].
  apply (passes_one_and_three_ignore_the_order params (fun _ => 1 # 2) (fun _ => 1 # 2)
           lattice1 (keys lattice1) (rev (keys lattice1))).
  - exact lattice1_wf.
  - exact lattice1_wf.
  - apply NoDup_rev. exact lattice1_wf.
  - intros k. apply in_rev.
  - intros k c _ _ _. reflexivity.
Defined.

(** * The code over IEEE doubles *)

Module Binary64Facts.

Import Floats Binary64.
Local Open Scope float_scope.
#[local] Set Warnings "-inexact-float".

Lemma Prim2SF_zero : Prim2SF 0 = S754_zero false.
Proof. reflexivity. Qed.

Lemma notNegative_spec x : notNegative x <-> nnSF (Prim2SF x).
Proof.
  unfold notNegative. rewrite ltb_spec, Prim2SF_zero.
  destruct (Prim2SF x) as [[]|[]| |[] m e]; simpl; split; intros H;
    try discriminate; try exact I; try reflexivity; destruct H.
Qed.

Lemma positive_spec x : (0 <? x) = true <-> posSF (Prim2SF x).
Proof.
  rewrite ltb_spec, Prim2SF_zero.
  destruct (Prim2SF x) as [[]|[]| |[] m e]; simpl; split; intros H;
    try discriminate; try exact I; try reflexivity; destruct H.
Qed.

Lemma nonnegative_spec x : (0 <=? x) = true <-> nnSF (Prim2SF x) /\ Prim2SF x <> S754_nan.
Proof.
  rewrite leb_spec, Prim2SF_zero.
  destruct (Prim2SF x) as [[]|[]| |[] m e]; simpl; split; intros H;
    try discriminate; try reflexivity; try (split; [exact I | discriminate]);
    destruct H as [H1 H2]; try destruct H1; congruence.
Qed.

Lemma binary_round_aux_nn mx ex lx : nnSF (binary_round_aux prec emax false mx ex lx).
Proof.
  unfold binary_round_aux.
  destruct (shr_fexp prec emax mx ex lx) as [mrs' e'].
  destruct (shr_fexp prec emax _ e' loc_Exact) as [mrs'' e''].
  destruct (shr_m mrs''); [exact I| |exact I].
  destruct (Z.leb e'' (Z.sub emax prec)); exact I.
Qed.

Lemma binary_normalize_nn m e : (0 <= m)%Z -> nnSF (binary_normalize prec emax m e false).
Proof.
  destruct m as [|p|p]; intros H; [exact I| |lia].
  unfold binary_normalize, binary_round.
  destruct (shl_align _ _ _) as [mz ez]. apply binary_round_aux_nn.
Qed.

Lemma add_notNegative a b : notNegative a -> notNegative b -> notNegative (a + b).
Proof.
  rewrite !notNegative_spec, add_spec. unfold SF64add.
  destruct (Prim2SF a) as [[]|[]| |[] ma ea], (Prim2SF b) as [[]|[]| |[] mb eb];
    cbn [nnSF SFadd]; try tauto.
  intros _ _. apply binary_normalize_nn. cbn [cond_Zopp]. lia.
Qed.

Lemma mul_notNegative a b : notNegative a -> notNegative b -> notNegative (a * b).
Proof.
  rewrite !notNegative_spec, mul_spec. unfold SF64mul.
  destruct (Prim2SF a) as [[]|[]| |[] ma ea], (Prim2SF b) as [[]|[]| |[] mb eb];
    cbn [nnSF SFmul xorb]; try tauto.
  intros _ _. apply binary_round_aux_nn.
Qed.

Lemma div_notNegative a d : notNegative a -> (0 <? d) = true -> notNegative (a / d).
Proof.
  rewrite !notNegative_spec, positive_spec, div_spec. unfold SF64div.
  destruct (Prim2SF a) as [[]|[]| |[] ma ea], (Prim2SF d) as [[]|[]| |[] md ed];
    cbn [nnSF posSF SFdiv xorb]; try tauto.
  intros _ _. destruct (SFdiv_core_binary _ _ _ _ _ _) as [[mz ez] lz].
  apply binary_round_aux_nn.
Qed.

Lemma digits2_pos_bound m : (Zpos m < 2 ^ Zpos (digits2_pos m))%Z.
Proof.
  induction m as [m IH|m IH|]; cbn [digits2_pos];
    rewrite ?Pos2Z.inj_succ, ?Z.pow_succ_r by lia; lia.
Qed.

Lemma iter_xO m d : Zpos (Pos.iter xO m d) = (Zpos m * 2 ^ Zpos d)%Z.
Proof.
  induction d as [|d IH] using Pos.peano_ind.
  - cbn [Pos.iter]. lia.
  - rewrite Pos.iter_succ, Pos2Z.inj_succ, Z.pow_succ_r by lia.
    rewrite Pos2Z.inj_xO, IH. lia.
Qed.

Lemma Prim2SF_one : Prim2SF 1 = S754_finite false 4503599627370496 (-52).
Proof. reflexivity. Qed.

(* 1 - k for a rate k between 0 and 1 *)
Lemma one_sub_notNegative k :
  (0 <=? k) = true -> (k <=? 1) = true -> notNegative (1 - k).
Proof.
  rewrite notNegative_spec, sub_spec, nonnegative_spec, leb_spec, Prim2SF_one.
  pose proof (Prim2SF_valid k) as V. unfold SF64sub.
  destruct (Prim2SF k) as [[]|[]| |[] m e]; cbn [nnSF SFsub SFleb SFcompare];
    intros [N _] H; try tauto; try discriminate.
  apply binary_normalize_nn. cbn [cond_Zopp].
  cbn [valid_binary] in V. unfold bounded, canonical_mantissa in V.
  apply andb_true_iff in V as [V _]. apply Z.eqb_eq in V.
  unfold fexp, SpecFloat.emin, prec, emax in V.
  pose proof (digits2_pos_bound m) as D.
  destruct (Z.compare_spec e (-52)) as [E|E|E]; [ | |discriminate H].
  - subst e. rewrite Z.min_id. unfold shl_align. rewrite Z.sub_diag. cbn [fst].
    assert (C : (m <= 4503599627370496)%positive).
    { unfold Pos.le, Pos.compare.
      destruct (Pos.compare_cont Eq m 4503599627370496);
        [discriminate|discriminate|discriminate H]. }
    apply Z.le_0_sub. exact (Pos2Z.pos_le_pos _ _ C).
  - rewrite Z.min_r by lia. unfold shl_align. rewrite Z.sub_diag. cbn [fst].
    destruct (e - -52)%Z as [|d|d] eqn:Ed; [lia|lia|]. cbn [fst]. rewrite iter_xO.
    assert (X : (Zpos (digits2_pos m) <= 53)%Z) by lia.
    assert (Y : (2 ^ Zpos (digits2_pos m) <= 2 ^ 53)%Z) by (apply Z.pow_le_mono_r; lia).
    assert (W : (2 ^ 1 <= 2 ^ Zpos d)%Z) by (apply Z.pow_le_mono_r; lia).
    apply Z.le_0_sub. apply Z.lt_le_incl. eapply Z.lt_le_trans; [exact D|].
    eapply Z.le_trans; [exact Y|].
    replace (2 ^ 53)%Z with (4503599627370496 * 2 ^ 1)%Z by reflexivity.
    apply Z.mul_le_mono_nonneg_l; [discriminate | exact W].
Qed.

Lemma ltb_zero_antisym x : (0 <? x) = true -> notNegative x.
Proof.
  rewrite positive_spec, notNegative_spec.
  destruct (Prim2SF x) as [[]|[]| |[] m e]; simpl; tauto.
Qed.

Lemma Math_max_notNegative x : notNegative (Math_max 0 x).
Proof.
  unfold Math_max. change (is_nan 0) with false. change (get_sign 0) with false.
  cbn [orb]. destruct (is_nan x); [reflexivity|].
  destruct (0 <? x) eqn:E; [apply ltb_zero_antisym; exact E|].
  destruct (x <? 0); reflexivity.
Qed.

Lemma nonnegative_notNegative x : (0 <=? x) = true -> notNegative x.
Proof. rewrite nonnegative_spec, notNegative_spec. tauto. Qed.

Lemma count_positive n : (n <= 6)%nat -> (0 <? ofZ (Z.of_nat n + 1)) = true.
Proof.
  intros H. do 7 (destruct n as [|n]; [reflexivity|]). lia.
Qed.

Lemma fold_left_notNegative {A} (g : A -> float) (l : list A) :
  (forall n, In n l -> notNegative (g n)) ->
  forall acc, notNegative acc -> notNegative (fold_left (fun a n => a + g n) l acc).
Proof.
  induction l as [|y l IH]; simpl; intros H acc Ha; auto.
  apply IH; auto. apply add_notNegative; auto.
Qed.

(** ** The store *)

Lemma get64_In L k c : get L k = Some c -> In c (cells L).
Proof. unfold get. intros H. apply find_some in H. apply H. Qed.

Lemma neighbors64_In c n L : In n (neighbors c L) -> In n (cells L).
Proof.
  unfold neighbors, neighborsAt. rewrite in_flat_map. intros (d & _ & H).
  destruct (get L _) as [n0|] eqn:G; [|destruct H].
  destruct H as [<-|[]]. apply (get64_In _ _ _ G).
Qed.

Lemma neighbors64_length c L : (length (neighbors c L) <= 6)%nat.
Proof.
  unfold neighbors, neighborsAt.
  change 6%nat with (length (combine HEX_DX HEX_DY)).
  apply flat_map_option_length. intros d. destruct (get L _); simpl; lia.
Qed.

Lemma put64_In L c' x : In x (cells (put L c')) -> x = c' \/ In x (cells L).
Proof.
  unfold put. cbn [cells]. rewrite in_map_iff. intros (y & E & Hy).
  destruct (key_eqb (key y) (key c')); subst; auto.
Qed.

(* a property of every cell that each visit keeps is kept by the loop *)
Lemma pass64_all (I : SnowflakeCell -> Prop)
      (f : SnowflakeCell -> CrystalLattice -> Result SnowflakeCell) :
  (forall S c c', (forall x, In x (cells S) -> I x) -> In c (cells S) ->
                  f c S = Ok c' -> I c') ->
  forall o L L', (forall x, In x (cells L) -> I x) -> pass f o L = Ok L' ->
                 forall x, In x (cells L') -> I x.
Proof.
  intros Hf. induction o as [|k o IH]; simpl; intros L L' HL H.
  - injection H as <-. exact HL.
  - destruct (get L k) as [c|] eqn:G; [|apply (IH _ _ HL H)].
    destruct (f c L) as [c'| |] eqn:E; try discriminate. cbn [bind] in H.
    apply (IH (put L c') L'); auto.
    intros x Hx. apply put64_In in Hx as [->|Hx]; auto.
    apply (Hf L c c'); auto. apply (get64_In _ _ _ G).
Qed.

(* if every visit succeeds and keeps a property of all cells, the loop
   succeeds *)
Lemma pass64_total (I : SnowflakeCell -> Prop)
      (f : SnowflakeCell -> CrystalLattice -> Result SnowflakeCell) :
  (forall S c, (forall x, In x (cells S) -> I x) -> In c (cells S) ->
               exists c', f c S = Ok c' /\ I c') ->
  forall o L, (forall x, In x (cells L) -> I x) ->
              exists L', pass f o L = Ok L' /\ forall x, In x (cells L') -> I x.
Proof.
  intros Hf. induction o as [|k o IH]; simpl; intros L HL.
  - exists L. auto.
  - destruct (get L k) as [c|] eqn:G; [|apply (IH _ HL)].
    destruct (Hf L c HL (get64_In _ _ _ G)) as (c' & -> & Ic). cbn [bind].
    apply IH. intros x Hx. apply put64_In in Hx as [->|Hx]; auto.
Qed.

(* after a loop every cell whose key was visited has the property the
   visit establishes *)
Lemma pass64_visited (J : SnowflakeCell -> Prop)
      (f : SnowflakeCell -> CrystalLattice -> Result SnowflakeCell) :
  (forall S c c', f c S = Ok c' -> key c' = key c /\ J c') ->
  forall o L L', pass f o L = Ok L' ->
    forall x, In x (cells L') -> J x \/ (~ In (key x) o /\ In x (cells L)).
Proof.
  intros Hf. induction o as [|k o IH]; simpl; intros L L' H x Hx.
  - injection H as <-. right. split; auto.
  - destruct (get L k) as [c|] eqn:G.
    + destruct (f c L) as [c'| |] eqn:E; try discriminate. cbn [bind] in H.
      destruct (Hf _ _ _ E) as [K Jc].
      destruct (IH _ _ H x Hx) as [Jx|[N Hin]]; auto.
      unfold put in Hin. cbn [cells] in Hin. apply in_map_iff in Hin as (y & Ey & Hy).
      destruct (key_eqb (key y) (key c')) eqn:B; subst x; auto.
      right. split; auto. intros [Ek|Hk]; auto.
      apply key_eqb_neq in B. apply B. rewrite K.
      unfold get in G. apply find_some in G as [_ G]. apply key_eqb_eq in G.
      congruence.
    + destruct (IH _ _ H x Hx) as [Jx|[N Hin]]; auto.
      right. split; auto. intros [Ek|Hk]; auto.
      unfold get in G. apply (find_none _ _ G) in Hin.
      apply key_eqb_neq in Hin. auto.
Qed.

(** ** The methods of a cell *)

Ltac fields :=
  cbn [q r diffusiveMass boundaryMass crystalMass attached boundary age
       attachedNeighbors _next_dm attachmentFlag key
       set_diffusiveMass set_boundaryMass set_crystalMass set_attached
       set_boundary set_age set_attachedNeighbors set_next_dm set_attachmentFlag
       fst snd negb andb orb] in *.

Section Rates.

Variable P : Params.
Hypothesis V : validParams P = true.

Lemma rates :
  ((0 <=? kappa P) = true /\ (kappa P <=? 1) = true) /\
  ((0 <=? mu P) = true /\ (mu P <=? 1) = true) /\
  ((0 <=? upsilon P) = true /\ (upsilon P <=? 1) = true) /\
  (0 <=? gamma P) = true.
Proof.
  unfold validParams in V. rewrite !andb_true_iff in V. tauto.
Qed.

Lemma newCell64_sound a b : sound (newCell P a b).
Proof.
  destruct rates as (_ & _ & _ & G).
  split; [|intros v E; discriminate E].
  split; [apply nonnegative_notNegative; exact G|split; reflexivity].
Qed.

Lemma diffusionCalc64_notNegative c L :
  notNegative (diffusiveMass c) ->
  (forall x, In x (cells L) -> massesNotNegative x) ->
  notNegative (snd (diffusionCalc c L)).
Proof.
  intros Hc HL. unfold diffusionCalc. destruct (attached c); [exact Hc|].
  cbn [snd]. apply div_notNegative.
  - apply (fold_left_notNegative
             (fun n => if attached n then diffusiveMass (set_age (age c + 1)%Z c)
                       else diffusiveMass n)).
    + intros n Hn. destruct (attached n); [destruct c; exact Hc|].
      apply (HL n (neighbors64_In _ _ _ Hn)).
    + destruct c; exact Hc.
  - apply count_positive, neighbors64_length.
Qed.

Lemma diffusionCalc64_masses c L :
  diffusiveMass (fst (diffusionCalc c L)) = diffusiveMass c /\
  boundaryMass (fst (diffusionCalc c L)) = boundaryMass c /\
  crystalMass (fst (diffusionCalc c L)) = crystalMass c.
Proof.
  unfold diffusionCalc. destruct (attached c); cbn [fst]; auto.
Qed.

Lemma stepOne64_sound c L :
  massesNotNegative c ->
  (forall x, In x (cells L) -> massesNotNegative x) ->
  sound (stepOne c L).
Proof.
  intros (D & B & C) HL. unfold stepOne.
  set (c2 := if boundary (updateBoundary c L) then _ else _).
  assert (M : diffusiveMass c2 = diffusiveMass c /\ boundaryMass c2 = boundaryMass c /\
              crystalMass c2 = crystalMass c).
  { subst c2. unfold updateBoundary. destruct c; fields.
    destruct (_ && _); fields; auto. }
  destruct M as (M1 & M2 & M3).
  pose proof (diffusionCalc64_notNegative c2 L) as N.
  pose proof (diffusionCalc64_masses c2 L) as (E1 & E2 & E3).
  destruct (diffusionCalc c2 L) as [c3 v]. cbn [fst snd] in *.
  split.
  - destruct c3; fields. unfold massesNotNegative; fields.
    rewrite E1, E2, E3, M1, M2, M3. auto.
  - destruct c3; fields. intros v' E. injection E as <-.
    apply N; [rewrite M1; exact D | exact HL].
Qed.

Lemma freezingStep64_masses c :
  massesNotNegative c -> massesNotNegative (freezingStep P c).
Proof.
  destruct rates as ((K0 & K1) & _).
  intros (D & B & C). unfold freezingStep. destruct (negb (boundary c)).
  - repeat split; auto.
  - destruct c; unfold massesNotNegative; fields. split; [|split].
    + reflexivity.
    + apply add_notNegative; auto. apply mul_notNegative; auto.
      apply one_sub_notNegative; auto.
    + apply add_notNegative; auto. apply mul_notNegative; auto.
      apply nonnegative_notNegative; auto.
Qed.

Lemma meltingStep64_masses c :
  massesNotNegative c -> massesNotNegative (meltingStep P c).
Proof.
  destruct rates as (_ & (M0 & M1) & (U0 & U1) & _).
  intros (D & B & C). unfold meltingStep. destruct (negb (boundary c)).
  - repeat split; auto.
  - destruct c; unfold massesNotNegative; fields. split; [|split].
    + apply add_notNegative; auto. apply add_notNegative.
      * apply mul_notNegative; auto. apply nonnegative_notNegative; auto.
      * apply mul_notNegative; auto. apply nonnegative_notNegative; auto.
    + apply mul_notNegative; auto. apply one_sub_notNegative; auto.
    + apply mul_notNegative; auto. apply one_sub_notNegative; auto.
Qed.

Lemma attach64_masses c : massesNotNegative c -> massesNotNegative (attach c).
Proof.
  intros (D & B & C). unfold attach. destruct c; unfold massesNotNegative; fields.
  split; [auto|split]; [reflexivity|]. apply add_notNegative; auto.
Qed.

Lemma noiseStep64_masses u c :
  massesNotNegative c -> massesNotNegative (noiseStep P u c).
Proof.
  intros (D & B & C). unfold noiseStep. destruct (attached c).
  - repeat split; auto.
  - destruct c; unfold massesNotNegative; fields. split; [|split; auto].
    apply Math_max_notNegative.
Qed.

Lemma stepTwo64_sound c L c' : sound c -> stepTwo P c L = Ok c' -> sound c'.
Proof.
  intros ((D & B & C) & N). unfold stepTwo.
  destruct (_next_dm c) as [v|] eqn:E; [|discriminate].
  set (c3 := freezingStep P _).
  assert (M3 : massesNotNegative c3).
  { apply freezingStep64_masses. destruct c; unfold massesNotNegative; fields.
    repeat split; auto. }
  assert (N3 : _next_dm c3 = _next_dm c).
  { subst c3. unfold freezingStep. destruct c; fields. destruct (negb boundary0); reflexivity. }
  destruct (attachmentStep P c3 L) as [flag| |]; try discriminate. cbn [bind].
  intros H. injection H as <-. split.
  - apply meltingStep64_masses. destruct c3; unfold massesNotNegative in *; fields. exact M3.
  - intros v' E'. apply N. rewrite <- E', <- E, <- N3.
    unfold meltingStep. destruct c3; fields.
    destruct (negb boundary0); reflexivity.
Qed.

Lemma stepThree64_sound u c : sound c -> sound (stepThree P u c).
Proof.
  intros (M & N). unfold stepThree.
  set (c1 := if boundary c && attachmentFlag c then attach c else c).
  assert (M1 : massesNotNegative c1).
  { subst c1. destruct (_ && _); auto. apply attach64_masses; auto. }
  assert (N1 : _next_dm c1 = _next_dm c).
  { subst c1. destruct (_ && _); reflexivity. }
  split; [apply noiseStep64_masses; exact M1|].
  intros v E. apply N. rewrite <- N1, <- E. unfold noiseStep.
  destruct (attached c1); reflexivity.
Qed.

(** ** The lattice *)

Lemma Map_set64_In cs c' x : In x (Map_set cs c') -> x = c' \/ In x cs.
Proof.
  unfold Map_set. destruct (existsb _ cs).
  - rewrite in_map_iff. intros (y & E & Hy).
    destruct (key_eqb (key y) (key c')); subst; auto.
  - rewrite in_app_iff. intros [H|[H|[]]]; auto.
Qed.

Lemma construct64_sound sz L :
  construct P sz = Ok L -> forall x, In x (cells L) -> sound x.
Proof.
  assert (F : forall x, In x (fill P sz) -> sound x).
  { unfold fill.
    apply (fold_left_keeps _ (fun cs => forall x, In x cs -> sound x)).
    - intros cs q0 Hcs.
      apply (fold_left_keeps _ (fun cs => forall x, In x cs -> sound x)); auto.
      intros cs' r0 Hcs'. destruct (Z.abs (q0 + r0) >? sz)%Z; auto.
      intros x Hx. apply Map_set64_In in Hx as [->|Hx]; auto.
      apply newCell64_sound.
    - intros x []. }
  unfold construct. destruct (get _ (0, 0)%Z) as [c|] eqn:G; [|discriminate].
  intros H. injection H as <-. intros x Hx.
  apply put64_In in Hx as [->|Hx]; [|apply F; exact Hx].
  apply get64_In in G. cbn [cells] in G. specialize (F c G).
  destruct c; exact F.
Qed.

Lemma step64_sound rnd L L' :
  (forall x, In x (cells L) -> sound x) -> step P rnd L = Ok L' ->
  forall x, In x (cells L') -> sound x.
Proof.
  intros HL. unfold step.
  destruct (passOne (keys L) L) as [L1| |] eqn:H1; try discriminate. cbn [bind].
  destruct (passTwo P (keys L1) L1) as [L2| |] eqn:H2; try discriminate. cbn [bind].
  intros H3.
  assert (S1 : forall x, In x (cells L1) -> sound x).
  { apply (pass64_all sound (fun c S => Ok (stepOne c S))) with (o := keys L) (L := L);
      auto.
    intros S c c' HS Hc E. injection E as <-. apply stepOne64_sound.
    - apply HS; exact Hc.
    - intros x Hx. apply HS; exact Hx. }
  assert (S2 : forall x, In x (cells L2) -> sound x).
  { apply (pass64_all sound (stepTwo P)) with (o := keys L1) (L := L1); auto.
    intros S c c' HS Hc E. apply (stepTwo64_sound c S c'); auto. }
  apply (pass64_all sound (fun c _ => Ok (stepThree P (rnd (key c)) c)))
    with (o := keys L2) (L := L2); auto.
  intros S c c' HS Hc E. injection E as <-. apply stepThree64_sound. auto.
Qed.

Lemma stepOne64_ready c L : key (stepOne c L) = key c /\ ready (stepOne c L).
Proof.
  unfold stepOne, updateBoundary, diffusionCalc, ready.
  destruct c; fields.
  destruct (negb attached0 && _) eqn:B; fields; destruct attached0; fields;
    (split; [reflexivity|split; [discriminate|]]); intros X; discriminate.
Qed.

Lemma stepTwo64_ready c L :
  ready c -> exists c', stepTwo P c L = Ok c' /\ ready c'.
Proof.
  intros [N A]. unfold stepTwo. destruct (_next_dm c) as [v|] eqn:E; [|congruence].
  unfold attachmentStep, freezingStep, meltingStep, ready in *.
  destruct c; fields. subst.
  destruct boundary0; fields.
  - destruct attachedNeighbors0 as [l|]; [|exfalso; apply A; reflexivity].
    destruct (_ <=? 2)%Z; [destruct (_ <? _)|destruct (_ =? 3)%Z;
      [destruct (1 <=? _); [|destruct (_ && _)]|]];
      cbn [bind]; eexists; (split; [reflexivity|]); fields; split; discriminate.
  - cbn [bind]. eexists; split; [reflexivity|]. fields. split; [discriminate|auto].
Qed.

Lemma step64_total rnd L : exists L', step P rnd L = Ok L'.
Proof.
  unfold step.
  destruct (pass64_total (fun _ => True) (fun c S => Ok (stepOne c S)))
    with (o := keys L) (L := L) as (L1 & H1 & _); auto.
  { intros S c _ _. eexists; split; [reflexivity|exact I]. }
  unfold passOne. rewrite H1. cbn [bind].
  assert (R1 : forall x, In x (cells L1) -> ready x).
  { intros x Hx.
    destruct (pass64_visited ready (fun c S => Ok (stepOne c S)))
      with (o := keys L) (L := L) (L' := L1) (x := x) as [R|[N Hin]]; auto.
    - intros S c c' E. injection E as <-. apply stepOne64_ready.
    - exfalso. apply N. apply in_map. exact Hin. }
  destruct (pass64_total ready (stepTwo P)) with (o := keys L1) (L := L1)
    as (L2 & H2 & _); auto.
  { intros S c HS Hc. apply stepTwo64_ready. auto. }
  unfold passTwo. rewrite H2. cbn [bind].
  destruct (pass64_total (fun _ => True) (fun c _ => Ok (stepThree P (rnd (key c)) c)))
    with (o := keys L2) (L := L2) as (L3 & H3 & _); auto.
  { intros S c _ _. eexists; split; [reflexivity|exact I]. }
  exists L3. exact H3.
Qed.

Lemma steps64_sound rnds : forall L,
  (forall x, In x (cells L) -> sound x) ->
  exists L', steps P rnds L = Ok L' /\ forall x, In x (cells L') -> sound x.
Proof.
  induction rnds as [|rnd rnds IH]; simpl; intros L HL.
  - exists L. auto.
  - destruct (step64_total rnd L) as [L1 H1]. rewrite H1. cbn [bind].
    apply IH. apply (step64_sound rnd L L1 HL H1).
Qed.

Lemma notNegative_unless_nan x : notNegative x -> nonnegativeUnlessNaN x.
Proof.
  intros H. split; [exact H|].
  apply notNegative_spec in H. unfold is_nan. rewrite eqb_spec, leb_spec, Prim2SF_zero.
  destruct (Prim2SF x) as [[]|[]| |[] m e]; simpl in *; try tauto; try discriminate; auto.
Qed.


End Rates.

(** ** Concrete runs on doubles *)

(** C6, refuted as stated: with the default parameters each of the
    three transitions changes the total mass of the boundary cell that
    holds 0.1, 1 and 1.3, both as the real number that the three doubles
    add up to and as JavaScript evaluates the sum. *)
Lemma transitions_change_the_total_in_doubles :
  boundary roundingCell = true /\
  sameTotal roundingCell (freezingStep params roundingCell) = false /\
  sameTotal roundingCell (meltingStep params roundingCell) = false /\
  sameTotal roundingCell (attach roundingCell) = false /\
  (summedMass (freezingStep params roundingCell) =? summedMass roundingCell) = false /\
  (summedMass (meltingStep params roundingCell) =? summedMass roundingCell) = false /\
  (summedMass (attach roundingCell) =? summedMass roundingCell) = false /\
  exists t, totalMass roundingCell = Some t.
Proof.
  repeat (split; [vm_compute; reflexivity|]). eexists. vm_compute. reflexivity.
Qed.


(* averaging seven cells that hold 0.1 gives less than 0.1 *)
Lemma diffusion_rounds_below_the_minimum :
  get lattice2 (1, 0)%Z = Some lattice2_cell /\
  length (neighbors lattice2_cell lattice2) = 6%nat /\
  forallb (fun n => diffusiveMass n =? 0.1) (lattice2_cell :: neighbors lattice2_cell lattice2)
  = true /\
  (snd (diffusionCalc lattice2_cell lattice2) <? 0.1) = true.
Proof. repeat split; vm_compute; reflexivity. Qed.

(* with sigma = 0.001 the largest draw moves 0.5 by more than sigma *)
Lemma noise_rounds_above_sigma :
  (0x1.fffffffffffffp-1 <? 1) = true /\
  (sigma params_sigma001
   <? diffusiveMass (noiseStep params_sigma001 0x1.fffffffffffffp-1 freshCell)
      - diffusiveMass freshCell) = true /\
  exists a b s,
    value (diffusiveMass (noiseStep params_sigma001 0x1.fffffffffffffp-1 freshCell))
    = Some a /\
    value (diffusiveMass freshCell) = Some b /\ value (sigma params_sigma001) = Some s /\
    (s < a - b)%Q.
Proof.
  split; [vm_compute; reflexivity|]. split; [vm_compute; reflexivity|].
  do 3 eexists. repeat (split; [vm_compute; reflexivity|]). vm_compute. reflexivity.
Qed.

(* stepTwo in the second step on radius 1: the total after it is not
   the candidate plus the two masses held before *)
(* stepTwo in the second step on radius 1: the total after it is not
   the candidate plus the two masses held before *)
Lemma stepTwo_rounds_the_total :
  exists v c',
    _next_dm lattice1_cell = Some v /\
    stepTwo params lattice1_cell lattice1_step = Ok c' /\
    (summedMass c' =? v + boundaryMass lattice1_cell + crystalMass lattice1_cell) = false /\
    sameTotal c' (set_diffusiveMass v lattice1_cell) = false.
Proof.
  do 2 eexists. split; [vm_compute; reflexivity|].
  split; [vm_compute; reflexivity|]. split; vm_compute; reflexivity.
Qed.

(* at size 1e308 the coordinates (1,2) and (2,1) land on the same pixel *)
Lemma hexToPixel_overflow_collides :
  (1e308 =? 0) = false /\
  hexToPixel 1 2 1e308 = hexToPixel 2 1 1e308 /\
  hexToPixel 1 2 1e308 = (infinity, infinity).
Proof. repeat split; vm_compute; reflexivity. Qed.

(* at the default scale 0.3 two neighbours of the cell (3,-2) are drawn
   at different distances from it *)
Lemma neighbors_round_to_different_distances :
  (distance2 (hexToPixel 4 (-2) 0.3) (hexToPixel 3 (-2) 0.3)
   <? distance2 (hexToPixel 3 (-3) 0.3) (hexToPixel 3 (-2) 0.3)) = true.
Proof. vm_compute; reflexivity. Qed.

(* half of the smallest negative double is -0, its floor is -0, and the
   constructor's loops run from 0 to 0: the origin is found *)
Lemma smallest_negative_gridSize_is_radius_zero :
  (-0x1p-1074 <? 0) = true /\
  toZ (latticeRadius (-0x1p-1074)) = Some 0%Z /\
  exists L, construct params 0 = Ok L.
Proof.
  split; [vm_compute; reflexivity|]. split; [vm_compute; reflexivity|].
  eexists. vm_compute. reflexivity.
Qed.

Lemma default_params_valid : validParams params = true.
Proof. vm_compute; reflexivity. Qed.


End Binary64Facts.
